(** * Luna agent core: response orchestrator and reflection consolidator

    A shallow embedding of
    - [packages/core/src/bootstrap.ts]: [checkShouldRespond],
      [latestResponseIds], [messageReceivedHandler], and the
      synchronisation of worlds, rooms and users: [syncServerChannels],
      [syncRegularServerUsers], [syncSingleUser], [handleServerSync],
      [syncMultipleUsers];
    - [packages/core/src/evaluators/reflection.ts]: [resolveEntity],
      [generateObject], [handler], [reflectionEvaluator.validate].

    Conventions.
    - JavaScript strings are [string], sequences of 8-bit characters: a
      character is a code unit from U+0000 to U+00FF, so that [É] is the
      character 201 and [é] the character 233. [toLowerCase] is the
      case mapping of JavaScript on these code units, which it does not
      lead out of.
    - A thrown error or a rejected promise is a [Throw].
    - An awaited collaborator (database adapter, model, state
      composition) is the value it resolves to, supplied from outside.
    - [messageReceivedHandler] is a process: it runs from one [await] to
      the next without interruption, and handlers of different messages
      interleave at the [await]s. The [Map] objects inside
      [latestResponseIds] are shared by reference.
    - [v4()] returns a fresh identifier; the identifiers are numbered in
      the order they are made. *)

From Stdlib Require Import ZArith List Bool Ascii String Lia.
From stdpp Require Import base option gmap strings list.

#[local] Set Warnings "-register-all".

Local Open Scope string_scope.
Local Open Scope list_scope.

(** ** Completion of a call: a returned value or a thrown error *)

Inductive Error :=
  | ResolveError (entityId : string)   (* reflection.ts:151 *)
  | EmptyPromptError                    (* reflection.ts:166 *)
  | TypeError                           (* property access on null *)
  | Rejected.                           (* an awaited collaborator rejected *)

Inductive completion (A : Type) :=
  | Return (a : A)
  | Throw (e : Error).
Arguments Return {A} a.
Arguments Throw {A} e.

Definition bindC {A B} (c : completion A) (k : A -> completion B) : completion B :=
  match c with
  | Return a => k a
  | Throw e => Throw e
  end.

(** ** The string primitives of the JavaScript runtime that the code uses *)

Module JS.

(** The code units below 256 that [toLowerCase] changes: [A] to [Z],
    [À] to [Ö] (192 to 214) and [Ø] to [Þ] (216 to 222); each is mapped
    32 places on. The multiplication sign (215) and the sharp s (223) are
    left as they are. *)
Definition is_upper (c : ascii) : bool :=
  let n := nat_of_ascii c in
  ((65 <=? n) && (n <=? 90) || (192 <=? n) && (n <=? 214)
   || (216 <=? n) && (n <=? 222))%nat.

Definition lower_char (c : ascii) : ascii :=
  if is_upper c then ascii_of_nat (nat_of_ascii c + 32) else c.

(** [s.toLowerCase()] *)
Fixpoint toLowerCase (s : string) : string :=
  match s with
  | EmptyString => EmptyString
  | String c s' => String (lower_char c) (toLowerCase s')
  end.

(** [s.includes(sub)] *)
Fixpoint includes (s sub : string) : bool :=
  match s with
  | EmptyString => String.prefix sub EmptyString
  | String _ s' => String.prefix sub s || includes s' sub
  end.

(** [s.indexOf(sub)], with [-1] when [sub] does not occur *)
Fixpoint indexOf (s sub : string) : Z :=
  match s with
  | EmptyString => if String.prefix sub EmptyString then 0 else (-1)
  | String _ s' =>
      if String.prefix sub s then 0
      else let i := indexOf s' sub in
           if (i =? -1)%Z then (-1) else (i + 1)
  end%Z.

(** [s.lastIndexOf(sub)], with [-1] when [sub] does not occur *)
Fixpoint lastIndexOf (s sub : string) : Z :=
  match s with
  | EmptyString => if String.prefix sub EmptyString then 0 else (-1)
  | String _ s' =>
      let i := lastIndexOf s' sub in
      if (i =? -1)%Z then (if String.prefix sub s then 0 else (-1))
      else (i + 1)
  end%Z.

(** [s.slice(a, b)]: negative indices count from the end, both are
    clamped to the string *)
Definition slice (s : string) (a b : Z) : string :=
  let len := Z.of_nat (String.length s) in
  let from := if (a <? 0)%Z then Z.max (len + a) 0 else Z.min a len in
  let to := if (b <? 0)%Z then Z.max (len + b) 0 else Z.min b len in
  String.substring (Z.to_nat from) (Z.to_nat (to - from)) s.

(** White space and line terminators removed by [trim] (the 8-bit ones) *)
Definition is_space (c : ascii) : bool :=
  let n := nat_of_ascii c in
  (n =? 9)%nat || (n =? 10)%nat || (n =? 11)%nat || (n =? 12)%nat
  || (n =? 13)%nat || (n =? 32)%nat || (n =? 160)%nat.

Fixpoint trimStart (s : string) : string :=
  match s with
  | EmptyString => EmptyString
  | String c s' => if is_space c then trimStart s' else s
  end.

Fixpoint trimEnd (s : string) : string :=
  match s with
  | EmptyString => EmptyString
  | String c s' =>
      match trimEnd s' with
      | EmptyString => if is_space c then EmptyString else String c EmptyString
      | t => String c t
      end
  end.

(** [s.trim()] *)
Definition trim (s : string) : string := trimEnd (trimStart s).

End JS.

(** ** Entity resolver ([reflection.ts], [resolveEntity]) *)

Module Entity.
Record t := { id : string; names : list string }.
End Entity.

Module Resolver.

(** The character class [[0-9a-f]] under the [i] flag *)
Definition is_hex (c : ascii) : bool :=
  let n := nat_of_ascii c in
  ((48 <=? n) && (n <=? 57) || (97 <=? n) && (n <=? 102)
   || (65 <=? n) && (n <=? 70))%nat.

(** [[0-9a-f]{n}]: consume exactly [n] hexadecimal digits *)
Fixpoint hex_run (n : nat) (s : string) : option string :=
  match n with
  | O => Some s
  | S n' =>
      match s with
      | String c s' => if is_hex c then hex_run n' s' else None
      | EmptyString => None
      end
  end.

(** [-]: consume one hyphen *)
Definition hyphen (s : string) : option string :=
  match s with
  | String c s' => if Ascii.eqb c "-" then Some s' else None
  | EmptyString => None
  end.

(** A pattern is a sequence of pieces, each consuming a prefix *)
Fixpoint match_seq (ps : list (string -> option string)) (s : string)
  : option string :=
  match ps with
  | [] => Some s
  | p :: ps' =>
      match p s with
      | Some s' => match_seq ps' s'
      | None => None
      end
  end.

Definition uuid_pattern : list (string -> option string) :=
  [hex_run 8; hyphen; hex_run 4; hyphen; hex_run 4; hyphen; hex_run 4;
   hyphen; hex_run 12].

(** [/^[0-9a-f]{8}-[0-9a-f]{4}-[0-9a-f]{4}-[0-9a-f]{4}-[0-9a-f]{12}$/i.test(s)] *)
Definition uuid_test (s : string) : bool :=
  match match_seq uuid_pattern s with
  | Some EmptyString => true
  | _ => false
  end.

Definition id_equals (entityId : string) (a : Entity.t) : bool :=
  String.eqb (Entity.id a) entityId.

Definition id_includes (entityId : string) (a : Entity.t) : bool :=
  JS.includes (Entity.id a) entityId.

Definition name_includes (entityId : string) (a : Entity.t) : bool :=
  existsb
    (fun n => JS.includes (JS.toLowerCase n) (JS.toLowerCase entityId))
    (Entity.names a).

Definition resolveEntity (entityId : string) (entities : list Entity.t)
  : completion string :=
  (* First try exact UUID match *)
  if uuid_test entityId then Return entityId
  else
    (* Try to match the entityId exactly *)
    match List.find (id_equals entityId) entities with
    | Some entity => Return (Entity.id entity)
    | None =>
        (* Try partial UUID match with entityId *)
        match List.find (id_includes entityId) entities with
        | Some entity => Return (Entity.id entity)
        | None =>
            (* Try name match as last resort *)
            match List.find (name_includes entityId) entities with
            | Some entity => Return (Entity.id entity)
            | None => Throw (ResolveError entityId)
            end
        end
    end.

End Resolver.

(** ** JSON values and [JSON.parse] *)

(** A number [JNum m e] stands for [m * 10^e]. *)
Inductive JSON :=
  | JNull
  | JBool (b : bool)
  | JNum (m e : Z)
  | JStr (s : string)
  | JArr (items : list JSON)
  | JObj (fields : list (string * JSON)).

Module Json.

Definition is_ws (c : ascii) : bool :=
  let n := nat_of_ascii c in
  ((n =? 32) || (n =? 9) || (n =? 10) || (n =? 13))%nat.

Fixpoint skip_ws (s : string) : string :=
  match s with
  | String c s' => if is_ws c then skip_ws s' else s
  | EmptyString => EmptyString
  end.

Definition digit_of (c : ascii) : option Z :=
  let n := nat_of_ascii c in
  if ((48 <=? n) && (n <=? 57))%nat then Some (Z.of_nat n - 48)%Z else None.

(** Zero or more digits: the value accumulated onto [acc], how many
    digits were read, and the rest *)
Fixpoint digits (acc : Z) (count : nat) (s : string) : Z * nat * string :=
  match s with
  | String c s' =>
      match digit_of c with
      | Some d => digits (acc * 10 + d)%Z (S count) s'
      | None => (acc, count, s)
      end
  | EmptyString => (acc, count, s)
  end.

(** int: [0] or a non-zero digit followed by digits *)
Definition int_part (s : string) : option (Z * string) :=
  match s with
  | String c s' =>
      match digit_of c with
      | Some 0%Z => Some (0%Z, s')
      | Some d => let '(v, _, r) := digits d 0 s' in Some (v, r)
      | None => None
      end
  | EmptyString => None
  end.

(** frac: nothing, or [.] and at least one digit *)
Definition frac_part (m : Z) (s : string) : option (Z * Z * string) :=
  match s with
  | String "." s' =>
      let '(v, k, r) := digits m 0 s' in
      match k with
      | O => None
      | _ => Some (v, (- Z.of_nat k)%Z, r)
      end
  | _ => Some (m, 0%Z, s)
  end.

(** exp: nothing, or [e]/[E], an optional sign and at least one digit *)
Definition exp_part (s : string) : option (Z * string) :=
  match s with
  | String c s' =>
      if (Ascii.eqb c "e" || Ascii.eqb c "E")%bool then
        let '(sign, s'') :=
          match s' with
          | String "+" t => (1%Z, t)
          | String "-" t => ((-1)%Z, t)
          | _ => (1%Z, s')
          end in
        let '(v, k, r) := digits 0 0 s'' in
        match k with
        | O => None
        | _ => Some ((sign * v)%Z, r)
        end
      else Some (0%Z, s)
  | EmptyString => Some (0%Z, s)
  end.

Definition number (s : string) : option (JSON * string) :=
  let '(sign, s1) :=
    match s with
    | String "-" t => ((-1)%Z, t)
    | _ => (1%Z, s)
    end in
  '(i, s2) ← int_part s1;
  '(m, e1, s3) ← frac_part i s2;
  '(e2, s4) ← exp_part s3;
  Some (JNum (sign * m) (e1 + e2), s4).

Definition hex_digit (c : ascii) : option nat :=
  let n := nat_of_ascii c in
  if ((48 <=? n) && (n <=? 57))%nat then Some (n - 48)
  else if ((97 <=? n) && (n <=? 102))%nat then Some (n - 87)
  else if ((65 <=? n) && (n <=? 70))%nat then Some (n - 55)
  else None.

(** The characters of a string literal after the opening quote, up to
    and including the closing quote. A [\u] escape is accepted when its
    code fits the 8-bit characters of the model. *)
Fixpoint chars (s : string) : option (string * string) :=
  match s with
  | EmptyString => None
  | String c s' =>
      if (nat_of_ascii c =? 34)%nat then Some (EmptyString, s')
      else if (nat_of_ascii c <? 32)%nat then None
      else if (nat_of_ascii c =? 92)%nat then
        match s' with
        | String "u" (String a (String b (String x (String y r)))) =>
            match hex_digit a, hex_digit b, hex_digit x, hex_digit y with
            | Some 0, Some 0, Some h, Some l =>
                '(t, r') ← chars r; Some (String (ascii_of_nat (16 * h + l)) t, r')
            | _, _, _, _ => None
            end
        | String e r =>
            let n := nat_of_ascii e in
            let dec :=
              if ((n =? 34) || (n =? 92) || (n =? 47))%nat then Some e
              else if Ascii.eqb e "b" then Some (ascii_of_nat 8)
              else if Ascii.eqb e "f" then Some (ascii_of_nat 12)
              else if Ascii.eqb e "n" then Some (ascii_of_nat 10)
              else if Ascii.eqb e "r" then Some (ascii_of_nat 13)
              else if Ascii.eqb e "t" then Some (ascii_of_nat 9)
              else None in
            match dec with
            | Some d => '(t, r') ← chars r; Some (String d t, r')
            | None => None
            end
        | EmptyString => None
        end
      else '(t, r') ← chars s'; Some (String c t, r')
  end.

Definition literal (word : string) (v : JSON) (s : string)
  : option (JSON * string) :=
  if String.prefix word s
  then Some (v, String.substring (String.length word) (String.length s) s)
  else None.

(** Recursive descent; every second call consumes a character, so twice
    the length of the text bounds the depth. *)
Fixpoint value (fuel : nat) (s : string) {struct fuel}
  : option (JSON * string) :=
  match fuel with
  | O => None
  | S f =>
      match skip_ws s with
      | String c r =>
          let n := nat_of_ascii c in
          if (n =? 123)%nat then            (* object *)
            match skip_ws r with
            | String c' r' =>
                if (nat_of_ascii c' =? 125)%nat then Some (JObj [], r')
                else members f [] (String c' r')
            | EmptyString => None
            end
          else if (n =? 91)%nat then        (* array *)
            match skip_ws r with
            | String c' r' =>
                if (nat_of_ascii c' =? 93)%nat then Some (JArr [], r')
                else elements f [] (String c' r')
            | EmptyString => None
            end
          else if (n =? 34)%nat then        (* string *)
            '(t, r') ← chars r; Some (JStr t, r')
          else if Ascii.eqb c "t" then literal "true" (JBool true) (String c r)
          else if Ascii.eqb c "f" then literal "false" (JBool false) (String c r)
          else if Ascii.eqb c "n" then literal "null" JNull (String c r)
          else number (String c r)
      | EmptyString => None
      end
  end
with members (fuel : nat) (acc : list (string * JSON)) (s : string)
       {struct fuel} : option (JSON * string) :=
  match fuel with
  | O => None
  | S f =>
      match skip_ws s with
      | String q r =>
          if (nat_of_ascii q =? 34)%nat then
            '(k, r1) ← chars r;
            match skip_ws r1 with
            | String ":" r2 =>
                '(v, r3) ← value f r2;
                match skip_ws r3 with
                | String c r4 =>
                    if Ascii.eqb c "," then members f (acc ++ [(k, v)]) r4
                    else if (nat_of_ascii c =? 125)%nat
                         then Some (JObj (acc ++ [(k, v)]), r4)
                         else None
                | EmptyString => None
                end
            | _ => None
            end
          else None
      | EmptyString => None
      end
  end
with elements (fuel : nat) (acc : list JSON) (s : string) {struct fuel}
       : option (JSON * string) :=
  match fuel with
  | O => None
  | S f =>
      '(v, r1) ← value f s;
      match skip_ws r1 with
      | String c r2 =>
          if Ascii.eqb c "," then elements f (acc ++ [v]) r2
          else if (nat_of_ascii c =? 93)%nat then Some (JArr (acc ++ [v]), r2)
          else None
      | EmptyString => None
      end
  end.

(** [JSON.parse(text)]: [None] stands for the [SyntaxError]. Duplicate
    keys of an object are kept in the order of the text. *)
Definition parse (text : string) : option JSON :=
  match value (2 * String.length text + 2) text with
  | Some (v, r) =>
      match skip_ws r with
      | EmptyString => Some v
      | _ => None
      end
  | None => None
  end.

End Json.

(** ** Structured extraction client ([reflection.ts], [generateObject]) *)

Module Extraction.

Section GenerateObject.

(** [JSON.parse]; [None] is the [SyntaxError] it throws. *)
Variable JSON_parse : string -> option JSON.

(** The enum branch, [reflection.ts:170-200], on the model's response *)
Definition enumResult (enumValues : list string) (response : string) : JSON :=
  let cleanedResponse := JS.trim response in
  if existsb (String.eqb cleanedResponse) enumValues then JStr cleanedResponse
  else
    match
      List.find
        (fun value =>
           JS.includes (JS.toLowerCase cleanedResponse) (JS.toLowerCase value))
        enumValues
    with
    | Some matchedValue =>
        (* [if (matchedValue)]: the empty string is falsy *)
        if String.eqb matchedValue "" then JNull else JStr matchedValue
    | None => JNull
    end.

(** [jsonString] after [reflection.ts:211-222] *)
Definition jsonStringOf (output response : string) : string :=
  let firstChar := if String.eqb output "array" then "[" else "{" in
  let lastChar := if String.eqb output "array" then "]" else "}" in
  let firstBracket := JS.indexOf response firstChar in
  let lastBracket := JS.lastIndexOf response lastChar in
  if negb (firstBracket =? -1)%Z && negb (lastBracket =? -1)%Z
     && (firstBracket <? lastBracket)%Z
  then JS.slice response firstBracket (lastBracket + 1)
  else response.

(** The object/array branch, [reflection.ts:211-243], on the model's
    response. [schema] is the optional [schema.parse], [None] standing
    for the error it throws. *)
Definition objectResult (output : string)
    (schema : option (JSON -> option JSON)) (response : string) : JSON :=
  let jsonString := jsonStringOf output response in
  if (String.length jsonString =? 0)%nat then JNull
  else
    (* try *)
    match JSON_parse jsonString with
    | Some json =>
        match schema with
        | Some schema_parse =>
            match schema_parse json with
            | Some validated => validated
            | None => JNull       (* catch *)
            end
        | None => json
        end
    | None => JNull               (* catch *)
    end.

(** [generateObject({runtime, prompt, output, enumValues, schema})].
    [useModel] is the completion of [await runtime.useModel(...)]; the
    call is made only after the prompt check. [enumValues] is an
    array, hence truthy. *)
Definition generateObject (useModel : completion string)
    (prompt output : string) (enumValues : list string)
    (schema : option (JSON -> option JSON)) : completion JSON :=
  if String.eqb prompt "" then Throw EmptyPromptError
  else if String.eqb output "enum" then
    bindC useModel (fun response => Return (enumResult enumValues response))
  else
    bindC useModel (fun response => Return (objectResult output schema response)).

End GenerateObject.

End Extraction.

(** ** Messages, extracted reflections and stored relationships *)

Module Memory.
(** [userId] is the author of the message; [reflection.ts] reads the same
    field as [message.entityId]. *)
Record t := {
  id : string;
  userId : string;
  roomId : string;
  text : string;
}.
End Memory.

(** The shape [reflectionSchema] validates *)
Module Extracted.
Record fact := {
  claim : string;
  type : string;
  in_bio : bool;
  already_known : bool;
}.
(** [metadata] is [metadata?.interactions] *)
Record relationship := {
  sourceEntityId : string;
  targetEntityId : string;
  tags : list string;
  metadata : option Z;
}.
Record reflection := {
  facts : list fact;
  relationships : list relationship;
}.
End Extracted.

(** A relationship as the database adapter returns it *)
Module Stored.
Record Metadata := {
  interactions : option Z;
  extra : list (string * JSON);
}.
Record relationship := {
  id : nat;
  sourceEntityId : string;
  targetEntityId : string;
  tags : option (list string);
  metadata : option Metadata;
}.
End Stored.

(** ** Reflection consolidator ([reflection.ts], [handler] and [validate]) *)

Module Reflection.

(** The writes [handler] issues, in order *)
Inductive DbCall :=
  | createMemory (text : string)
  | updateRelationship (r : Stored.relationship)
  | createRelationship (sourceEntityId targetEntityId : string)
      (tags : list string) (interactions : Z)
  | setCache (key value : string).

(** [Array.from(new Set(l))]: first occurrences, in order *)
Definition array_from_set (l : list string) : list string :=
  fold_left
    (fun seen x => if existsb (String.eqb x) seen then seen else seen ++ [x])
    l [].

Definition same_pair (sourceId targetId : string) (r : Stored.relationship)
  : bool :=
  String.eqb (Stored.sourceEntityId r) sourceId
  && String.eqb (Stored.targetEntityId r) targetId.

(** [(existingRelationship.metadata?.interactions || 0) + 1] *)
Definition next_interactions (r : Stored.relationship) : Z :=
  (match Stored.metadata r with
   | Some m => default 0 (Stored.interactions m)
   | None => 0
   end + 1)%Z.

Definition updated (existingRelationship : Stored.relationship)
    (relationship : Extracted.relationship) : Stored.relationship :=
  let updatedMetadata :=
    {| Stored.interactions := Some (next_interactions existingRelationship);
       Stored.extra :=
         match Stored.metadata existingRelationship with
         | Some m => Stored.extra m
         | None => []
         end |} in
  let updatedTags :=
    array_from_set
      (default [] (Stored.tags existingRelationship)
       ++ Extracted.tags relationship) in
  {| Stored.id := Stored.id existingRelationship;
     Stored.sourceEntityId := Stored.sourceEntityId existingRelationship;
     Stored.targetEntityId := Stored.targetEntityId existingRelationship;
     Stored.tags := Some updatedTags;
     Stored.metadata := Some updatedMetadata |}.

(** One iteration of the loop at [reflection.ts:323-366] *)
Definition mergeRelationship (existingRelationships : list Stored.relationship)
    (entities : list Entity.t) (relationship : Extracted.relationship)
  : list DbCall :=
  match
    bindC (Resolver.resolveEntity (Extracted.sourceEntityId relationship) entities)
      (fun sourceId =>
         bindC (Resolver.resolveEntity (Extracted.targetEntityId relationship) entities)
           (fun targetId => Return (sourceId, targetId)))
  with
  | Throw _ => []                       (* catch: continue *)
  | Return (sourceId, targetId) =>
      match List.find (same_pair sourceId targetId) existingRelationships with
      | Some existingRelationship =>
          [updateRelationship (updated existingRelationship relationship)]
      | None =>
          (* [{ interactions: 1, ...relationship.metadata }] *)
          [createRelationship sourceId targetId (Extracted.tags relationship)
             (default 1%Z (Extracted.metadata relationship))]
      end
  end.

Definition is_new_fact (fact : Extracted.fact) : bool :=
  negb (Extracted.already_known fact) && negb (Extracted.in_bio fact)
  && negb (String.eqb (Extracted.claim fact) "")
  && negb (String.eqb (JS.trim (Extracted.claim fact)) "").

Definition checkpoint_key (roomId : string) : string :=
  roomId +:+ "-reflection-last-processed".

(** [handler(runtime, message, state)]: the three reads of
    [reflection.ts:256-267] are made before anything is written, and the
    value [generateObject] resolves to is [reflection] ([None] for a
    null result). The result is the sequence of writes. *)
Definition handler (existingRelationships : list Stored.relationship)
    (entities : list Entity.t) (reflection : option Extracted.reflection)
    (message : Memory.t) : list DbCall :=
  match reflection with
  | None => []
  | Some reflection =>
      let newFacts := List.filter is_new_fact (Extracted.facts reflection) in
      List.map (fun fact => createMemory (Extracted.claim fact)) newFacts
      ++ flat_map (mergeRelationship existingRelationships entities)
           (Extracted.relationships reflection)
      ++ [setCache (checkpoint_key (Memory.roomId message)) (Memory.id message)]
  end.

(** [messages.findIndex(p)] *)
Fixpoint findIndex {A} (p : A -> bool) (l : list A) : Z :=
  match l with
  | [] => (-1)
  | x :: l' =>
      if p x then 0
      else let i := findIndex p l' in if (i =? -1) then (-1) else (i + 1)
  end%Z.

(** [Math.ceil(n / d)] on integers, for a positive [d] *)
Definition Math_ceil_div (n d : Z) : Z := (- ((- n) / d))%Z.

(** [validate(runtime, message)]: [lastMessageId] is what [getCache]
    resolves to, [messages] what [getMemories] resolves to. *)
Definition validate (lastMessageId : option string) (messages : list Memory.t)
    (conversationLength : Z) : bool :=
  let messages :=
    match lastMessageId with
    | Some lastMessageId =>
        if String.eqb lastMessageId "" then messages    (* falsy *)
        else
          let lastMessageIndex :=
            findIndex (fun msg => String.eqb (Memory.id msg) lastMessageId)
              messages in
          if (lastMessageIndex =? -1)%Z then messages
          else drop (Z.to_nat (lastMessageIndex + 1)) messages  (* splice(0, i+1) *)
    | None => messages
    end in
  let reflectionInterval := Math_ceil_div conversationLength 4 in
  (Z.of_nat (length messages) >? reflectionInterval)%Z.

End Reflection.

(** ** The persistence collaborator *)

Module Db.

Record t := {
  relationships : list Stored.relationship;
  next_id : nat;
  cache : gmap string string;
  facts : list string;
}.

Definition empty : t :=
  {| relationships := []; next_id := 0; cache := ∅; facts := [] |}.

(** Modelled from the spec: the relationship store of section 6,
    [getRelationships(entityId) -> set], is not part of the sources. The
    edges returned are those the entity takes part in. *)
Definition getRelationships (db : t) (entityId : string)
  : list Stored.relationship :=
  List.filter
    (fun r => String.eqb (Stored.sourceEntityId r) entityId
              || String.eqb (Stored.targetEntityId r) entityId)
    (relationships db).

(** Modelled from the spec: [createRelationship], [updateRelationship], the
    fact store's [create(record)] and the cache's [set(key, value)] of
    section 6 are not part of the sources. A created edge is a new record
    with an identity of its own; an update writes the edge over the
    stored record of the same identity. *)
Definition exec (db : t) (call : Reflection.DbCall) : t :=
  match call with
  | Reflection.createMemory text =>
      {| relationships := relationships db; next_id := next_id db;
         cache := cache db; facts := facts db ++ [text] |}
  | Reflection.updateRelationship r =>
      {| relationships :=
           List.map
             (fun r' => if (Stored.id r' =? Stored.id r)%nat then r else r')
             (relationships db);
         next_id := next_id db; cache := cache db; facts := facts db |}
  | Reflection.createRelationship sourceId targetId tags n =>
      {| relationships :=
           relationships db
           ++ [ {| Stored.id := next_id db;
                   Stored.sourceEntityId := sourceId;
                   Stored.targetEntityId := targetId;
                   Stored.tags := Some tags;
                   Stored.metadata :=
                     Some {| Stored.interactions := Some n; Stored.extra := [] |} |} ];
         next_id := S (next_id db); cache := cache db; facts := facts db |}
  | Reflection.setCache key value =>
      {| relationships := relationships db; next_id := next_id db;
         cache := <[key := value]> (cache db); facts := facts db |}
  end.

(** One reflection pass against the store: the evaluator's [handler]
    triggered by [message], the extraction having resolved to
    [reflection]. *)
Definition reflectionPass (entities : list Entity.t) (db : t)
    (message : Memory.t) (reflection : option Extracted.reflection) : t :=
  fold_left exec
    (Reflection.handler (getRelationships db (Memory.userId message))
       entities reflection message)
    db.

(** The stored edges of an ordered pair *)
Definition edges (db : t) (sourceId targetId : string)
  : list Stored.relationship :=
  List.filter (Reflection.same_pair sourceId targetId) (relationships db).

(** The identities in use are below the next one to be given out *)
Definition fresh_ids (db : t) : Prop :=
  Forall (λ r, Stored.id r < next_id db) (relationships db).

End Db.

(** ** Response orchestrator ([bootstrap.ts]) *)

Module Orchestrator.

(** What [getParticipantUserState] resolves to:
    ["MUTED"], ["FOLLOWED"] or [null] *)
Inductive UserState := MUTED | FOLLOWED | NONE.

Record Runtime := {
  agentId : string;
  character_name : string;
}.

(** [message.content.text.toLowerCase().includes(runtime.character.name.toLowerCase())] *)
Definition mentionsAgent (runtime : Runtime) (message : Memory.t) : bool :=
  JS.includes (JS.toLowerCase (Memory.text message))
    (JS.toLowerCase (character_name runtime)).

Definition is_muted (s : UserState) : bool :=
  match s with MUTED => true | _ => false end.

Definition is_followed (s : UserState) : bool :=
  match s with FOLLOWED => true | _ => false end.

(** [checkShouldRespond(runtime, message)]. [agentUserState] is what the
    participant-state query resolves to and [response] what the small
    model resolves to on the should-respond prompt; the latter is read
    only when no earlier test returns. *)
Definition checkShouldRespond (runtime : Runtime) (message : Memory.t)
    (agentUserState : UserState) (response : string) : bool :=
  if String.eqb (Memory.userId message) (agentId runtime) then false
  else if is_muted agentUserState && negb (mentionsAgent runtime message)
  then false
  else if is_followed agentUserState then true
  else if mentionsAgent runtime message then true
  else if JS.includes response "RESPOND" then true
  else if JS.includes response "IGNORE" then false
  else if JS.includes response "STOP" then false
  else false.

(** *** [messageReceivedHandler] as a process

    An [async] function runs without interruption from one [await] to
    the next. A handler is its position (the [await] it is suspended
    at) and its local variables; the world holds the module-level
    [latestResponseIds], whose values are [Map] objects shared by
    reference, and the calls made to the collaborators so far. *)

Inductive pc :=
  | AwaitPersist              (* bootstrap.ts:204 *)
  | AwaitShouldRespond        (* :209 *)
  | AwaitComposeState         (* :211 *)
  | AwaitUseModel             (* :220 *)
  | AwaitComposeState2        (* :249 *)
  | AwaitProcessActions       (* :257 *)
  | AwaitEvaluate             (* :260 *)
  | Completed                 (* returned after :260 *)
  | Discarded                 (* returned at :232 *)
  | Threw (e : Error) (at_ : pc).

Record Handler := {
  runtime : Runtime;
  message : Memory.t;
  responseId : nat;               (* the [v4()] of :193 *)
  agentResponses : nat;           (* the [Map] object bound at :198 *)
  shouldRespond : option bool;    (* bound at :209 *)
  at_ : pc;
}.

Inductive Call :=
  | addEmbeddingToMemory
  | createMemory
  | checkShouldRespond_
  | composeState
  | useModel
  | logDiscarded
  | processActions
  | evaluate (didRespond : bool)
  | rejected (e : Error).

(** [v4()] returns a fresh identifier: the [n]-th call returns [n], so a
    handler's [responseId] is its position in [handlers]. A [Map] object
    is its position in [maps]. *)
Record World := {
  latestResponseIds : gmap string nat;
  maps : list (gmap string nat);
  handlers : list Handler;
  log : list (nat * Call);
}.

Definition init : World :=
  {| latestResponseIds := ∅; maps := []; handlers := []; log := [] |}.

(** What [parseJSONObjectFromText(response)] is, as far as the handler
    reads it at line 235: [null]; an object whose [text] is a string, or
    is missing, [undefined] or [null]; or an object whose [text] is of
    another type, which has no [trim]. *)
Inductive ResponseContent :=
  | Null
  | TextOrNone
  | TextNotString.

(** Whether [responseContent.text?.trim()] can be evaluated: it throws a
    [TypeError] on [null] and on a [text] that is not a string. *)
Definition trims (responseContent : ResponseContent) : bool :=
  match responseContent with
  | TextOrNone => true
  | Null | TextNotString => false
  end.

(** What an awaited promise settles to *)
Inductive Settled :=
  | Fulfilled
  | FulfilledDecision (agentUserState : UserState) (response : string)
  | FulfilledText (responseContent : ResponseContent)
      (* the text of the large model, parsed *)
  | RejectedP.

(** Lines 192-207: up to the first [await] *)
Definition arrive (rt : Runtime) (msg : Memory.t) (w : World) : World :=
  let responseId := length (handlers w) in
  let '(agentResponses, ids, ms) :=
    match latestResponseIds w !! agentId rt with
    | Some m => (m, latestResponseIds w, maps w)
    | None =>
        (length (maps w),
         <[agentId rt := length (maps w)]> (latestResponseIds w),
         maps w ++ [∅])
    end in
  {| latestResponseIds := ids;
     maps := alter (insert (Memory.roomId msg) responseId) agentResponses ms;
     handlers :=
       handlers w
       ++ [ {| runtime := rt; message := msg; responseId := responseId;
               agentResponses := agentResponses; shouldRespond := None;
               at_ := AwaitPersist |} ];
     log := log w ++ [(responseId, addEmbeddingToMemory); (responseId, createMemory)] |}.

Definition goto (h : Handler) (p : pc) : Handler :=
  {| runtime := runtime h; message := message h; responseId := responseId h;
     agentResponses := agentResponses h; shouldRespond := shouldRespond h;
     at_ := p |}.

Definition decided (h : Handler) (b : bool) : Handler :=
  {| runtime := runtime h; message := message h; responseId := responseId h;
     agentResponses := agentResponses h; shouldRespond := Some b;
     at_ := AwaitComposeState |}.

(** The handler moves on, having made the calls [cs] *)
Definition continue (w : World) (h : Handler) (cs : list Call) : World :=
  {| latestResponseIds := latestResponseIds w;
     maps := maps w;
     handlers := <[responseId h := h]> (handlers w);
     log := log w ++ List.map (pair (responseId h)) cs |}.

(** [agentResponses.get(message.roomId)] *)
Definition currentResponseId (w : World) (h : Handler) : option nat :=
  match maps w !! agentResponses h with
  | Some rooms => rooms !! Memory.roomId (message h)
  | None => None
  end.

(** Lines 252-255 *)
Definition cleanup (w : World) (h : Handler) : World :=
  let ms := alter (delete (Memory.roomId (message h))) (agentResponses h) (maps w) in
  {| latestResponseIds :=
       match ms !! agentResponses h with
       | Some m =>
           if (size m =? 0)%nat
           then delete (agentId (runtime h)) (latestResponseIds w)
           else latestResponseIds w
       | None => latestResponseIds w
       end;
     maps := ms;
     handlers := handlers w;
     log := log w |}.

(** The handler [h], suspended at [at_ h], is resumed with [r] and runs
    to its next [await], to a [return] or to a [throw]. A handler that
    has ended, and a settlement that is not of the kind awaited, leave
    the world as it is. *)
Definition resumed (w : World) (h : Handler) (r : Settled) : World :=
  match at_ h, r with
  | (Completed | Discarded | Threw _ _), _ => w
  | p, RejectedP => continue w (goto h (Threw Rejected p)) [rejected Rejected]
  | AwaitPersist, Fulfilled =>
      continue w (goto h AwaitShouldRespond) [checkShouldRespond_]
  | AwaitShouldRespond, FulfilledDecision agentUserState response =>
      continue w
        (decided h (checkShouldRespond (runtime h) (message h) agentUserState response))
        [composeState]
  | AwaitComposeState, Fulfilled =>
      match shouldRespond h with
      | Some true => continue w (goto h AwaitUseModel) [useModel]
      | _ => continue w (goto h AwaitEvaluate) [evaluate false]
      end
  | AwaitUseModel, FulfilledText responseContent =>
      (* Check if this is still the latest response ID for this agent+room *)
      if decide (currentResponseId w h = Some (responseId h)) then
        (* responseContent.text = responseContent.text?.trim() *)
        if trims responseContent
        then continue w (goto h AwaitComposeState2) [composeState]
        else continue w (goto h (Threw TypeError AwaitUseModel)) [rejected TypeError]
      else continue w (goto h Discarded) [logDiscarded]
  | AwaitComposeState2, Fulfilled =>
      (* Clean up the response ID *)
      continue (cleanup w h) (goto h AwaitProcessActions) [processActions]
  | AwaitProcessActions, Fulfilled =>
      continue w (goto h AwaitEvaluate) [evaluate true]
  | AwaitEvaluate, Fulfilled => continue w (goto h Completed) []
  | _, _ => w
  end.

Inductive Action :=
  | Arrive (rt : Runtime) (msg : Memory.t)
  | Resume (tid : nat) (r : Settled).

Definition step (w : World) (a : Action) : World :=
  match a with
  | Arrive rt msg => arrive rt msg w
  | Resume tid r =>
      match handlers w !! tid with
      | Some h => resumed w h r
      | None => w
      end
  end.

Definition run (schedule : list Action) (w : World) : World :=
  fold_left step schedule w.

(** The token registered for an agent and a room:
    [latestResponseIds.get(agentId)?.get(roomId)] *)
Definition liveToken (w : World) (agent room : string) : option nat :=
  match latestResponseIds w !! agent with
  | Some m =>
      match maps w !! m with
      | Some rooms => rooms !! room
      | None => None
      end
  | None => None
  end.

Definition calls_of (tid : nat) (l : list (nat * Call)) : list Call :=
  List.map snd (List.filter (λ e, (fst e =? tid)%nat) l).

Definition dispatched (tid : nat) (w : World) : bool :=
  existsb (λ c, match c with processActions => true | _ => false end)
    (calls_of tid (log w)).

Definition evaluate_calls (tid : nat) (w : World) : list bool :=
  omap (λ c, match c with evaluate b => Some b | _ => None end)
    (calls_of tid (log w)).

Definition position (tid : nat) (w : World) : option pc :=
  at_ <$> handlers w !! tid.

End Orchestrator.

(** ** Synchronisation of worlds, rooms and users ([bootstrap.ts]) *)

Module Sync.

(** [ChannelType]: of the members of the enumeration only the two named
    in [bootstrap.ts] are told apart. *)
Inductive ChannelType := GROUP | VOICE_GROUP | OtherChannelType (name : string).

(** A platform user as [syncSingleUser] and [syncMultipleUsers] read it *)
Record User := {
  id : string;
  username : option string;
  displayName : option string;
}.

(** The argument of [runtime.ensureConnection] *)
Record Connection := {
  userId : string;
  roomId : string;
  userName : option string;
  userScreenName : option string;
  source : string;
  channelId : string;
  serverId : string;
  type : ChannelType;
  worldId : string;
}.

Inductive Level := info | warn | error | success.

(** What a sync function does, in order: the calls of the runtime and of
    the database adapter, the pauses and the log lines (their level
    only). Of the argument of [ensureWorldExists] the agent id and the
    copied metadata are left out. *)
Inductive Effect :=
  | ensureWorldExists (id name serverId : string)
  | ensureRoomExists (id name source : string) (type : ChannelType)
      (channelId serverId worldId : string)
  | ensureConnection (c : Connection)
  | getRoom (roomId : string)
  | delay (ms : nat)
  | logger (l : Level).

(** [a || b], [a] a string that may be undefined and [b] a string *)
Definition or_else (a : option string) (b : string) : string :=
  match a with
  | Some (String c s) => String c s
  | _ => b
  end.

(** [for (let i = 0; i < l.length; i += batchSize)] with
    [l.slice(i, i + batchSize)]: the indices and the batches. The loop
    runs at most [l.length] times, the batch sizes of the code being
    positive constants. *)
Fixpoint batches_from {A} (batchSize : nat) (l : list A) (fuel i : nat)
  : list (nat * list A) :=
  match fuel with
  | O => []
  | S fuel' =>
      if (i <? length l)%nat
      then (i, take batchSize (drop i l))
           :: batches_from batchSize l fuel' (i + batchSize)
      else []
  end.

Definition batches {A} (batchSize : nat) (l : list A) : list (nat * list A) :=
  batches_from batchSize l (length l) 0.

(** A guild member (with its [user]), a channel and a guild, as the sync
    functions read them; the channels of a guild with their keys in the
    cache *)
Record Member := {
  member_id : string;
  user_username : option string;
  member_displayName : option string;
}.

Record Channel := {
  channel_id : string;
  channel_name : string;
  channel_type : Z;
}.

Record Guild := {
  guild_id : string;
  members_cache : list Member;
  channels_cache : list (string * Channel);
}.

(** [{ id: member.id, username: member.user.username,
       displayName: member.displayName || member.user.username }] *)
Definition user_of_member (member : Member) : User :=
  {| id := member_id member;
     username := user_username member;
     displayName :=
       match member_displayName member with
       | Some (String c s) => Some (String c s)
       | _ => user_username member
       end |}.

Definition is_text (ch : Channel) : bool := (channel_type ch =? 0)%Z.

(** [guild.channels.cache.find((ch) => ch.name === "general" && ch.type === 0)
     || guild.channels.cache.find((ch) => ch.type === 0)] *)
Definition defaultChannel (guild : Guild) : option Channel :=
  match
    List.find (λ ch, String.eqb (channel_name ch) "general" && is_text ch)
      (List.map snd (channels_cache guild))
  with
  | Some ch => Some ch
  | None => List.find is_text (List.map snd (channels_cache guild))
  end.

(** The world, the rooms and the entities of a server event. The names
    of an entity are kept in its metadata under the name of the
    platform. *)
Record World := {
  world_id : string;
  world_name : string;
  world_serverId : string;
}.

Record Room := {
  room_id : string;
  room_name : string;
  room_type : ChannelType;
  room_channelId : string;
}.

Record Names := {
  names_username : option string;
  names_name : option string;
}.

Record Entity := {
  entity_id : string;
  entity_metadata : option (gmap string Names);
}.

(** What becomes of one user of [handleServerSync]: the call is made, or
    building its argument throws and the [catch] logs a warning, or the
    [catch] itself throws, reading [user.metadata.username] of an entity
    without metadata. *)
Inductive Attempt := Called (c : Connection) | Caught | Escaped.

Section WithRuntime.

(** [createUniqueUuid(runtime, baseId)] of [entities.ts], for the runtime
    at hand *)
Variable createUniqueUuid : string → string.

(** Whether the promise of a call is rejected: of [ensureConnection] by
    its argument, of [ensureWorldExists], of [ensureRoomExists] by the
    id of the room; and what [databaseAdapter.getRoom] settles to,
    whether there is such a room. *)
Variable rejects : Connection → bool.
Variable world_rejected : bool.
Variable room_rejected : string → bool.
Variable room_stored : string → completion bool.

(** [await Promise.all(batch.map(async (user) => { try { await
    runtime.ensureConnection(...) } catch (err) { logger.warn(...) } }))]:
    the calls are made in the order of the batch before any of them
    settles; the warnings of the rejected ones are listed after them, in
    the order of the batch. *)
Definition connect_all (connection : User → Connection) (batch : list User)
  : list Effect :=
  List.map (λ user, ensureConnection (connection user)) batch
  ++ List.map (λ _, logger warn)
       (List.filter (λ user, rejects (connection user)) batch).

(** [syncMultipleUsers(runtime, users, serverId, channelId, type, source)] *)
Definition syncMultipleUsers (users : list User) (serverId channelId : string)
    (type : ChannelType) (source : string) : list Effect :=
  if String.eqb channelId "" then [logger warn]
  else
    let roomId := createUniqueUuid channelId in
    let worldId := createUniqueUuid serverId in
    [logger info]
    ++ flat_map
         (λ '(i, batch),
            connect_all
              (λ user,
                 {| userId := id user;
                    roomId := roomId;
                    userName :=
                      Some (or_else (username user) ("User" +:+ id user));
                    userScreenName :=
                      Some
                        (or_else (displayName user)
                           (or_else (username user) ("User" +:+ id user)));
                    source := source;
                    channelId := channelId;
                    serverId := serverId;
                    type := type;
                    worldId := worldId |})
              batch)
         (batches 10 users)
    ++ [logger success].

(** [syncSingleUser(runtime, user, serverId, channelId, type, source)] *)
Definition syncSingleUser (user : User) (serverId channelId : string)
    (type : ChannelType) (source : string) : list Effect :=
  [logger info]
  ++ (if String.eqb channelId "" then [logger warn]
      else
        let connection :=
          {| userId := id user;
             roomId := createUniqueUuid channelId;
             userName :=
               Some
                 (or_else (username user)
                    (or_else (displayName user) ("User" +:+ id user)));
             userScreenName :=
               Some
                 (or_else (displayName user)
                    (or_else (username user) ("User" +:+ id user)));
             source := source;
             channelId := channelId;
             serverId := serverId;
             type := type;
             worldId := createUniqueUuid serverId |} in
        [ensureConnection connection;
         logger (if rejects connection then error else success)]).

(** [syncRegularServerUsers(runtime, guild, source)]; [fetched] is what
    [guild.members.fetch()] settles to, asked for only when the cache is
    empty. *)
Definition syncRegularServerUsers (guild : Guild)
    (fetched : completion (list Member)) (source : string) : list Effect :=
  [logger info]
  ++ match
       match members_cache guild with
       | [] => fetched
       | members => Return members
       end
     with
     | Throw _ => [logger error]
     | Return members =>
         [logger info]
         ++ match defaultChannel guild with
            | None => [logger warn]
            | Some defaultChannel =>
                flat_map
                  (λ '(i, batch),
                     syncMultipleUsers (List.map user_of_member batch)
                       (guild_id guild) (channel_id defaultChannel) GROUP source
                     ++ (if (i + 100 <? length members)%nat
                         then [delay 1000] else []))
                  (batches 100 members)
                ++ [logger success]
            end
     end.

(** The loop of [syncServerChannels] over the channels of the guild,
    and whether it came to its end *)
Fixpoint sync_channels (guild : Guild) (worldId : string)
    (channels : list (string * Channel)) : list Effect * bool :=
  match channels with
  | [] => ([], true)
  | (channelId, channel) :: rest =>
      if (channel_type channel =? 0)%Z || (channel_type channel =? 2)%Z then
        let roomId := createUniqueUuid channelId in
        match room_stored roomId with
        | Throw _ => ([getRoom roomId], false)
        | Return true =>
            let '(effects, ok) := sync_channels guild worldId rest in
            (getRoom roomId :: effects, ok)
        | Return false =>
            let channelType :=
              if (channel_type channel =? 0)%Z then GROUP
              else if (channel_type channel =? 2)%Z then VOICE_GROUP
              else GROUP in
            let call :=
              ensureRoomExists roomId (channel_name channel) "discord"
                channelType (channel_id channel) (guild_id guild) worldId in
            if room_rejected roomId then ([getRoom roomId; call], false)
            else
              let '(effects, ok) := sync_channels guild worldId rest in
              (getRoom roomId :: call :: effects, ok)
        end
      else sync_channels guild worldId rest
  end.

(** [syncServerChannels(runtime, server, source)]; [fetched] is what
    [server.fetch()] settles to. *)
Definition syncServerChannels (fetched : completion Guild) (source : string)
  : list Effect :=
  if String.eqb source "discord" then
    match fetched with
    | Throw _ => [logger error]
    | Return guild =>
        let '(effects, ok) :=
          sync_channels guild (createUniqueUuid (guild_id guild))
            (channels_cache guild) in
        effects ++ (if ok then [] else [logger error])
    end
  else [].

(** The loop of [handleServerSync] over the rooms, one call after the
    other, and whether it came to its end *)
Fixpoint ensure_rooms (world : World) (source : string) (rooms : list Room)
  : list Effect * bool :=
  match rooms with
  | [] => ([], true)
  | room :: rest =>
      let call :=
        ensureRoomExists (room_id room) (room_name room) source
          (room_type room) (room_channelId room) (world_serverId world)
          (world_id world) in
      if room_rejected (room_id room) then ([call], false)
      else
        let '(effects, ok) := ensure_rooms world source rest in
        (call :: effects, ok)
  end.

(** One user of a batch of [handleServerSync]: the argument of
    [ensureConnection] is built field by field, [firstRoomUserIsIn.id]
    before [user.metadata[source].username]. *)
Definition attempt (world : World) (source : string)
    (firstRoomUserIsIn : option Room) (user : Entity) : Attempt :=
  match firstRoomUserIsIn, entity_metadata user with
  | _, None => Escaped
  | None, Some _ => Caught
  | Some room, Some metadata =>
      match metadata !! source with
      | None => Caught
      | Some names =>
          Called
            {| userId := entity_id user;
               roomId := room_id room;
               userName := names_username names;
               userScreenName := names_name names;
               source := source;
               channelId := room_channelId room;
               serverId := world_serverId world;
               type := room_type room;
               worldId := world_id world |}
      end
  end.

(** A batch of [handleServerSync], [await Promise.all(userBatch.map(async
    (user) => ...))]: first what is done before any call settles, in the
    order of the batch, the calls and the warnings of the users whose
    argument could not be built; then the warnings of the calls that are
    rejected, which come as those calls settle; and whether every
    [catch] went through, none throwing in turn. *)
Definition connect_entities (world : World) (source : string)
    (firstRoomUserIsIn : option Room) (batch : list Entity)
  : list Effect * list Effect * bool :=
  (flat_map
     (λ user,
        match attempt world source firstRoomUserIsIn user with
        | Called c => [ensureConnection c]
        | Caught => [logger warn]
        | Escaped => []
        end)
     batch,
   flat_map
     (λ user,
        match attempt world source firstRoomUserIsIn user with
        | Called c => if rejects c then [logger warn] else []
        | _ => []
        end)
     batch,
   forallb
     (λ user,
        match attempt world source firstRoomUserIsIn user with
        | Escaped => false
        | _ => true
        end)
     batch).

(** The loop of [handleServerSync] over the batches of users: what is
    done up to its end, whether it came to its end, and what is still to
    come then. When every [catch] of a batch goes through, [Promise.all]
    waits for all the calls of the batch, and their warnings come before
    the pause and the next batch. When a [catch] throws, [Promise.all]
    rejects at once, without waiting for the calls under way: the loop
    is left, and the warnings of those calls that are rejected are still
    to come. *)
Fixpoint sync_entities (world : World) (source : string) (rooms : list Room)
    (users_length : nat) (todo : list (nat * list Entity))
  : list Effect * bool * list Effect :=
  match todo with
  | [] => ([], true, [])
  | (i, userBatch) :: rest =>
      let firstRoomUserIsIn := head rooms in
      let '(started, warned, ok) :=
        connect_entities world source firstRoomUserIsIn userBatch in
      if ok then
        let '(later, ok', afterwards) :=
          sync_entities world source rooms users_length rest in
        (started ++ warned
         ++ (if (i + 50 <? users_length)%nat then [delay 500] else [])
         ++ later, ok', afterwards)
      else (started, false, warned)
  end.

(** [handleServerSync({ runtime, world, rooms, users, source })]; the
    rooms and the users may be undefined. After a [catch] has thrown,
    the error is reported by the outer [catch] and the function returns;
    the warnings still to come follow the report. *)
Definition handleServerSync (world : World) (rooms : option (list Room))
    (users : option (list Entity)) (source : string) : list Effect :=
  [logger info;
   ensureWorldExists (world_id world) (world_name world) (world_serverId world)]
  ++ (if world_rejected then [logger error]
      else
        let '(room_calls, ok) :=
          ensure_rooms world source (default [] rooms) in
        room_calls
        ++ (if ok then
              match users with
              | None | Some [] => [logger success]
              | Some users =>
                  match rooms with
                  | None => [logger error]
                  | Some rooms =>
                      let '(effects, ok', afterwards) :=
                        sync_entities world source rooms (length users)
                          (batches 50 users) in
                      effects
                      ++ [logger (if ok' then success else error)]
                      ++ afterwards
                  end
              end
            else [logger error])).

End WithRuntime.

(** The calls of [ensureConnection] among some effects *)
Definition connections (effects : list Effect) : list Connection :=
  omap (λ e, match e with ensureConnection c => Some c | _ => None end) effects.

(** The pauses among some effects *)
Definition delays (effects : list Effect) : list nat :=
  omap (λ e, match e with delay ms => Some ms | _ => None end) effects.

(** The rooms of the calls of [ensureRoomExists] among some effects *)
Definition rooms_ensured (effects : list Effect) : list string :=
  omap
    (λ e, match e with ensureRoomExists id _ _ _ _ _ _ => Some id | _ => None end)
    effects.

End Sync.

(** ** Sample data *)

Module Sample.

Definition alice : string := "11111111-1111-1111-1111-111111111111".
Definition bob : string := "22222222-2222-2222-2222-222222222222".

Definition agent : Orchestrator.Runtime :=
  {| Orchestrator.agentId := "agent-1";
     Orchestrator.character_name := "SarahBot" |}.

(** A message of the user [alice] in the room [general] *)
Definition said (id text : string) : Memory.t :=
  {| Memory.id := id; Memory.userId := alice; Memory.roomId := "general";
     Memory.text := text |}.

(** The extracted relationship [{alice -> bob, tags}] *)
Definition observed (tags : list string) (metadata : option Z)
  : Extracted.relationship :=
  {| Extracted.sourceEntityId := alice; Extracted.targetEntityId := bob;
     Extracted.tags := tags; Extracted.metadata := metadata |}.

Definition extraction (relationships : list Extracted.relationship)
  : option Extracted.reflection :=
  Some {| Extracted.facts := []; Extracted.relationships := relationships |}.

Definition edge (id : nat) (tags : list string) (interactions : Z)
  : Stored.relationship :=
  {| Stored.id := id; Stored.sourceEntityId := alice;
     Stored.targetEntityId := bob; Stored.tags := Some tags;
     Stored.metadata :=
       Some {| Stored.interactions := Some interactions; Stored.extra := [] |} |}.

(** The settlements that take a handler from [AwaitPersist] to the
    [await] of the large model, the should-respond decision being true
    (the room is followed) *)
Definition to_generation (tid : nat) : list Orchestrator.Action :=
  [Orchestrator.Resume tid Orchestrator.Fulfilled;
   Orchestrator.Resume tid
     (Orchestrator.FulfilledDecision Orchestrator.FOLLOWED "");
   Orchestrator.Resume tid Orchestrator.Fulfilled].

(** The model answers and the token check is made *)
Definition generated (tid : nat) : Orchestrator.Action :=
  Orchestrator.Resume tid (Orchestrator.FulfilledText Orchestrator.TextOrNone).

Definition arrives (id : string) : Orchestrator.Action :=
  Orchestrator.Arrive agent (said id "hello").

(** Four messages in one room. Handlers 0 and 1 both pass the token
    check before either cleans up; 1 cleans up and the agent's map is
    dropped; message 2 arrives and gets a new map; 0 cleans up and drops
    that one; message 3 arrives and gets a third map; 2 then reaches
    the model. *)
Definition four_messages : list Orchestrator.Action :=
  [arrives "m0"] ++ to_generation 0 ++ [generated 0]
  ++ [arrives "m1"] ++ to_generation 1 ++ [generated 1]
  ++ [Orchestrator.Resume 1 Orchestrator.Fulfilled]
  ++ [arrives "m2"]
  ++ [Orchestrator.Resume 0 Orchestrator.Fulfilled]
  ++ [arrives "m3"]
  ++ to_generation 2.

(** Two messages in one room. Handler 0 passes the token check and is
    suspended on the second [composeState] when message 1 arrives. *)
Definition two_messages : list Orchestrator.Action :=
  [arrives "m0"] ++ to_generation 0 ++ [generated 0] ++ [arrives "m1"].

(** Two messages in one room. Message 1 arrives while handler 0 waits
    for the model. *)
Definition superseded : list Orchestrator.Action :=
  [arrives "m0"] ++ to_generation 0 ++ [arrives "m1"] ++ [generated 0].

(** A world with one room, a user known on Discord and an entity
    without metadata *)
Definition world : Sync.World :=
  {| Sync.world_id := "w"; Sync.world_name := "World";
     Sync.world_serverId := "s" |}.

Definition room : Sync.Room :=
  {| Sync.room_id := "r1"; Sync.room_name := "general";
     Sync.room_type := Sync.GROUP; Sync.room_channelId := "c1" |}.

Definition user : Sync.Entity :=
  {| Sync.entity_id := "u1";
     Sync.entity_metadata :=
       Some
         {[ "discord" :=
              {| Sync.names_username := Some "ada";
                 Sync.names_name := Some "Ada" |} ]} |}.


(** A guild of 201 members with one text channel *)
Definition member : Sync.Member :=
  {| Sync.member_id := "m"; Sync.user_username := Some "ada";
     Sync.member_displayName := None |}.

Definition lobby : Sync.Channel :=
  {| Sync.channel_id := "c2"; Sync.channel_name := "general";
     Sync.channel_type := 0 |}.

Definition guild : Sync.Guild :=
  {| Sync.guild_id := "guild";
     Sync.members_cache := replicate 201 member;
     Sync.channels_cache := [("c2", lobby)] |}.

End Sample.

(** * Specifications *)

(** ** Vocabulary *)

(** [sub] occurs in [s] *)
Definition substring_of (sub s : string) : Prop :=
  ∃ pre post, s = pre +:+ sub +:+ post.

(** [x] is the first element of [l] with property [P] *)
Definition first_such {A} (P : A → Prop) (l : list A) (x : A) : Prop :=
  ∃ l1 l2, l = l1 ++ x :: l2 ∧ P x ∧ Forall (λ y, ¬ P y) l1.

Definition none_such {A} (P : A → Prop) (l : list A) : Prop :=
  Forall (λ y, ¬ P y) l.

(** A capital letter and its small letter: the capitals are [A] to [Z]
    (65 to 90) and, among the letters with accents, [À] to [Ö] (192 to
    214) and [Ø] to [Þ] (216 to 222); the small letter stands 32 places
    after its capital. *)
Definition capital_of (capital small : ascii) : Prop :=
  ((65 <= nat_of_ascii capital ∧ nat_of_ascii capital <= 90)
   ∨ (192 <= nat_of_ascii capital ∧ nat_of_ascii capital <= 214)
   ∨ (216 <= nat_of_ascii capital ∧ nat_of_ascii capital <= 222))%nat
  ∧ nat_of_ascii small = (nat_of_ascii capital + 32)%nat.

(** The same character, but for its case *)
Definition same_letter (c d : ascii) : Prop :=
  c = d ∨ capital_of c d ∨ capital_of d c.

(** The same text, but for the case of its letters *)
Inductive equal_ignoring_case : string → string → Prop :=
  | equal_ignoring_case_nil : equal_ignoring_case "" ""
  | equal_ignoring_case_cons c d s t :
      same_letter c d → equal_ignoring_case s t →
      equal_ignoring_case (String c s) (String d t).

(** [sub] occurs in [s], the case of the letters being ignored *)
Definition occurs_ignoring_case (sub s : string) : Prop :=
  ∃ pre mid post, s = pre +:+ mid +:+ post ∧ equal_ignoring_case sub mid.

(** A hexadecimal digit, of either case *)
Definition hex_digit (c : ascii) : Prop :=
  c ∈ list_ascii_of_string "0123456789abcdefABCDEF".

(** [n] hexadecimal digits *)
Definition hex_group (n : nat) (g : string) : Prop :=
  String.length g = n ∧ Forall hex_digit (list_ascii_of_string g).

(** The textual form 8-4-4-4-12 of a UUID *)
Definition uuid_syntax (s : string) : Prop :=
  ∃ a b c d e,
    s = a +:+ "-" +:+ b +:+ "-" +:+ c +:+ "-" +:+ d +:+ "-" +:+ e
    ∧ hex_group 8 a ∧ hex_group 4 b ∧ hex_group 4 c ∧ hex_group 4 d
    ∧ hex_group 12 e.

(** The four rules of the entity resolver, as the specification words them *)
Module Rules.

Definition exact_id (x : string) (a : Entity.t) : Prop := Entity.id a = x.

Definition partial_id (x : string) (a : Entity.t) : Prop :=
  substring_of x (Entity.id a).

Definition known_name (x : string) (a : Entity.t) : Prop :=
  Exists (λ n, occurs_ignoring_case x n) (Entity.names a).

Inductive resolves (x : string) (roster : list Entity.t)
  : completion string → Prop :=
  | by_uuid :
      uuid_syntax x → resolves x roster (Return x)
  | by_exact_id a :
      ¬ uuid_syntax x → first_such (exact_id x) roster a →
      resolves x roster (Return (Entity.id a))
  | by_partial_id a :
      ¬ uuid_syntax x → none_such (exact_id x) roster →
      first_such (partial_id x) roster a →
      resolves x roster (Return (Entity.id a))
  | by_known_name a :
      ¬ uuid_syntax x → none_such (exact_id x) roster →
      none_such (partial_id x) roster →
      first_such (known_name x) roster a →
      resolves x roster (Return (Entity.id a))
  | unresolved :
      ¬ uuid_syntax x → none_such (exact_id x) roster →
      none_such (partial_id x) roster → none_such (known_name x) roster →
      resolves x roster (Throw (ResolveError x)).

End Rules.

(** The messages left once everything at or before the checkpoint is cut
    off: those after the first message carrying the checkpoint's id, or
    the whole window when there is no checkpoint or it is not in the
    window *)
Inductive remaining (checkpoint : option string) (messages : list Memory.t)
  : list Memory.t → Prop :=
  | remaining_after c pre m post :
      checkpoint = Some c → c ≠ "" →
      messages = pre ++ m :: post → Memory.id m = c →
      Forall (λ m', Memory.id m' ≠ c) pre →
      remaining checkpoint messages post
  | remaining_no_checkpoint :
      checkpoint = None ∨ checkpoint = Some "" →
      remaining checkpoint messages messages
  | remaining_not_found c :
      checkpoint = Some c → Forall (λ m', Memory.id m' ≠ c) messages →
      remaining checkpoint messages messages.

(** [k] is the ceiling of [n / 4] *)
Definition ceiling_of_quarter (n k : Z) : Prop := (4 * (k - 1) < n ≤ 4 * k)%Z.

(** The message text mentions the agent's name, case-insensitively *)
Definition mention (rt : Orchestrator.Runtime) (msg : Memory.t) : Prop :=
  occurs_ignoring_case (Orchestrator.character_name rt) (Memory.text msg).

(** The brackets of the requested shape *)
Definition opening (output : string) : string :=
  if String.eqb output "array" then "[" else "{".

Definition closing (output : string) : string :=
  if String.eqb output "array" then "]" else "}".

(** [s] holds an opening bracket with a closing bracket somewhere after it *)
Definition bracket_pair (output s : string) : Prop :=
  ∃ pre mid post,
    s = pre +:+ opening output +:+ mid +:+ closing output +:+ post.

(** [r] is an edge of the ordered pair *)
Definition edge_of (sourceId targetId : string) (r : Stored.relationship) : Prop :=
  Stored.sourceEntityId r = sourceId ∧ Stored.targetEntityId r = targetId.

(** The counter of an edge, a missing one counting as 0 *)
Definition prior_interactions (r : Stored.relationship) : Z :=
  default 0%Z (Stored.metadata r ≫= Stored.interactions).

(** [tags] is the union of [old] and [new], without repetition *)
Definition union_of (old new tags : list string) : Prop :=
  NoDup tags ∧ ∀ t, t ∈ tags ↔ t ∈ old ∨ t ∈ new.

(** The calls a handler has made when it is at a given position, the
    should-respond decision being [sr] *)
Module Trace.

Import Orchestrator.

Definition persisted : list Call := [addEmbeddingToMemory; createMemory].

Definition generating : list Call :=
  persisted ++ [checkShouldRespond_; composeState; useModel].

Fixpoint calls_at (sr : option bool) (p : pc) : list Call :=
  match p with
  | AwaitPersist => persisted
  | AwaitShouldRespond => persisted ++ [checkShouldRespond_]
  | AwaitComposeState => persisted ++ [checkShouldRespond_; composeState]
  | AwaitUseModel => generating
  | AwaitComposeState2 => generating ++ [composeState]
  | AwaitProcessActions => generating ++ [composeState; processActions]
  | AwaitEvaluate | Completed =>
      match sr with
      | Some true => generating ++ [composeState; processActions; evaluate true]
      | _ => persisted ++ [checkShouldRespond_; composeState; evaluate false]
      end
  | Discarded => generating ++ [logDiscarded]
  | Threw e p' => calls_at sr p' ++ [rejected e]
  end.

(** The decision that goes with a position *)
Fixpoint coherent (sr : option bool) (p : pc) : Prop :=
  match p with
  | AwaitPersist | AwaitShouldRespond => sr = None
  | AwaitComposeState | AwaitEvaluate | Completed => is_Some sr
  | AwaitUseModel | AwaitComposeState2 | AwaitProcessActions | Discarded =>
      sr = Some true
  | Threw _ p' => coherent sr p'
  end.

(** The handler has returned or thrown *)
Definition terminal (p : pc) : Prop :=
  match p with
  | Completed | Discarded | Threw _ _ => True
  | _ => False
  end.

(** The log and the handlers agree *)
Definition consistent (w : World) : Prop :=
  (∀ tid h, handlers w !! tid = Some h →
     responseId h = tid
     ∧ calls_of tid (log w) = calls_at (shouldRespond h) (at_ h)
     ∧ coherent (shouldRespond h) (at_ h))
  ∧ (∀ tid c, (tid, c) ∈ log w → tid < length (handlers w)).

End Trace.

(** [call] writes to the relationship store *)
Definition relationship_write (call : Reflection.DbCall) : Prop :=
  match call with
  | Reflection.updateRelationship _ | Reflection.createRelationship _ _ _ _ => True
  | _ => False
  end.

(** The calls of the large model, and the dispatches, among some calls *)
Definition model_calls (calls : list Orchestrator.Call) : list Orchestrator.Call :=
  List.filter
    (λ c, match c with Orchestrator.useModel => true | _ => false end) calls.

Definition dispatches (calls : list Orchestrator.Call) : list Orchestrator.Call :=
  List.filter
    (λ c, match c with Orchestrator.processActions => true | _ => false end)
    calls.

(** The token table and the handlers agree *)
Module Tokens.

Import Orchestrator.

Definition agent_of (h : Handler) : string := agentId (runtime h).

(** Every registered map object exists and is held by a handler of the
    agent it is registered for; every handler holds an existing map
    object; the handlers that hold one map object are of one agent. *)
Definition wf (w : World) : Prop :=
  (∀ a m, latestResponseIds w !! a = Some m →
     m < length (maps w)
     ∧ ∃ tid h, handlers w !! tid = Some h ∧ agentResponses h = m
                ∧ agent_of h = a)
  ∧ (∀ tid h, handlers w !! tid = Some h →
       responseId h = tid ∧ agentResponses h < length (maps w))
  ∧ (∀ tid h tid' h',
       handlers w !! tid = Some h → handlers w !! tid' = Some h' →
       agentResponses h = agentResponses h' → agent_of h = agent_of h').

(** The agent on whose behalf an action runs *)
Definition acting_agent (w : World) (a : Action) : option string :=
  match a with
  | Arrive rt _ => Some (agentId rt)
  | Resume tid _ => agent_of <$> handlers w !! tid
  end.

(** A message arrives as the [tid]-th one and its handler runs to its end
    with nothing in between *)
Definition alone (rt : Runtime) (msg : Memory.t) (tid : nat)
    (agentUserState : UserState) (response : string)
    (responseContent : ResponseContent) : list Action :=
  [Arrive rt msg;
   Resume tid Fulfilled;
   Resume tid (FulfilledDecision agentUserState response);
   Resume tid Fulfilled;
   Resume tid (FulfilledText responseContent);
   Resume tid Fulfilled;
   Resume tid Fulfilled;
   Resume tid Fulfilled].

End Tokens.

(** The warnings among some effects *)
Definition warnings (effects : list Sync.Effect) : list Sync.Effect :=
  List.filter
    (λ e, match e with Sync.logger Sync.warn => true | _ => false end) effects.

(** A text channel of a guild, and one named "general" *)
Definition text_channel (ch : Sync.Channel) : Prop :=
  Sync.channel_type ch = 0%Z.

Definition general_channel (ch : Sync.Channel) : Prop :=
  Sync.channel_name ch = "general" ∧ text_channel ch.

(** A name that is given: a string, and not the empty one *)
Definition given (name : option string) : Prop :=
  ∃ s, name = Some s ∧ s ≠ "".

(** The members [syncRegularServerUsers] works on: those of the cache,
    or the fetched ones when the cache is empty *)
Definition members_synced (guild : Sync.Guild)
    (fetched : completion (list Sync.Member)) (members : list Sync.Member)
  : Prop :=
  (Sync.members_cache guild ≠ [] ∧ members = Sync.members_cache guild)
  ∨ (Sync.members_cache guild = [] ∧ fetched = Return members).

(** The call [handleServerSync] makes for a user, if it makes one *)
Definition called (world : Sync.World) (source : string)
    (firstRoomUserIsIn : option Sync.Room) (user : Sync.Entity)
  : option Sync.Connection :=
  match Sync.attempt world source firstRoomUserIsIn user with
  | Sync.Called c => Some c
  | _ => None
  end.

(** An entity with metadata, and one with names for a platform in it *)
Definition has_metadata (user : Sync.Entity) : bool :=
  match Sync.entity_metadata user with Some _ => true | None => false end.

Definition known_on (source : string) (user : Sync.Entity) : bool :=
  match Sync.entity_metadata user with
  | Some metadata =>
      match metadata !! source with Some _ => true | None => false end
  | None => false
  end.

(** The users of the batches gone through, the first batch with an
    entity without metadata being the last *)
Fixpoint gone_through (todo : list (nat * list Sync.Entity))
  : list Sync.Entity :=
  match todo with
  | [] => []
  | (_, batch) :: rest =>
      if forallb has_metadata batch then batch ++ gone_through rest
      else batch
  end.

(** The effects between the pauses: up to the first pause, from each
    pause to the next, and after the last *)
Fixpoint between_pauses (effects : list Sync.Effect)
  : list (list Sync.Effect) :=
  match effects with
  | [] => [[]]
  | Sync.delay _ :: rest => [] :: between_pauses rest
  | e :: rest =>
      match between_pauses rest with
      | part :: parts => (e :: part) :: parts
      | [] => [[e]]
      end
  end.

(** The last of some effects is the report of an error. *)
Definition ends_in_error (effects : list Sync.Effect) : Prop :=
  last effects = Some (Sync.logger Sync.error).

(** A channel [syncServerChannels] makes a room of: a text or a voice
    channel of which no room is stored *)
Definition to_be_stored (createUniqueUuid : string → string)
    (room_stored : string → completion bool) (entry : string * Sync.Channel)
  : bool :=
  ((Sync.channel_type entry.2 =? 0)%Z || (Sync.channel_type entry.2 =? 2)%Z)
  && match room_stored (createUniqueUuid entry.1) with
     | Return false => true
     | _ => false
     end.

(** * Proofs *)

(** ** Strings *)

Lemma app_nil (s : string) : "" +:+ s = s.
Proof. reflexivity. Qed.

Lemma app_cons (c : ascii) (a b : string) : String c a +:+ b = String c (a +:+ b).
Proof. reflexivity. Qed.

(** [String.append] is never unfolded by [simpl]; its equations are used
    instead. *)
Ltac app_simpl := rewrite ?app_cons, ?app_nil.
Tactic Notation "app_simpl" "in" hyp(H) := rewrite ?app_cons, ?app_nil in H.

Lemma append_empty_r (s : string) : s +:+ "" = s.
Proof. induction s as [|c s IH]; app_simpl; [done | by rewrite IH]. Qed.

Lemma prefix_spec (sub s : string) :
  String.prefix sub s = true ↔ ∃ post, s = sub +:+ post.
Proof.
  revert s. induction sub as [|c sub IH]; intros s; simpl.
  - split; [intros _; exists s; reflexivity | by destruct s].
  - destruct s as [|d s]; simpl.
    + split; [done | intros [post H]; discriminate].
    + destruct (ascii_dec c d) as [->|Hne].
      * rewrite IH. split; intros [post H]; exists post; app_simpl;
          app_simpl in H; congruence.
      * split; [done | intros [post H]; app_simpl in H; congruence].
Qed.

Lemma includes_spec (s sub : string) :
  JS.includes s sub = true ↔ substring_of sub s.
Proof.
  unfold substring_of. induction s as [|c s IH]; cbn [JS.includes].
  - rewrite prefix_spec. split.
    + intros [post H]. by exists "", post.
    + intros (pre & post & H). destruct pre; app_simpl in H; [by exists post | done].
  - rewrite orb_true_iff, IH, prefix_spec. split.
    + intros [[post H] | (pre & post & H)].
      * by exists "", post.
      * exists (String c pre), post. app_simpl. by rewrite H.
    + intros (pre & post & H). destruct pre as [|d pre]; app_simpl in H.
      * left. by exists post.
      * right. exists pre, post. congruence.
Qed.

Lemma includes_false (s sub : string) :
  JS.includes s sub = false ↔ ¬ substring_of sub s.
Proof. rewrite <- includes_spec. by destruct (JS.includes s sub). Qed.

(** ** [toLowerCase] *)

Lemma is_upper_spec (c : ascii) :
  JS.is_upper c = true
  ↔ ((65 <= nat_of_ascii c ∧ nat_of_ascii c <= 90)
     ∨ (192 <= nat_of_ascii c ∧ nat_of_ascii c <= 214)
     ∨ (216 <= nat_of_ascii c ∧ nat_of_ascii c <= 222))%nat.
Proof.
  unfold JS.is_upper. cbv zeta.
  rewrite !orb_true_iff, !andb_true_iff, !Nat.leb_le. tauto.
Qed.

Lemma nat_of_ascii_inj (c d : ascii) : nat_of_ascii c = nat_of_ascii d → c = d.
Proof.
  intros H. rewrite <- (ascii_nat_embedding c), <- (ascii_nat_embedding d).
  by rewrite H.
Qed.

Lemma nat_of_lower_char (c : ascii) :
  nat_of_ascii (JS.lower_char c)
  = if JS.is_upper c then (nat_of_ascii c + 32)%nat else nat_of_ascii c.
Proof.
  unfold JS.lower_char. destruct (JS.is_upper c) eqn:Hu; [|done].
  apply is_upper_spec in Hu. apply nat_ascii_embedding. lia.
Qed.

Lemma lower_char_same (c d : ascii) :
  JS.lower_char c = JS.lower_char d ↔ same_letter c d.
Proof.
  unfold same_letter, capital_of. split.
  - intros H. apply (f_equal nat_of_ascii) in H.
    rewrite !nat_of_lower_char in H.
    destruct (JS.is_upper c) eqn:Hc, (JS.is_upper d) eqn:Hd.
    + left. apply nat_of_ascii_inj. lia.
    + right. left. apply is_upper_spec in Hc. split; [done | lia].
    + right. right. apply is_upper_spec in Hd. split; [done | lia].
    + left. by apply nat_of_ascii_inj.
  - intros H. apply nat_of_ascii_inj. rewrite !nat_of_lower_char.
    destruct H as [-> | [[Hc Hd] | [Hd Hc]]]; [done| |].
    + assert (JS.is_upper c = true) as -> by (by apply is_upper_spec).
      assert (JS.is_upper d = false) as ->; [|lia].
      apply not_true_iff_false. intros Hu%is_upper_spec. lia.
    + assert (JS.is_upper d = true) as -> by (by apply is_upper_spec).
      assert (JS.is_upper c = false) as ->; [|lia].
      apply not_true_iff_false. intros Hu%is_upper_spec. lia.
Qed.

Lemma toLowerCase_equal (s t : string) :
  JS.toLowerCase s = JS.toLowerCase t ↔ equal_ignoring_case s t.
Proof.
  split.
  - revert t. induction s as [|c s IH]; intros [|d t] H; simpl in H;
      try discriminate; [constructor|].
    injection H as Hc Hs. constructor; [by apply lower_char_same | by apply IH].
  - induction 1 as [|c d s t Hc _ IH]; [done|]. simpl.
    apply lower_char_same in Hc. by rewrite Hc, IH.
Qed.

Lemma toLowerCase_app (a b : string) :
  JS.toLowerCase (a +:+ b) = JS.toLowerCase a +:+ JS.toLowerCase b.
Proof.
  induction a as [|c a IH]; app_simpl; [done|]. simpl. app_simpl.
  by rewrite IH.
Qed.

Lemma toLowerCase_split (s x y : string) :
  JS.toLowerCase s = x +:+ y →
  ∃ a b, s = a +:+ b ∧ JS.toLowerCase a = x ∧ JS.toLowerCase b = y.
Proof.
  revert s. induction x as [|c x IH]; intros s H; app_simpl in H.
  - by exists "", s.
  - destruct s as [|d s]; simpl in H; [discriminate|].
    injection H as Hc Hs. destruct (IH s Hs) as (a & b & -> & <- & <-).
    exists (String d a), b. app_simpl. simpl. by rewrite Hc.
Qed.

(** [s.toLowerCase().includes(sub.toLowerCase())] *)
Lemma includes_ignoring_case (s sub : string) :
  JS.includes (JS.toLowerCase s) (JS.toLowerCase sub) = true
  ↔ occurs_ignoring_case sub s.
Proof.
  rewrite includes_spec. unfold substring_of, occurs_ignoring_case. split.
  - intros (pre' & post' & H).
    apply toLowerCase_split in H as (pre & rest & -> & _ & H).
    apply toLowerCase_split in H as (mid & post & -> & H & _).
    exists pre, mid, post. split; [done|]. by apply toLowerCase_equal.
  - intros (pre & mid & post & -> & H%toLowerCase_equal).
    exists (JS.toLowerCase pre), (JS.toLowerCase post).
    by rewrite !toLowerCase_app, H.
Qed.

Lemma includes_ignoring_case_false (s sub : string) :
  JS.includes (JS.toLowerCase s) (JS.toLowerCase sub) = false
  ↔ ¬ occurs_ignoring_case sub s.
Proof.
  rewrite <- includes_ignoring_case.
  by destruct (JS.includes (JS.toLowerCase s) (JS.toLowerCase sub)).
Qed.

Lemma occurs_ignoring_case_empty (s : string) : occurs_ignoring_case "" s.
Proof. exists "", "", s. split; [done | constructor]. Qed.

Lemma equal_ignoring_case_refl (s : string) : equal_ignoring_case s s.
Proof. induction s; constructor; [by left | done]. Qed.

(** Letter by letter, for texts that are written out *)
Ltac same_letters :=
  repeat
    (first
       [ apply equal_ignoring_case_nil
       | apply equal_ignoring_case_cons;
         [ first
             [ by left
             | right; left; split; vm_compute; lia
             | right; right; split; vm_compute; lia ]
         | ] ]).

(** What occurs as it is written occurs when the case is ignored. *)
Lemma occurs_as_written (sub s : string) :
  substring_of sub s → occurs_ignoring_case sub s.
Proof.
  intros (pre & post & ->). exists pre, sub, post.
  split; [done | apply equal_ignoring_case_refl].
Qed.

(** ** [Array.prototype.find] *)

Lemma find_first_such {A} (p : A → bool) (P : A → Prop) (l : list A) (x : A) :
  (∀ y, p y = true ↔ P y) →
  List.find p l = Some x ↔ first_such P l x.
Proof.
  intros Hp. unfold first_such. induction l as [|y l IH]; simpl.
  - split; [done | intros (l1 & l2 & H & _); by destruct l1].
  - destruct (p y) eqn:Hy.
    + split.
      * intros [= ->]. exists [], l. repeat split; [by apply Hp | constructor].
      * intros (l1 & l2 & H & Hx & Hno). destruct l1 as [|z l1]; simpl in H.
        -- congruence.
        -- injection H as -> ->. inversion Hno as [|? ? Hz _]; subst.
           exfalso. apply Hz. by apply Hp.
    + rewrite IH. split.
      * intros (l1 & l2 & -> & Hx & Hno). exists (y :: l1), l2.
        repeat split; [done|]. constructor; [|done].
        rewrite <- Hp. congruence.
      * intros (l1 & l2 & H & Hx & Hno). destruct l1 as [|z l1]; simpl in H.
        -- injection H as -> ->. apply Hp in Hx. congruence.
        -- injection H as -> ->. exists l1, l2. repeat split; [done|].
           by inversion Hno.
Qed.

Lemma find_none_such {A} (p : A → bool) (P : A → Prop) (l : list A) :
  (∀ y, p y = true ↔ P y) →
  List.find p l = None ↔ none_such P l.
Proof.
  intros Hp. unfold none_such. induction l as [|y l IH]; simpl.
  - split; [constructor | done].
  - destruct (p y) eqn:Hy.
    + split; [done|]. intros H. inversion H as [|? ? Hn _]; subst.
      exfalso. apply Hn. by apply Hp.
    + rewrite IH. split.
      * intros H. constructor; [|done]. rewrite <- Hp. congruence.
      * intros H. by inversion H.
Qed.

Lemma first_such_not_none {A} (P : A → Prop) (l : list A) (x : A) :
  first_such P l x → none_such P l → False.
Proof.
  intros (l1 & l2 & -> & Hx & _) Hn. unfold none_such in Hn.
  rewrite Forall_app in Hn. destruct Hn as [_ Hn]. by inversion Hn.
Qed.

Lemma first_such_unique {A} (P : A → Prop) (l : list A) (x y : A) :
  first_such P l x → first_such P l y → x = y.
Proof.
  revert x y. induction l as [|z l IH]; intros x y.
  - intros (l1 & l2 & H & _); by destruct l1.
  - intros (l1 & l2 & H1 & Hx & Hn1) (k1 & k2 & H2 & Hy & Hn2).
    destruct l1 as [|a l1], k1 as [|b k1]; simplify_eq/=.
    + done.
    + by inversion Hn2.
    + by inversion Hn1.
    + apply IH.
      * exists l1, l2. split_and!; try done. by inversion Hn1.
      * exists k1, k2. split_and!; try done. by inversion Hn2.
Qed.

(** ** The UUID pattern *)

Lemma hex_group_nil : hex_group 0 "".
Proof. split; [done | constructor]. Qed.

Lemma is_hex_decide (c : ascii) :
  Resolver.is_hex c
  = bool_decide (c ∈ list_ascii_of_string "0123456789abcdefABCDEF").
Proof. by destruct c as [[] [] [] [] [] [] [] []]. Qed.

Lemma is_hex_spec (c : ascii) : Resolver.is_hex c = true ↔ hex_digit c.
Proof.
  rewrite is_hex_decide. unfold hex_digit. split.
  - apply bool_decide_eq_true_1.
  - apply bool_decide_eq_true_2.
Qed.

Lemma hex_group_cons (n : nat) (c : ascii) (g : string) :
  hex_group (S n) (String c g) ↔ Resolver.is_hex c = true ∧ hex_group n g.
Proof.
  unfold hex_group. simpl. rewrite Forall_cons, is_hex_spec. split.
  - intros (Hlen & Hc & Hg). split_and!; [done | lia | done].
  - intros (Hc & Hlen & Hg). split_and!; [lia | done | done].
Qed.

Lemma hex_run_spec (n : nat) (s r : string) :
  Resolver.hex_run n s = Some r ↔ ∃ g, s = g +:+ r ∧ hex_group n g.
Proof.
  revert s. induction n as [|n IH]; intros s; simpl.
  - split.
    + intros [= ->]. exists "". split; [done | apply hex_group_nil].
    + intros (g & -> & Hlen & _). destruct g; [done | discriminate].
  - destruct s as [|c s].
    + split; [done|]. intros (g & Hs & Hlen & _).
      destruct g; [discriminate | app_simpl in Hs; discriminate].
    + destruct (Resolver.is_hex c) eqn:Hc.
      * rewrite IH. split.
        -- intros (g & -> & Hg). exists (String c g). split; [done|].
           by apply hex_group_cons.
        -- intros (g & Hs & Hg). destruct g as [|d g]; [by destruct Hg|].
           app_simpl in Hs. injection Hs as <- ->.
           apply hex_group_cons in Hg as [_ Hg]. by exists g.
      * split; [done|]. intros (g & Hs & Hg).
        destruct g as [|d g]; [by destruct Hg|].
        app_simpl in Hs. injection Hs as <- ->.
        apply hex_group_cons in Hg as [Hd _]. congruence.
Qed.

Lemma hyphen_spec (s r : string) :
  Resolver.hyphen s = Some r ↔ s = "-" +:+ r.
Proof.
  unfold Resolver.hyphen. destruct s as [|c s]; [done|].
  destruct (Ascii.eqb_spec c "-") as [->|Hne].
  - split; [by intros [= ->] | by intros [= ->]].
  - split; [done | intros [= Hc _]; done].
Qed.

Lemma uuid_test_spec (s : string) :
  Resolver.uuid_test s = true ↔ uuid_syntax s.
Proof.
  unfold Resolver.uuid_test, Resolver.uuid_pattern, uuid_syntax. split.
  - cbn [Resolver.match_seq].
    repeat
      match goal with
      | |- context [match ?p ?x with Some _ => _ | None => _ end] =>
          let H := fresh "H" in destruct (p x) eqn:H; [|done]
      end.
    destruct s8; [|done]. intros _.
    repeat
      match goal with
      | H : Resolver.hex_run _ _ = Some _ |- _ =>
          apply hex_run_spec in H as (? & ? & ?)
      | H : Resolver.hyphen _ = Some _ |- _ => apply hyphen_spec in H
      end.
    subst. rewrite append_empty_r. eauto 12.
  - intros (a & b & c & d & e & -> & Ha & Hb & Hc & Hd & He).
    assert (Hrun : ∀ n g r, hex_group n g →
              Resolver.hex_run n (g +:+ r) = Some r).
    { intros n g r Hg. apply hex_run_spec. eauto. }
    assert (Hhyphen : ∀ r, Resolver.hyphen ("-" +:+ r) = Some r) by done.
    cbn [Resolver.match_seq].
    rewrite (Hrun 8 a), Hhyphen, (Hrun 4 b), Hhyphen, (Hrun 4 c), Hhyphen,
      (Hrun 4 d), Hhyphen by done.
    rewrite <- (append_empty_r e), (Hrun 12 e) by done. done.
Qed.

(** ** Entity resolution *)

Lemma id_equals_spec (x : string) (a : Entity.t) :
  Resolver.id_equals x a = true ↔ Rules.exact_id x a.
Proof. apply String.eqb_eq. Qed.

Lemma id_includes_spec (x : string) (a : Entity.t) :
  Resolver.id_includes x a = true ↔ Rules.partial_id x a.
Proof. apply includes_spec. Qed.

Lemma name_includes_spec (x : string) (a : Entity.t) :
  Resolver.name_includes x a = true ↔ Rules.known_name x a.
Proof.
  unfold Resolver.name_includes, Rules.known_name.
  rewrite existsb_exists, Exists_exists. split.
  - intros (n & Hin & Hn). exists n. split; [by apply list_elem_of_In|].
    by apply includes_ignoring_case.
  - intros (n & Hin & Hn). exists n. split; [by apply list_elem_of_In|].
    by apply includes_ignoring_case.
Qed.

Lemma resolveEntity_resolves (x : string) (roster : list Entity.t) :
  Rules.resolves x roster (Resolver.resolveEntity x roster).
Proof.
  unfold Resolver.resolveEntity.
  destruct (Resolver.uuid_test x) eqn:Hu.
  { apply Rules.by_uuid. by apply uuid_test_spec. }
  assert (Hnu : ¬ uuid_syntax x).
  { rewrite <- uuid_test_spec. congruence. }
  destruct (List.find (Resolver.id_equals x) roster) as [a|] eqn:Hb.
  { apply Rules.by_exact_id; [done|].
    by apply (find_first_such _ _ _ _ (id_equals_spec x)). }
  apply (find_none_such _ _ _ (id_equals_spec x)) in Hb.
  destruct (List.find (Resolver.id_includes x) roster) as [a|] eqn:Hc.
  { apply Rules.by_partial_id; [done | done |].
    by apply (find_first_such _ _ _ _ (id_includes_spec x)). }
  apply (find_none_such _ _ _ (id_includes_spec x)) in Hc.
  destruct (List.find (Resolver.name_includes x) roster) as [a|] eqn:Hd.
  { apply Rules.by_known_name; [done | done | done |].
    by apply (find_first_such _ _ _ _ (name_includes_spec x)). }
  apply (find_none_such _ _ _ (name_includes_spec x)) in Hd.
  by apply Rules.unresolved.
Qed.

Lemma resolves_functional (x : string) (roster : list Entity.t)
    (r1 r2 : completion string) :
  Rules.resolves x roster r1 → Rules.resolves x roster r2 → r1 = r2.
Proof.
  intros H1 H2.
  destruct H1; destruct H2; try done;
    try (exfalso; eauto using first_such_not_none; fail);
    f_equal; f_equal; eauto using first_such_unique.
Qed.

(** C9: the resolver returns what the four rules, tried in order with the
    first match winning, determine, and throws exactly when no rule
    matches; an identifier of UUID form resolves to itself whatever the
    roster; a relationship one of whose ends does not resolve issues no
    write. *)
Theorem C9_resolveEntity_rules (x : string) (roster : list Entity.t) :
  (∀ r, Resolver.resolveEntity x roster = r ↔ Rules.resolves x roster r)
  ∧ (uuid_syntax x → Resolver.resolveEntity x roster = Return x)
  ∧ ((∃ e, Resolver.resolveEntity x roster = Throw e)
     ↔ ¬ uuid_syntax x ∧ none_such (Rules.exact_id x) roster
       ∧ none_such (Rules.partial_id x) roster
       ∧ none_such (Rules.known_name x) roster)
  ∧ (∀ existing relationship,
       Extracted.sourceEntityId relationship = x
       ∨ Extracted.targetEntityId relationship = x →
       (∃ e, Resolver.resolveEntity x roster = Throw e) →
       Reflection.mergeRelationship existing roster relationship = []).
Proof.
  pose proof (resolveEntity_resolves x roster) as Hres.
  split_and!.
  - intros r. split; [by intros <-|].
    intros Hr. eapply resolves_functional; done.
  - intros Hu. eapply resolves_functional; [done|]. by apply Rules.by_uuid.
  - split.
    + intros [e He]. rewrite He in Hres. by inversion Hres.
    + intros (Hu & Hb & Hc & Hd). exists (ResolveError x).
      eapply resolves_functional; [done|]. by apply Rules.unresolved.
  - intros existing relationship Hx [e He]. unfold Reflection.mergeRelationship.
    destruct Hx as [-> | ->].
    + by rewrite He.
    + rewrite He.
      by destruct (Resolver.resolveEntity (Extracted.sourceEntityId relationship) roster).
Qed.

Lemma C9_resolveEntity_rules_witness :
  Resolver.resolveEntity (String "233" "lodie")
    [{| Entity.id := "user-9"; Entity.names := [String "201" "lodie Martin"] |}]
  = Return "user-9".
Proof.
  apply (proj1 (C9_resolveEntity_rules (String "233" "lodie")
                  [{| Entity.id := "user-9";
                      Entity.names := [String "201" "lodie Martin"] |}])).
  apply (Rules.by_known_name _ _
           {| Entity.id := "user-9";
              Entity.names := [String "201" "lodie Martin"] |}).
  - intros H%uuid_test_spec. vm_compute in H. discriminate.
  - repeat constructor. discriminate.
  - repeat constructor. intros H%id_includes_spec. vm_compute in H.
    discriminate.
  - exists [], []. split_and!; [reflexivity | | constructor].
    constructor. exists "", (String "201" "lodie"), " Martin".
    split; [reflexivity | same_letters].
Defined.

(** ** Reflection: [validate] *)

Lemma findIndex_none {A} (p : A → bool) (l : list A) :
  Forall (λ x, p x = false) l → Reflection.findIndex p l = (-1)%Z.
Proof.
  induction 1 as [|x l Hx _ IH]; simpl; [done|]. by rewrite Hx, IH.
Qed.

Lemma findIndex_first {A} (p : A → bool) (pre : list A) (x : A) (post : list A) :
  Forall (λ y, p y = false) pre → p x = true →
  Reflection.findIndex p (pre ++ x :: post) = Z.of_nat (length pre).
Proof.
  intros Hpre Hx. induction Hpre as [|y pre Hy _ IH]; simpl.
  - by rewrite Hx.
  - rewrite Hy, IH. destruct (Z.eqb_spec (Z.of_nat (length pre)) (-1)); lia.
Qed.

Lemma findIndex_cases {A} (p : A → bool) (l : list A) :
  (Forall (λ x, p x = false) l)
  ∨ (∃ pre x post, l = pre ++ x :: post ∧ Forall (λ y, p y = false) pre
                   ∧ p x = true).
Proof.
  induction l as [|x l [IH | (pre & y & post & -> & Hpre & Hy)]].
  - left. constructor.
  - destruct (p x) eqn:Hx.
    + right. exists [], x, l. split_and!; [done | constructor | done].
    + left. by constructor.
  - destruct (p x) eqn:Hx.
    + right. exists [], x, (pre ++ y :: post). split_and!; [done | constructor | done].
    + right. exists (x :: pre), y, post. split_and!; [done | by constructor | done].
Qed.

Lemma Math_ceil_div_4 (n k : Z) :
  ceiling_of_quarter n k ↔ Reflection.Math_ceil_div n 4 = k.
Proof.
  unfold ceiling_of_quarter, Reflection.Math_ceil_div.
  pose proof (Z.div_mod (- n) 4 ltac:(lia)).
  pose proof (Z.mod_pos_bound (- n) 4 ltac:(lia)).
  lia.
Qed.

Lemma id_eqb_false (c : string) (l : list Memory.t) :
  Forall (λ m', Memory.id m' ≠ c) l →
  Forall (λ m', String.eqb (Memory.id m') c = false) l.
Proof.
  intros H. eapply Forall_impl; [exact H|]. intros m. by rewrite String.eqb_neq.
Qed.

Lemma validate_remaining (checkpoint : option string) (messages rest : list Memory.t)
    (conversationLength : Z) :
  remaining checkpoint messages rest →
  Reflection.validate checkpoint messages conversationLength
  = (Z.of_nat (length rest) >? Reflection.Math_ceil_div conversationLength 4)%Z.
Proof.
  unfold Reflection.validate.
  destruct 1 as [c pre m post -> Hc -> Hm Hpre | [-> | ->] | c -> Hno].
  - apply String.eqb_neq in Hc. rewrite Hc.
    rewrite findIndex_first;
      [| by apply id_eqb_false | by apply String.eqb_eq].
    destruct (Z.eqb_spec (Z.of_nat (length pre)) (-1)); [lia|].
    replace (Z.to_nat (Z.of_nat (length pre) + 1)) with (length pre + 1)%nat by lia.
    rewrite drop_app_add'; [|done]. done.
  - done.
  - done.
  - destruct (String.eqb c ""); [done|].
    rewrite findIndex_none by by apply id_eqb_false. done.
Qed.

Lemma remaining_total (checkpoint : option string) (messages : list Memory.t) :
  ∃ rest, remaining checkpoint messages rest.
Proof.
  destruct checkpoint as [c|]; [|exists messages; apply remaining_no_checkpoint; auto].
  destruct (String.eqb_spec c "") as [->|Hc].
  { exists messages. apply remaining_no_checkpoint. auto. }
  destruct (findIndex_cases (λ m, String.eqb (Memory.id m) c) messages)
    as [Hno | (pre & m & post & -> & Hpre & Hm)].
  - exists messages. apply (remaining_not_found _ _ c); [done|].
    eapply Forall_impl; [done|]. intros m. by rewrite String.eqb_neq.
  - exists post. apply (remaining_after _ _ c pre m post); try done.
    + by apply String.eqb_eq.
    + eapply Forall_impl; [done|]. intros m'. by rewrite String.eqb_neq.
Qed.

(** C8: [validate] is true exactly when the number of messages remaining
    after the cut at the checkpoint is strictly greater than the ceiling
    of a quarter of the conversation length; when the two are equal it is
    false. *)
Theorem C8_validate_strictly_exceeds (checkpoint : option string)
    (messages : list Memory.t) (conversationLength : Z) :
  (∃ rest, remaining checkpoint messages rest)
  ∧ (∀ rest interval,
       remaining checkpoint messages rest →
       ceiling_of_quarter conversationLength interval →
       (Reflection.validate checkpoint messages conversationLength = true
        ↔ (interval < Z.of_nat (length rest))%Z)
       ∧ (Z.of_nat (length rest) = interval →
          Reflection.validate checkpoint messages conversationLength = false)).
Proof.
  split; [apply remaining_total|].
  intros rest interval Hrest Hceil.
  rewrite (validate_remaining _ _ _ _ Hrest).
  apply Math_ceil_div_4 in Hceil. rewrite Hceil.
  split.
  - destruct (Z.gtb_spec (Z.of_nat (length rest)) interval); split; (done || lia).
  - intros ->. rewrite Z.gtb_ltb. apply Z.ltb_irrefl.
Qed.

Lemma C8_validate_strictly_exceeds_witness :
  Reflection.validate (Some "m10")
    [ {| Memory.id := "m9"; Memory.userId := "u"; Memory.roomId := "r"; Memory.text := "a" |};
      {| Memory.id := "m10"; Memory.userId := "u"; Memory.roomId := "r"; Memory.text := "b" |};
      {| Memory.id := "m11"; Memory.userId := "u"; Memory.roomId := "r"; Memory.text := "c" |};
      {| Memory.id := "m12"; Memory.userId := "u"; Memory.roomId := "r"; Memory.text := "d" |} ]
    8 = false.
Proof.
  eapply (proj2 (C8_validate_strictly_exceeds _ _ 8)).
  - eapply (remaining_after _ _ "m10" [_] _ [_; _]); try reflexivity.
    + discriminate.
    + repeat constructor. discriminate.
  - unfold ceiling_of_quarter. instantiate (1 := 2%Z). lia.
  - reflexivity.
Defined.

(** ** The should-respond decision *)

Section ShouldRespond.

Import Orchestrator.

Variable rt : Runtime.
Variable msg : Memory.t.

Lemma mentionsAgent_spec : mentionsAgent rt msg = true ↔ mention rt msg.
Proof. apply includes_ignoring_case. Qed.

Lemma mentionsAgent_false : mentionsAgent rt msg = false ↔ ¬ mention rt msg.
Proof. apply includes_ignoring_case_false. Qed.

Lemma own_message st resp :
  Memory.userId msg = agentId rt → checkShouldRespond rt msg st resp = false.
Proof.
  intros H. unfold checkShouldRespond. by rewrite H, String.eqb_refl.
Qed.

Lemma muted_unmentioned resp :
  Memory.userId msg ≠ agentId rt → ¬ mention rt msg →
  checkShouldRespond rt msg MUTED resp = false.
Proof.
  intros H%String.eqb_neq Hm%mentionsAgent_false.
  unfold checkShouldRespond. by rewrite H, Hm.
Qed.

Lemma followed resp :
  Memory.userId msg ≠ agentId rt →
  checkShouldRespond rt msg FOLLOWED resp = true.
Proof.
  intros H%String.eqb_neq. unfold checkShouldRespond. by rewrite H.
Qed.

Lemma mentioned st resp :
  Memory.userId msg ≠ agentId rt → mention rt msg →
  checkShouldRespond rt msg st resp = true.
Proof.
  intros H%String.eqb_neq Hm%mentionsAgent_spec.
  unfold checkShouldRespond. rewrite H, Hm. by destruct st.
Qed.

Lemma model_choice resp :
  Memory.userId msg ≠ agentId rt → ¬ mention rt msg →
  checkShouldRespond rt msg NONE resp = JS.includes resp "RESPOND".
Proof.
  intros H%String.eqb_neq Hm%mentionsAgent_false.
  unfold checkShouldRespond. rewrite H, Hm. simpl.
  by destruct (JS.includes resp "RESPOND"), (JS.includes resp "IGNORE"),
    (JS.includes resp "STOP").
Qed.

End ShouldRespond.

(** C7: the tests of the should-respond decision are made in the order
    agent-authored, muted without a mention, followed, mention, model
    choice, each returning at once. A mention of the agent's name
    overrides the mute, as for the text ["hey SarahBot are you there"];
    when the model decides, its output gives true if it contains
    ["RESPOND"], and false otherwise, be it through ["IGNORE"], ["STOP"]
    or none of the three words. *)
Theorem C7_checkShouldRespond_order (rt : Orchestrator.Runtime) (msg : Memory.t)
    (st : Orchestrator.UserState) (resp : string) :
  (Memory.userId msg = Orchestrator.agentId rt →
   Orchestrator.checkShouldRespond rt msg st resp = false)
  ∧ (Memory.userId msg ≠ Orchestrator.agentId rt →
     (st = Orchestrator.MUTED → ¬ mention rt msg →
      Orchestrator.checkShouldRespond rt msg st resp = false)
     ∧ (st = Orchestrator.MUTED → mention rt msg →
        Orchestrator.checkShouldRespond rt msg st resp = true)
     ∧ (st = Orchestrator.FOLLOWED →
        Orchestrator.checkShouldRespond rt msg st resp = true)
     ∧ (mention rt msg →
        Orchestrator.checkShouldRespond rt msg st resp = true)
     ∧ (st = Orchestrator.NONE → ¬ mention rt msg →
        (substring_of "RESPOND" resp →
         Orchestrator.checkShouldRespond rt msg st resp = true)
        ∧ (¬ substring_of "RESPOND" resp →
           substring_of "IGNORE" resp ∨ substring_of "STOP" resp →
           Orchestrator.checkShouldRespond rt msg st resp = false)
        ∧ (¬ substring_of "RESPOND" resp → ¬ substring_of "IGNORE" resp →
           ¬ substring_of "STOP" resp →
           Orchestrator.checkShouldRespond rt msg st resp = false))
     ∧ (Orchestrator.character_name rt = "SarahBot" →
        Memory.text msg = "hey SarahBot are you there" →
        Orchestrator.checkShouldRespond rt msg Orchestrator.MUTED resp = true)).
Proof.
  split; [apply own_message|]. intros Hother. split_and!.
  - intros -> Hm. by apply muted_unmentioned.
  - intros -> Hm. by apply mentioned.
  - intros ->. by apply followed.
  - intros Hm. by apply mentioned.
  - intros -> Hm. rewrite model_choice by done. split_and!.
    + by intros ?%includes_spec.
    + by intros ?%includes_false _.
    + by intros ?%includes_false _ _.
  - intros Hname Htext. apply mentioned; [done|].
    unfold mention. rewrite Hname, Htext.
    by apply occurs_as_written, includes_spec.
Qed.

Lemma C7_checkShouldRespond_order_witness :
  Orchestrator.checkShouldRespond
    {| Orchestrator.agentId := "agent-1";
       Orchestrator.character_name := String "201" "milieBot" |}
    {| Memory.id := "m1"; Memory.userId := "user-7"; Memory.roomId := "general";
       Memory.text := "salut " +:+ String "233" "miliebot" |}
    Orchestrator.MUTED "IGNORE" = true.
Proof.
  refine (proj1 (proj2
    (proj2 (C7_checkShouldRespond_order _ _ Orchestrator.MUTED _) _)) eq_refl _).
  - discriminate.
  - exists "salut ", (String "233" "miliebot"), "".
    split; [reflexivity | same_letters].
Defined.

(** ** Structured extraction *)

Lemma indexOf_lower (s sub : string) : (-1 ≤ JS.indexOf s sub)%Z.
Proof.
  induction s as [|c s IH]; cbn [JS.indexOf].
  - destruct (String.prefix sub ""); lia.
  - destruct (String.prefix sub (String c s)); [lia|].
    destruct (Z.eqb_spec (JS.indexOf s sub) (-1)); lia.
Qed.

Lemma lastIndexOf_lower (s sub : string) : (-1 ≤ JS.lastIndexOf s sub)%Z.
Proof.
  induction s as [|c s IH]; cbn [JS.lastIndexOf].
  - destruct (String.prefix sub ""); lia.
  - destruct (Z.eqb_spec (JS.lastIndexOf s sub) (-1)); [|lia].
    destruct (String.prefix sub (String c s)); lia.
Qed.

Lemma lastIndexOf_found (s sub : string) :
  JS.lastIndexOf s sub ≠ (-1)%Z → substring_of sub s.
Proof.
  induction s as [|c s IH]; cbn [JS.lastIndexOf]; intros H.
  - destruct (String.prefix sub "") eqn:Hp; [|done].
    apply prefix_spec in Hp as [post Hp]. by exists "", post.
  - destruct (Z.eqb_spec (JS.lastIndexOf s sub) (-1)) as [Hs|Hs].
    + destruct (String.prefix sub (String c s)) eqn:Hp; [|done].
      apply prefix_spec in Hp as [post Hp]. by exists "", post.
    + destruct (IH Hs) as (pre & post & ->). by exists (String c pre), post.
Qed.

Lemma prefix_char (a x : ascii) (s : string) :
  String.prefix (String a "") (String x s) = true ↔ a = x.
Proof.
  simpl. destruct (ascii_dec a x) as [->|Hne]; [by destruct s|done].
Qed.

(** When the first opening bracket comes before the last closing one, the
    text holds a pair. *)
Lemma brackets_found (s : string) (a b : ascii) :
  (0 ≤ JS.indexOf s (String a "") < JS.lastIndexOf s (String b ""))%Z →
  ∃ pre mid post,
    s = pre +:+ String a "" +:+ mid +:+ String b "" +:+ post.
Proof.
  induction s as [|x s IH]; cbn [JS.indexOf JS.lastIndexOf].
  - simpl. lia.
  - pose proof (lastIndexOf_lower s (String b "")) as Hl.
    pose proof (indexOf_lower s (String a "")) as Hi.
    destruct (String.prefix (String a "") (String x s)) eqn:Ho.
    + apply prefix_char in Ho as ->.
      destruct (Z.eqb_spec (JS.lastIndexOf s (String b "")) (-1)) as [Hs|Hs].
      { destruct (String.prefix (String b "") (String x s)); lia. }
      intros _. destruct (lastIndexOf_found _ _ Hs) as (mid & post & ->).
      by exists "", mid, post.
    + destruct (Z.eqb_spec (JS.indexOf s (String a "")) (-1)) as [Hs|Hs]; [lia|].
      destruct (Z.eqb_spec (JS.lastIndexOf s (String b "")) (-1)) as [Hs'|Hs'].
      { destruct (String.prefix (String b "") (String x s)); lia. }
      intros H. destruct IH as (pre & mid & post & ->); [lia|].
      by exists (String x pre), mid, post.
Qed.

Lemma opening_closing (output : string) :
  ∃ a b, opening output = String a "" ∧ closing output = String b "".
Proof.
  unfold opening, closing. destruct (String.eqb output "array"); eauto.
Qed.

Lemma jsonStringOf_no_pair (output response : string) :
  ¬ bracket_pair output response →
  Extraction.jsonStringOf output response = response.
Proof.
  intros Hno. unfold Extraction.jsonStringOf.
  fold (opening output). fold (closing output).
  destruct (opening_closing output) as (a & b & Ha & Hb).
  destruct (Z.eqb_spec (JS.indexOf response (opening output)) (-1)); [done|].
  destruct (Z.eqb_spec (JS.lastIndexOf response (closing output)) (-1)); [done|].
  destruct (Z.ltb_spec (JS.indexOf response (opening output))
              (JS.lastIndexOf response (closing output))); [|done].
  exfalso. apply Hno. unfold bracket_pair. rewrite Ha, Hb in *.
  apply brackets_found. pose proof (indexOf_lower response (String a "")). lia.
Qed.

Section GenerateObjectResults.

Variable JSON_parse : string → option JSON.
Variables (prompt output response : string) (enumValues : list string).
Variable schema : option (JSON → option JSON).
Hypothesis prompt_given : prompt ≠ "".
Hypothesis not_enum : output ≠ "enum".

Lemma generateObject_objectResult :
  Extraction.generateObject JSON_parse (Return response) prompt output
    enumValues schema
  = Return (Extraction.objectResult JSON_parse output schema response).
Proof.
  unfold Extraction.generateObject.
  apply String.eqb_neq in prompt_given, not_enum.
  by rewrite prompt_given, not_enum.
Qed.

Lemma objectResult_empty :
  Extraction.jsonStringOf output response = "" →
  Extraction.objectResult JSON_parse output schema response = JNull.
Proof. unfold Extraction.objectResult. by intros ->. Qed.

Lemma objectResult_nonempty :
  Extraction.jsonStringOf output response ≠ "" →
  Extraction.objectResult JSON_parse output schema response
  = match JSON_parse (Extraction.jsonStringOf output response) with
    | Some json =>
        match schema with
        | Some schema_parse => default JNull (schema_parse json)
        | None => json
        end
    | None => JNull
    end.
Proof.
  unfold Extraction.objectResult. intros H.
  destruct (Extraction.jsonStringOf output response) as [|c t]; [done|].
  simpl. destruct (JSON_parse (String c t)); [|done].
  destruct schema as [sch|]; [|done]. by destruct (sch j).
Qed.

End GenerateObjectResults.

Lemma bracket_pair_opening (output s : string) :
  bracket_pair output s → JS.includes s (opening output) = true.
Proof.
  intros (pre & mid & post & ->). apply includes_spec.
  by exists pre, (mid +:+ closing output +:+ post).
Qed.

(** C10, as amended: in object or array mode, on any model output, the
    extraction returns a value and does not throw. An output without a
    bracket pair of the requested shape is parsed whole. The result is
    null when the text to parse is empty, when [JSON.parse] fails and when
    the schema rejects the parsed value; otherwise it is the parsed value,
    or what the schema makes of it. *)
Theorem C10_generateObject_results (JSON_parse : string → option JSON)
    (prompt output response : string) (enumValues : list string)
    (schema : option (JSON → option JSON)) :
  prompt ≠ "" → output ≠ "enum" →
  let result :=
    Extraction.generateObject JSON_parse (Return response) prompt output
      enumValues schema in
  let text := Extraction.jsonStringOf output response in
  (∃ v, result = Return v)
  ∧ (¬ bracket_pair output response → text = response)
  ∧ (text = "" → result = Return JNull)
  ∧ (JSON_parse text = None → result = Return JNull)
  ∧ (∀ json schema_parse,
       JSON_parse text = Some json → schema = Some schema_parse →
       schema_parse json = None → result = Return JNull)
  ∧ (∀ json schema_parse v,
       text ≠ "" → JSON_parse text = Some json → schema = Some schema_parse →
       schema_parse json = Some v → result = Return v)
  ∧ (∀ json,
       text ≠ "" → JSON_parse text = Some json → schema = None →
       result = Return json).
Proof.
  intros Hprompt Houtput result text. subst result.
  rewrite generateObject_objectResult by done.
  split_and!.
  - eauto.
  - apply jsonStringOf_no_pair.
  - intros H. by rewrite objectResult_empty.
  - intros H. destruct (decide (text = "")) as [He|He].
    + by rewrite objectResult_empty.
    + rewrite objectResult_nonempty by done. fold text. by rewrite H.
  - intros json sch Hjson -> Hsch. destruct (decide (text = "")) as [He|He].
    + by rewrite objectResult_empty.
    + rewrite objectResult_nonempty by done. fold text. by rewrite Hjson, Hsch.
  - intros json sch v He Hjson -> Hsch.
    rewrite objectResult_nonempty by done. fold text. by rewrite Hjson, Hsch.
  - intros json He Hjson ->.
    rewrite objectResult_nonempty by done. fold text. by rewrite Hjson.
Qed.

Lemma C10_generateObject_results_witness :
  Extraction.generateObject Json.parse (Return "no json here") "prompt" "object"
    [] None = Return JNull.
Proof.
  refine (proj1 (proj2 (proj2 (proj2
    (C10_generateObject_results Json.parse "prompt" "object" "no json here"
       [] None _ _)))) _);
    [discriminate | discriminate | reflexivity].
Defined.

(** C10, as stated, fails: without a schema, the output [42] holds no
    brace, and the extraction returns the number 42. *)
Lemma C10_counterexample :
  ¬ bracket_pair "object" "42"
  ∧ Extraction.generateObject Json.parse (Return "42") "prompt" "object" [] None
    = Return (JNum 42 0)
  ∧ Return (JNum 42 0) ≠ Return JNull.
Proof.
  split_and!.
  - intros H%bracket_pair_opening. vm_compute in H. discriminate.
  - reflexivity.
  - discriminate.
Qed.

(** ** Relationship merge *)

Lemma existsb_eqb_elem (x : string) (l : list string) :
  existsb (String.eqb x) l = true ↔ x ∈ l.
Proof.
  rewrite existsb_exists. split.
  - intros (y & Hin & ->%String.eqb_eq). by apply list_elem_of_In.
  - intros Hin. exists x. split; [by apply list_elem_of_In | apply String.eqb_refl].
Qed.

Lemma array_from_set_acc (l seen : list string) :
  NoDup seen →
  let out :=
    fold_left
      (λ seen x, if existsb (String.eqb x) seen then seen else seen ++ [x])
      l seen in
  NoDup out ∧ ∀ t, t ∈ out ↔ t ∈ seen ∨ t ∈ l.
Proof.
  revert seen. induction l as [|x l IH]; intros seen Hseen; simpl.
  - split; [done|]. intros t. rewrite elem_of_nil. tauto.
  - destruct (existsb (String.eqb x) seen) eqn:Hx.
    + apply existsb_eqb_elem in Hx.
      destruct (IH seen Hseen) as [Hnd Hin]. split; [done|].
      intros t. rewrite Hin, elem_of_cons. split; [tauto|].
      intros [?|[->|?]]; auto.
    + assert (x ∉ seen) as Hnotin.
      { rewrite <- existsb_eqb_elem. congruence. }
      destruct (IH (seen ++ [x])) as [Hnd Hin].
      { apply NoDup_app. split_and!; [done | | apply NoDup_singleton].
        intros y Hy ->%list_elem_of_singleton. done. }
      split; [done|]. intros t.
      rewrite Hin, elem_of_app, list_elem_of_singleton, elem_of_cons. tauto.
Qed.

Lemma array_from_set_spec (l : list string) :
  NoDup (Reflection.array_from_set l)
  ∧ ∀ t, t ∈ Reflection.array_from_set l ↔ t ∈ l.
Proof.
  destruct (array_from_set_acc l [] (NoDup_nil_2)) as [Hnd Hin].
  split; [done|]. intros t. unfold Reflection.array_from_set.
  rewrite Hin, elem_of_nil. tauto.
Qed.

Lemma same_pair_spec (sourceId targetId : string) (r : Stored.relationship) :
  Reflection.same_pair sourceId targetId r = true
  ↔ Stored.sourceEntityId r = sourceId ∧ Stored.targetEntityId r = targetId.
Proof.
  unfold Reflection.same_pair. by rewrite andb_true_iff, !String.eqb_eq.
Qed.

Lemma mergeRelationship_resolved existing roster relationship sourceId targetId :
  Resolver.resolveEntity (Extracted.sourceEntityId relationship) roster
  = Return sourceId →
  Resolver.resolveEntity (Extracted.targetEntityId relationship) roster
  = Return targetId →
  Reflection.mergeRelationship existing roster relationship
  = match List.find (Reflection.same_pair sourceId targetId) existing with
    | Some e => [Reflection.updateRelationship (Reflection.updated e relationship)]
    | None =>
        [Reflection.createRelationship sourceId targetId
           (Extracted.tags relationship)
           (default 1%Z (Extracted.metadata relationship))]
    end.
Proof.
  intros Hs Ht. unfold Reflection.mergeRelationship. by rewrite Hs, Ht.
Qed.

(** The writes other than those of the relationship loop leave the
    relationship store alone. *)
Lemma exec_createMemory_relationships {A} (f : A → string) (db : Db.t)
    (l : list A) :
  let db' :=
    fold_left Db.exec (List.map (λ x, Reflection.createMemory (f x)) l) db in
  Db.relationships db' = Db.relationships db ∧ Db.next_id db' = Db.next_id db.
Proof.
  revert db. induction l as [|x l IH]; intros db; [done|].
  cbn [List.map fold_left].
  by destruct (IH (Db.exec db (Reflection.createMemory (f x)))) as [-> ->].
Qed.

Lemma fold_exec_agree (calls : list Reflection.DbCall) (db db0 : Db.t) :
  Db.relationships db0 = Db.relationships db →
  Db.next_id db0 = Db.next_id db →
  Db.relationships (fold_left Db.exec calls db0)
  = Db.relationships (fold_left Db.exec calls db)
  ∧ Db.next_id (fold_left Db.exec calls db0)
    = Db.next_id (fold_left Db.exec calls db).
Proof.
  revert db db0. induction calls as [|c calls IH]; intros db db0 Hr Hn; simpl;
    [done|].
  apply IH; destruct c; simpl; congruence.
Qed.

Lemma reflectionPass_relationships roster db message reflection :
  Db.relationships (Db.reflectionPass roster db message (Some reflection))
  = Db.relationships
      (fold_left Db.exec
         (flat_map
            (Reflection.mergeRelationship
               (Db.getRelationships db (Memory.userId message)) roster)
            (Extracted.relationships reflection)) db)
  ∧ Db.next_id (Db.reflectionPass roster db message (Some reflection))
    = Db.next_id
        (fold_left Db.exec
           (flat_map
              (Reflection.mergeRelationship
                 (Db.getRelationships db (Memory.userId message)) roster)
              (Extracted.relationships reflection)) db).
Proof.
  unfold Db.reflectionPass, Reflection.handler.
  rewrite !fold_left_app. cbn [fold_left Db.exec Db.relationships Db.next_id].
  match goal with
  | |- context [fold_left Db.exec (List.map ?g ?l) db] =>
      destruct (exec_createMemory_relationships Extracted.claim db l)
  end.
  by apply fold_exec_agree.
Qed.

Lemma filter_nil_Forall {A} (p : A → bool) (l : list A) :
  List.filter p l = [] ↔ Forall (λ x, p x = false) l.
Proof.
  induction l as [|x l IH]; simpl.
  - split; [constructor | done].
  - destruct (p x) eqn:Hx.
    + split; [done|]. intros H. inversion H; congruence.
    + rewrite IH. split; [by constructor | by inversion 1].
Qed.

Lemma find_filter_none {A} (p q : A → bool) (l : list A) :
  Forall (λ x, p x = false) l → List.find p (List.filter q l) = None.
Proof.
  induction 1 as [|x l Hx _ IH]; simpl; [done|].
  destruct (q x); simpl; by rewrite ?Hx.
Qed.

Lemma find_filter_last {A} (p q : A → bool) (l : list A) (e : A) :
  Forall (λ x, p x = false) l → q e = true → p e = true →
  List.find p (List.filter q (l ++ [e])) = Some e.
Proof.
  intros Hl Hq Hp. induction Hl as [|x l Hx _ IH]; simpl.
  - by rewrite Hq; simpl; rewrite Hp.
  - destruct (q x); simpl; by rewrite ?Hx.
Qed.

Lemma filter_last {A} (p : A → bool) (l : list A) (e : A) :
  Forall (λ x, p x = false) l → p e = true → List.filter p (l ++ [e]) = [e].
Proof.
  intros Hl Hp. induction Hl as [|x l Hx _ IH]; simpl.
  - by rewrite Hp.
  - by rewrite Hx.
Qed.

Lemma update_last (l : list Stored.relationship) (e e' : Stored.relationship) :
  Forall (λ r, Stored.id r < Stored.id e) l → Stored.id e' = Stored.id e →
  List.map (λ r', if (Stored.id r' =? Stored.id e')%nat then e' else r') (l ++ [e])
  = l ++ [e'].
Proof.
  intros Hl He. rewrite He. induction Hl as [|x l Hx _ IH]; simpl.
  - by rewrite Nat.eqb_refl.
  - destruct (Nat.eqb_spec (Stored.id x) (Stored.id e)); [lia|]. by rewrite IH.
Qed.

Lemma updated_found (e : Stored.relationship) (relationship : Extracted.relationship) :
  ∃ tags,
    Reflection.updated e relationship
    = {| Stored.id := Stored.id e;
         Stored.sourceEntityId := Stored.sourceEntityId e;
         Stored.targetEntityId := Stored.targetEntityId e;
         Stored.tags := Some tags;
         Stored.metadata :=
           Some {| Stored.interactions := Some (prior_interactions e + 1)%Z;
                   Stored.extra :=
                     match Stored.metadata e with
                     | Some m => Stored.extra m
                     | None => []
                     end |} |}
    ∧ union_of (default [] (Stored.tags e)) (Extracted.tags relationship) tags.
Proof.
  eexists. split.
  - unfold Reflection.updated, Reflection.next_interactions, prior_interactions.
    destruct (Stored.metadata e) as [m|]; reflexivity.
  - destruct (array_from_set_spec
                (default [] (Stored.tags e) ++ Extracted.tags relationship))
      as [Hnd Hin].
    split; [done|]. intros t. by rewrite Hin, elem_of_app.
Qed.

Lemma first_pass_creates roster db message facts relationship sourceId targetId :
  Resolver.resolveEntity (Extracted.sourceEntityId relationship) roster
  = Return sourceId →
  Resolver.resolveEntity (Extracted.targetEntityId relationship) roster
  = Return targetId →
  Db.edges db sourceId targetId = [] →
  let db1 :=
    Db.reflectionPass roster db message
      (Some {| Extracted.facts := facts;
               Extracted.relationships := [relationship] |}) in
  Db.relationships db1
  = Db.relationships db
    ++ [ {| Stored.id := Db.next_id db;
            Stored.sourceEntityId := sourceId;
            Stored.targetEntityId := targetId;
            Stored.tags := Some (Extracted.tags relationship);
            Stored.metadata :=
              Some {| Stored.interactions :=
                        Some (default 1%Z (Extracted.metadata relationship));
                      Stored.extra := [] |} |} ]
  ∧ Db.next_id db1 = S (Db.next_id db).
Proof.
  intros Hs Ht Hnone db1. subst db1.
  destruct (reflectionPass_relationships roster db message
              {| Extracted.facts := facts;
                 Extracted.relationships := [relationship] |}) as [-> ->].
  cbn [Extracted.relationships flat_map]. rewrite app_nil_r.
  rewrite (mergeRelationship_resolved _ _ _ _ _ Hs Ht).
  unfold Db.getRelationships. rewrite find_filter_none; [done|].
  by apply filter_nil_Forall.
Qed.

Lemma second_pass_updates roster db message facts relationship sourceId targetId e :
  Resolver.resolveEntity (Extracted.sourceEntityId relationship) roster
  = Return sourceId →
  Resolver.resolveEntity (Extracted.targetEntityId relationship) roster
  = Return targetId →
  Memory.userId message = sourceId →
  edge_of sourceId targetId e →
  (∃ l, Db.relationships db = l ++ [e]
        ∧ Forall (λ r, Reflection.same_pair sourceId targetId r = false) l
        ∧ Forall (λ r, Stored.id r < Stored.id e) l) →
  Db.edges
    (Db.reflectionPass roster db message
       (Some {| Extracted.facts := facts;
                Extracted.relationships := [relationship] |}))
    sourceId targetId
  = [Reflection.updated e relationship].
Proof.
  intros Hs Ht Hu [Hes Het] (l & Hl & Hno & Hids). unfold Db.edges.
  destruct (reflectionPass_relationships roster db message
              {| Extracted.facts := facts;
                 Extracted.relationships := [relationship] |}) as [-> _].
  cbn [Extracted.relationships flat_map]. rewrite app_nil_r.
  rewrite (mergeRelationship_resolved _ _ _ _ _ Hs Ht).
  assert (Hpair : Reflection.same_pair sourceId targetId e = true).
  { by apply same_pair_spec. }
  unfold Db.getRelationships. rewrite Hl, find_filter_last; [|done| |done].
  - cbn [fold_left Db.exec Db.relationships]. rewrite Hl.
    rewrite update_last; [|done|done].
    apply filter_last; [done|]. by apply same_pair_spec.
  - rewrite Hu, Hes. by rewrite String.eqb_refl.
Qed.

(** C4, as amended: for a relationship both ends of which resolve, when
    an edge of the resolved pair is among the loaded relationships, that
    edge is written back with the union of the tags and its counter, a
    missing one counting as 0, raised by one; when none is, an edge is
    created with the given tags and, unless the extracted relationship
    brings a counter of its own, 1 interaction. Observed in two successive
    passes, the second triggered by the source entity, a pair without an
    edge ends with a single edge, the union of the tags and 2
    interactions. *)
Theorem C4_relationship_merge (roster : list Entity.t)
    (relationship : Extracted.relationship) (sourceId targetId : string) :
  Resolver.resolveEntity (Extracted.sourceEntityId relationship) roster
  = Return sourceId →
  Resolver.resolveEntity (Extracted.targetEntityId relationship) roster
  = Return targetId →
  (∀ existing e,
     first_such (edge_of sourceId targetId) existing e →
     ∃ tags,
       Reflection.mergeRelationship existing roster relationship
       = [Reflection.updateRelationship
            {| Stored.id := Stored.id e;
               Stored.sourceEntityId := Stored.sourceEntityId e;
               Stored.targetEntityId := Stored.targetEntityId e;
               Stored.tags := Some tags;
               Stored.metadata :=
                 Some {| Stored.interactions := Some (prior_interactions e + 1)%Z;
                         Stored.extra :=
                           match Stored.metadata e with
                           | Some m => Stored.extra m
                           | None => []
                           end |} |}]
       ∧ union_of (default [] (Stored.tags e)) (Extracted.tags relationship) tags)
  ∧ (∀ existing,
       none_such (edge_of sourceId targetId) existing →
       Reflection.mergeRelationship existing roster relationship
       = [Reflection.createRelationship sourceId targetId
            (Extracted.tags relationship)
            (match Extracted.metadata relationship with
             | Some n => n
             | None => 1%Z
             end)])
  ∧ (∀ db message1 message2 facts1 facts2 tags2,
       Db.fresh_ids db → Db.edges db sourceId targetId = [] →
       Extracted.metadata relationship = None →
       Memory.userId message2 = sourceId →
       let again :=
         {| Extracted.sourceEntityId := Extracted.sourceEntityId relationship;
            Extracted.targetEntityId := Extracted.targetEntityId relationship;
            Extracted.tags := tags2;
            Extracted.metadata := None |} in
       let db1 :=
         Db.reflectionPass roster db message1
           (Some {| Extracted.facts := facts1;
                    Extracted.relationships := [relationship] |}) in
       let db2 :=
         Db.reflectionPass roster db1 message2
           (Some {| Extracted.facts := facts2;
                    Extracted.relationships := [again] |}) in
       ∃ tags,
         Db.edges db2 sourceId targetId
         = [ {| Stored.id := Db.next_id db;
                Stored.sourceEntityId := sourceId;
                Stored.targetEntityId := targetId;
                Stored.tags := Some tags;
                Stored.metadata :=
                  Some {| Stored.interactions := Some 2%Z; Stored.extra := [] |} |} ]
         ∧ union_of (Extracted.tags relationship) tags2 tags).
Proof.
  intros Hs Ht. split_and!.
  - intros existing e He.
    apply (find_first_such _ _ _ _ (same_pair_spec sourceId targetId)) in He.
    rewrite (mergeRelationship_resolved _ _ _ _ _ Hs Ht), He.
    destruct (updated_found e relationship) as (tags & -> & Hu). eauto.
  - intros existing Hno.
    apply (find_none_such _ _ _ (same_pair_spec sourceId targetId)) in Hno.
    rewrite (mergeRelationship_resolved _ _ _ _ _ Hs Ht), Hno.
    by destruct (Extracted.metadata relationship).
  - intros db message1 message2 facts1 facts2 tags2 Hfresh Hnone Hmeta Hu
      again db1 db2.
    destruct (first_pass_creates roster db message1 facts1 relationship
                sourceId targetId Hs Ht Hnone) as [Hr1 Hn1].
    fold db1 in Hr1, Hn1. rewrite Hmeta in Hr1. cbn [default] in Hr1.
    subst db2.
    set (e1 := {| Stored.id := Db.next_id db;
                  Stored.sourceEntityId := sourceId;
                  Stored.targetEntityId := targetId;
                  Stored.tags := Some (Extracted.tags relationship);
                  Stored.metadata :=
                    Some {| Stored.interactions := Some 1%Z;
                            Stored.extra := [] |} |}) in *.
    rewrite (second_pass_updates roster db1 message2 facts2 again
               sourceId targetId e1); [| done | done | done | | ].
    + destruct (updated_found e1 again) as (tags & -> & Hunion).
      exists tags. split; [reflexivity | exact Hunion].
    + split; reflexivity.
    + eexists. split; [exact Hr1|]. split.
      * by apply filter_nil_Forall.
      * exact Hfresh.
Qed.

Lemma C4_relationship_merge_witness :
  ∃ tags,
    Db.edges
      (Db.reflectionPass []
         (Db.reflectionPass [] Db.empty (Sample.said "m1" "hi bob")
            (Sample.extraction [Sample.observed ["x"] None]))
         (Sample.said "m2" "hi again")
         (Sample.extraction [Sample.observed ["y"] None]))
      Sample.alice Sample.bob
    = [Sample.edge 0 tags 2]
    ∧ union_of ["x"] ["y"] tags.
Proof.
  apply (proj2 (proj2 (C4_relationship_merge [] (Sample.observed ["x"] None)
                         Sample.alice Sample.bob eq_refl eq_refl))
           Db.empty (Sample.said "m1" "hi bob") (Sample.said "m2" "hi again")
           [] [] ["y"]);
    [constructor | reflexivity | reflexivity | reflexivity].
Defined.

(** C4, as stated, fails: with no edge stored for the pair, an extracted
    relationship that brings [metadata: {interactions: 7}] is created with
    7 interactions, not 1. *)
Lemma C4_counterexample :
  Db.edges Db.empty Sample.alice Sample.bob = []
  ∧ Reflection.mergeRelationship [] [] (Sample.observed ["x"] (Some 7%Z))
    = [Reflection.createRelationship Sample.alice Sample.bob ["x"] 7]
  ∧ Db.edges
      (Db.reflectionPass [] Db.empty (Sample.said "m1" "hi bob")
         (Sample.extraction [Sample.observed ["x"] (Some 7%Z)]))
      Sample.alice Sample.bob
    = [Sample.edge 0 ["x"] 7].
Proof. split_and!; reflexivity. Qed.

(** C5 at its failing input: one pass whose extraction names the pair
    twice, on a store without an edge for it, issues two
    [createRelationship] calls and leaves two edges for the pair. *)
Theorem C5_one_pass_creates_two_edges :
  Reflection.handler [] []
    (Sample.extraction [Sample.observed ["x"] None; Sample.observed ["y"] None])
    (Sample.said "m1" "hi bob")
  = [Reflection.createRelationship Sample.alice Sample.bob ["x"] 1;
     Reflection.createRelationship Sample.alice Sample.bob ["y"] 1;
     Reflection.setCache "general-reflection-last-processed" "m1"]
  ∧ Db.edges
      (Db.reflectionPass [] Db.empty (Sample.said "m1" "hi bob")
         (Sample.extraction
            [Sample.observed ["x"] None; Sample.observed ["y"] None]))
      Sample.alice Sample.bob
    = [Sample.edge 0 ["x"] 1; Sample.edge 1 ["y"] 1].
Proof. split; reflexivity. Qed.

(** Within one pass every lookup is made in the relationships loaded at
    its start: of two observations of a stored pair, the second write
    replaces the first. *)
Example one_pass_second_update_wins :
  Db.edges
    (Db.reflectionPass []
       (Db.reflectionPass [] Db.empty (Sample.said "m1" "hi bob")
          (Sample.extraction [Sample.observed ["w"] None]))
       (Sample.said "m2" "hi again")
       (Sample.extraction [Sample.observed ["x"] None; Sample.observed ["y"] None]))
    Sample.alice Sample.bob
  = [Sample.edge 0 ["w"; "y"] 2].
Proof. reflexivity. Qed.

(** ** The orchestrator: what a handler has called *)

Section Calls.

Import Orchestrator.

Lemma calls_of_app tid (l1 l2 : list (nat * Call)) :
  calls_of tid (l1 ++ l2) = calls_of tid l1 ++ calls_of tid l2.
Proof. unfold calls_of. by rewrite List.filter_app, List.map_app. Qed.

Lemma calls_of_same tid (cs : list Call) :
  calls_of tid (List.map (pair tid) cs) = cs.
Proof.
  unfold calls_of. induction cs as [|c cs IH]; simpl; [done|].
  rewrite Nat.eqb_refl. simpl. by rewrite IH.
Qed.

Lemma calls_of_other tid tid' (cs : list Call) :
  tid ≠ tid' → calls_of tid (List.map (pair tid') cs) = [].
Proof.
  intros Hne. unfold calls_of. induction cs as [|c cs IH]; simpl; [done|].
  destruct (Nat.eqb_spec tid' tid); [congruence | done].
Qed.

Lemma calls_of_unknown tid (l : list (nat * Call)) :
  (∀ c, (tid, c) ∉ l) → calls_of tid l = [].
Proof.
  unfold calls_of. induction l as [|[t c] l IH]; intros Hno; simpl; [done|].
  destruct (Nat.eqb_spec t tid) as [->|Hne].
  - exfalso. apply (Hno c). by left.
  - apply IH. intros c' Hin. apply (Hno c'). by right.
Qed.

Lemma consistent_init : Trace.consistent init.
Proof.
  split.
  - intros tid h H. cbn [init handlers] in H. by rewrite lookup_nil in H.
  - intros tid c H. cbn [init log] in H. by apply elem_of_nil in H.
Qed.

Lemma consistent_arrive rt msg w :
  Trace.consistent w → Trace.consistent (arrive rt msg w).
Proof.
  intros [Hh Hl].
  assert (Hlog : log (arrive rt msg w)
                 = log w ++ List.map (pair (length (handlers w)))
                              [addEmbeddingToMemory; createMemory]).
  { unfold arrive. by destruct (latestResponseIds w !! agentId rt). }
  assert (Hhs : ∃ h, handlers (arrive rt msg w) = handlers w ++ [h]
                     ∧ responseId h = length (handlers w)
                     ∧ shouldRespond h = None ∧ at_ h = AwaitPersist).
  { unfold arrive. destruct (latestResponseIds w !! agentId rt); eauto. }
  destruct Hhs as (h0 & Hhs & Hid0 & Hsr0 & Hat0).
  split; rewrite Hlog, Hhs.
  - intros tid h Hlook.
    apply lookup_app_Some in Hlook as [Hlook | [Hlen Hlook]].
    + destruct (Hh tid h Hlook) as (Hid & Hcalls & Hco).
      split_and!; [done | | done].
      apply lookup_lt_Some in Hlook.
      rewrite calls_of_app, Hcalls, calls_of_other by lia.
      by rewrite app_nil_r.
    + apply list_lookup_singleton_Some in Hlook as [Hz <-].
      assert (tid = length (handlers w)) as -> by lia.
      split_and!; [done | | by rewrite Hsr0, Hat0].
      rewrite calls_of_app, calls_of_same, calls_of_unknown, Hsr0, Hat0.
      * done.
      * intros c Hc. apply Hl in Hc. lia.
  - intros tid c Hin. rewrite length_app. cbn [length].
    apply elem_of_app in Hin as [Hin | Hin].
    + apply Hl in Hin. lia.
    + apply list_elem_of_In, in_map_iff in Hin as (c' & [= <- <-] & _). lia.
Qed.

Lemma consistent_continue w w' h h' cs :
  Trace.consistent w →
  handlers w' = handlers w → log w' = log w →
  handlers w !! responseId h = Some h →
  responseId h' = responseId h →
  Trace.calls_at (shouldRespond h') (at_ h')
  = Trace.calls_at (shouldRespond h) (at_ h) ++ cs →
  Trace.coherent (shouldRespond h') (at_ h') →
  Trace.consistent (continue w' h' cs).
Proof.
  intros [Hh Hl] Hhs Hlog Hlook Hid Hcalls Hco.
  pose proof (lookup_lt_Some _ _ _ Hlook) as Hlt.
  split; cbn [continue handlers log]; rewrite Hhs, Hlog, Hid.
  - intros tid h1 Hlook1.
    destruct (decide (tid = responseId h)) as [->|Hne].
    + rewrite list_lookup_insert_eq in Hlook1 by done.
      injection Hlook1 as <-.
      destruct (Hh _ _ Hlook) as (_ & Hc & _).
      split_and!; [done | | done].
      by rewrite calls_of_app, calls_of_same, Hc, Hcalls.
    + rewrite list_lookup_insert_ne in Hlook1 by done.
      destruct (Hh _ _ Hlook1) as (Hid1 & Hc & Hco1).
      split_and!; [done | | done].
      rewrite calls_of_app, calls_of_other by done. by rewrite app_nil_r.
  - intros tid c Hin. rewrite length_insert.
    apply elem_of_app in Hin as [Hin | Hin].
    + by apply Hl in Hin.
    + apply list_elem_of_In, in_map_iff in Hin as (c' & [= <- <-] & _). lia.
Qed.

Lemma consistent_resumed w tid h r :
  Trace.consistent w → handlers w !! tid = Some h →
  Trace.consistent (resumed w h r).
Proof.
  intros Hw Hlook.
  destruct (proj1 Hw tid h Hlook) as (<- & _ & Hco).
  assert (Hstep : ∀ w' h' cs,
            handlers w' = handlers w → log w' = log w →
            responseId h' = responseId h →
            Trace.calls_at (shouldRespond h') (at_ h')
            = Trace.calls_at (shouldRespond h) (at_ h) ++ cs →
            Trace.coherent (shouldRespond h') (at_ h') →
            Trace.consistent (continue w' h' cs)).
  { intros. by eapply consistent_continue. }
  unfold resumed.
  destruct (at_ h) eqn:Hat; destruct r; try done;
    cbn [Trace.coherent] in Hco;
    repeat
      match goal with
      | |- context [match shouldRespond h with _ => _ end] =>
          destruct (shouldRespond h) as [[]|] eqn:Hsr
      | |- context [decide ?P] => destruct (decide P)
      | |- context [if ?b then _ else _] => destruct b
      end;
    try (by destruct Hco);
    (apply Hstep; cbn; rewrite ?Hat, ?Hco, ?Hsr, ?app_nil_r; by eauto).
Qed.

Lemma consistent_step w a : Trace.consistent w → Trace.consistent (step w a).
Proof.
  intros Hw. destruct a as [rt msg | tid r]; simpl.
  - by apply consistent_arrive.
  - destruct (handlers w !! tid) as [h|] eqn:Hlook; [|done].
    by eapply consistent_resumed.
Qed.

Lemma consistent_run schedule w :
  Trace.consistent w → Trace.consistent (run schedule w).
Proof.
  revert w. induction schedule as [|a schedule IH]; intros w Hw; [done|].
  apply IH. by apply consistent_step.
Qed.

End Calls.

(** ** The orchestrator: handlers that have returned or thrown *)

Section Terminal.

Import Orchestrator.

Lemma resumed_terminal w h r : Trace.terminal (at_ h) → resumed w h r = w.
Proof. unfold resumed. by destruct (at_ h). Qed.

Lemma resumed_handlers w h r :
  handlers (resumed w h r) = handlers w
  ∨ ∃ h', handlers (resumed w h r) = <[responseId h := h']> (handlers w).
Proof.
  unfold resumed.
  destruct (at_ h); destruct r; auto;
    repeat
      match goal with
      | |- context [match shouldRespond h with _ => _ end] =>
          destruct (shouldRespond h) as [[]|]
      | |- context [decide ?P] => destruct (decide P)
      | |- context [if ?b then _ else _] => destruct b
      end;
    right; eexists; reflexivity.
Qed.

Lemma terminal_step w a tid h :
  Trace.consistent w → handlers w !! tid = Some h → Trace.terminal (at_ h) →
  handlers (step w a) !! tid = Some h.
Proof.
  intros Hw Hlook Hterm. destruct a as [rt msg | tid' r]; simpl.
  - unfold arrive. destruct (latestResponseIds w !! agentId rt);
      cbn [handlers]; by apply lookup_app_l_Some.
  - destruct (handlers w !! tid') as [h'|] eqn:Hlook'; [|done].
    destruct (proj1 Hw tid' h' Hlook') as (Hid & _ & _).
    destruct (decide (tid' = tid)) as [->|Hne].
    + assert (h' = h) as -> by congruence. by rewrite resumed_terminal.
    + destruct (resumed_handlers w h' r) as [-> | [h'' ->]]; [done|].
      rewrite Hid. by rewrite list_lookup_insert_ne.
Qed.

Lemma terminal_run schedule w tid h :
  Trace.consistent w → handlers w !! tid = Some h → Trace.terminal (at_ h) →
  handlers (run schedule w) !! tid = Some h.
Proof.
  revert w. induction schedule as [|a schedule IH]; intros w Hw Hlook Hterm;
    [done|].
  apply IH; [by apply consistent_step | by apply terminal_step | done].
Qed.

Lemma run_app s1 s2 w : run (s1 ++ s2) w = run s2 (run s1 w).
Proof. apply fold_left_app. Qed.

Lemma evaluate_calls_at_most_once sr p :
  (List.length
     (omap (λ c, match c with evaluate b => Some b | _ => None end)
        (Trace.calls_at sr p)) ≤ 1)%nat.
Proof.
  induction p; try (destruct sr as [[]|]; cbn; lia).
  cbn [Trace.calls_at]. rewrite omap_app. cbn. rewrite app_nil_r. done.
Qed.

End Terminal.

(** ** The orchestrator: the claims *)

(** C2, as amended: whatever the order in which messages arrive and
    promises settle, the calls a handler has made are those of its
    position. [runtime.evaluate] is called at most once; a handler that
    has completed has called it exactly once, as its last call, with the
    should-respond decision, be that decision false or true; a handler
    whose response was discarded as stale has returned without calling
    it. The call is made as soon as the state is composed when the
    decision is false, and as soon as the actions are processed when the
    response was dispatched. *)
Theorem C2_evaluate_once_unless_aborted (schedule : list Orchestrator.Action)
    (tid : nat) (h : Orchestrator.Handler) :
  let w := Orchestrator.run schedule Orchestrator.init in
  Orchestrator.handlers w !! tid = Some h →
  Orchestrator.calls_of tid (Orchestrator.log w)
  = Trace.calls_at (Orchestrator.shouldRespond h) (Orchestrator.at_ h)
  ∧ (List.length (Orchestrator.evaluate_calls tid w) ≤ 1)%nat
  ∧ (Orchestrator.at_ h = Orchestrator.Completed →
     ∃ sr, Orchestrator.shouldRespond h = Some sr
           ∧ Orchestrator.evaluate_calls tid w = [sr]
           ∧ List.last (Orchestrator.calls_of tid (Orchestrator.log w))
               Orchestrator.createMemory
             = Orchestrator.evaluate sr)
  ∧ (Orchestrator.at_ h = Orchestrator.Discarded →
     Orchestrator.evaluate_calls tid w = [])
  ∧ (Orchestrator.at_ h = Orchestrator.AwaitComposeState →
     Orchestrator.shouldRespond h = Some false →
     Orchestrator.evaluate_calls tid
       (Orchestrator.step w (Orchestrator.Resume tid Orchestrator.Fulfilled))
     = [false])
  ∧ (Orchestrator.at_ h = Orchestrator.AwaitProcessActions →
     Orchestrator.evaluate_calls tid
       (Orchestrator.step w (Orchestrator.Resume tid Orchestrator.Fulfilled))
     = [true]).
Proof.
  intros w Hlook.
  pose proof (consistent_run schedule _ consistent_init) as Hw. fold w in Hw.
  destruct (proj1 Hw tid h Hlook) as (Hid & Hcalls & Hco).
  unfold Orchestrator.evaluate_calls. rewrite Hcalls. split_and!.
  - done.
  - apply evaluate_calls_at_most_once.
  - intros Hat. rewrite Hat in *. cbn in Hco. destruct Hco as [sr Hsr].
    exists sr. rewrite Hsr. by destruct sr.
  - intros Hat. by rewrite Hat.
  - intros Hat Hsr. cbn [Orchestrator.step]. rewrite Hlook.
    unfold Orchestrator.resumed. rewrite Hat, Hsr.
    cbn [Orchestrator.continue Orchestrator.log Orchestrator.goto
         Orchestrator.responseId].
    by rewrite Hid, calls_of_app, calls_of_same, Hcalls, Hat.
  - intros Hat. cbn [Orchestrator.step]. rewrite Hlook.
    unfold Orchestrator.resumed. rewrite Hat.
    cbn [Orchestrator.continue Orchestrator.log Orchestrator.cleanup
         Orchestrator.goto Orchestrator.responseId].
    by rewrite Hid, calls_of_app, calls_of_same, Hcalls, Hat.
Qed.

Lemma C2_evaluate_once_unless_aborted_witness :
  Orchestrator.position 0 (Orchestrator.run Sample.superseded Orchestrator.init)
  = Some Orchestrator.Discarded
  ∧ Orchestrator.evaluate_calls 0
      (Orchestrator.run Sample.superseded Orchestrator.init)
    = [].
Proof.
  split; [reflexivity|].
  refine (proj1 (proj2 (proj2 (proj2
    (C2_evaluate_once_unless_aborted Sample.superseded 0 _ _)))) _);
    reflexivity.
Defined.

(** C2, as stated, fails: message [m1] arrives while the handler of [m0]
    waits for the model; the response to [m0] is discarded and its
    handler returns without having called [runtime.evaluate], whatever
    happens afterwards. *)
Lemma C2_counterexample :
  let w := Orchestrator.run Sample.superseded Orchestrator.init in
  Orchestrator.position 0 w = Some Orchestrator.Discarded
  ∧ Orchestrator.calls_of 0 (Orchestrator.log w)
    = [Orchestrator.addEmbeddingToMemory; Orchestrator.createMemory;
       Orchestrator.checkShouldRespond_; Orchestrator.composeState;
       Orchestrator.useModel; Orchestrator.logDiscarded]
  ∧ ∀ more,
      Orchestrator.evaluate_calls 0
        (Orchestrator.run (Sample.superseded ++ more) Orchestrator.init)
      = [].
Proof.
  intros w. split_and!; [reflexivity | reflexivity |].
  intros more. rewrite run_app. fold w.
  assert (Hw : Trace.consistent w) by apply consistent_run, consistent_init.
  assert (∃ h, Orchestrator.handlers w !! 0 = Some h
               ∧ Orchestrator.at_ h = Orchestrator.Discarded)
    as (h & Hlook & Hat) by (eexists; split; reflexivity).
  pose proof (terminal_run more w 0 h Hw Hlook) as Hlook'.
  rewrite Hat in Hlook'. specialize (Hlook' I).
  pose proof (consistent_run more w Hw) as Hw'.
  destruct (proj1 Hw' 0 h Hlook') as (_ & Hcalls & _).
  unfold Orchestrator.evaluate_calls. by rewrite Hcalls, Hat.
Qed.

(** C6, as amended: when the persistence of the inbound message fails, the
    failure is surfaced (the handler's promise is rejected) and the
    handler has ended: whatever happens afterwards, it has made no call
    but the two persistence calls, so neither the should-respond
    evaluation nor the generation is run for that message. *)
Theorem C6_persist_failure_aborts (before after : list Orchestrator.Action)
    (tid : nat) :
  Orchestrator.position tid (Orchestrator.run before Orchestrator.init)
  = Some Orchestrator.AwaitPersist →
  let w :=
    Orchestrator.run
      (before ++ Orchestrator.Resume tid Orchestrator.RejectedP :: after)
      Orchestrator.init in
  Orchestrator.position tid w
  = Some (Orchestrator.Threw Rejected Orchestrator.AwaitPersist)
  ∧ Orchestrator.calls_of tid (Orchestrator.log w)
    = [Orchestrator.addEmbeddingToMemory; Orchestrator.createMemory;
       Orchestrator.rejected Rejected].
Proof.
  intros Hpos w. subst w. rewrite run_app.
  set (w0 := Orchestrator.run before Orchestrator.init) in *.
  assert (Hw0 : Trace.consistent w0) by apply consistent_run, consistent_init.
  unfold Orchestrator.position in Hpos.
  destruct (Orchestrator.handlers w0 !! tid) as [h|] eqn:Hlook; [|done].
  injection Hpos as Hat.
  destruct (proj1 Hw0 tid h Hlook) as (Hid & _ & _).
  cbn [Orchestrator.run fold_left Orchestrator.step]. rewrite Hlook.
  fold (Orchestrator.run after
          (Orchestrator.resumed w0 h Orchestrator.RejectedP)).
  assert (Hw1 : Trace.consistent
                  (Orchestrator.resumed w0 h Orchestrator.RejectedP)).
  { by eapply consistent_resumed. }
  set (h' := Orchestrator.goto h
               (Orchestrator.Threw Rejected Orchestrator.AwaitPersist)).
  assert (Hlook1 : Orchestrator.handlers
                     (Orchestrator.resumed w0 h Orchestrator.RejectedP) !! tid
                   = Some h').
  { unfold Orchestrator.resumed. rewrite Hat.
    cbn [Orchestrator.continue Orchestrator.handlers]. subst h'.
    cbn [Orchestrator.goto Orchestrator.responseId]. rewrite Hid.
    apply list_lookup_insert_eq. by eapply lookup_lt_Some. }
  pose proof (terminal_run after _ tid h' Hw1 Hlook1 I) as Hlook2.
  pose proof (consistent_run after _ Hw1) as Hw2.
  destruct (proj1 Hw2 tid h' Hlook2) as (_ & Hcalls & _).
  unfold Orchestrator.position. rewrite Hlook2, Hcalls. done.
Qed.

Lemma C6_persist_failure_aborts_witness :
  Orchestrator.calls_of 0
    (Orchestrator.log
       (Orchestrator.run
          ([Sample.arrives "m0"]
           ++ (Orchestrator.Resume 0 Orchestrator.RejectedP
               :: Sample.to_generation 0))
          Orchestrator.init))
  = [Orchestrator.addEmbeddingToMemory; Orchestrator.createMemory;
     Orchestrator.rejected Rejected].
Proof.
  apply (proj2 (C6_persist_failure_aborts [Sample.arrives "m0"]
                  (Sample.to_generation 0) 0 eq_refl)).
Defined.

(** C6, as stated, fails: the persistence of [m0] is rejected, and the
    settlements that would have taken its handler through the
    should-respond evaluation to the generation find it ended;
    [checkShouldRespond] and the model were not called. *)
Lemma C6_counterexample :
  let w :=
    Orchestrator.run
      ([Sample.arrives "m0"; Orchestrator.Resume 0 Orchestrator.RejectedP]
       ++ Sample.to_generation 0 ++ [Sample.generated 0])
      Orchestrator.init in
  Orchestrator.position 0 w
  = Some (Orchestrator.Threw Rejected Orchestrator.AwaitPersist)
  ∧ Orchestrator.calls_of 0 (Orchestrator.log w)
    = [Orchestrator.addEmbeddingToMemory; Orchestrator.createMemory;
       Orchestrator.rejected Rejected]
  ∧ (Orchestrator.checkShouldRespond_ ∉ Orchestrator.calls_of 0 (Orchestrator.log w))
  ∧ (Orchestrator.useModel ∉ Orchestrator.calls_of 0 (Orchestrator.log w)).
Proof.
  intros w.
  assert (Hcalls : Orchestrator.calls_of 0 (Orchestrator.log w)
                   = [Orchestrator.addEmbeddingToMemory; Orchestrator.createMemory;
                      Orchestrator.rejected Rejected]) by reflexivity.
  split_and!; [reflexivity | done | |]; rewrite Hcalls;
    rewrite !elem_of_cons, elem_of_nil; intros [|[|[|]]]; done.
Qed.

(** The guard of lines 227-233 itself: a handler that does not find its
    own token in the map object it holds discards its response, and a
    handler that has discarded its response has not dispatched it. *)
Lemma guard_discards (w : Orchestrator.World) (h : Orchestrator.Handler)
    (responseContent : Orchestrator.ResponseContent) :
  Orchestrator.at_ h = Orchestrator.AwaitUseModel →
  Orchestrator.currentResponseId w h ≠ Some (Orchestrator.responseId h) →
  Orchestrator.resumed w h (Orchestrator.FulfilledText responseContent)
  = Orchestrator.continue w (Orchestrator.goto h Orchestrator.Discarded)
      [Orchestrator.logDiscarded].
Proof.
  intros Hat Hne. unfold Orchestrator.resumed. rewrite Hat.
  by destruct (decide (Orchestrator.currentResponseId w h
                       = Some (Orchestrator.responseId h))).
Qed.

Lemma discarded_not_dispatched (schedule : list Orchestrator.Action)
    (tid : nat) (h : Orchestrator.Handler) :
  let w := Orchestrator.run schedule Orchestrator.init in
  Orchestrator.handlers w !! tid = Some h →
  Orchestrator.at_ h = Orchestrator.Discarded →
  Orchestrator.dispatched tid w = false.
Proof.
  intros w Hlook Hat.
  pose proof (consistent_run schedule _ consistent_init) as Hw. fold w in Hw.
  destruct (proj1 Hw tid h Hlook) as (_ & Hcalls & _).
  unfold Orchestrator.dispatched. by rewrite Hcalls, Hat.
Qed.

(** C1 at its failing input: at the moment handler 2 makes its token
    check, message 3 has arrived and the token registered for the room is
    3; the check, made on the map object handler 2 holds, finds 2, and
    the response to message 2 is dispatched. *)
Theorem C1_superseded_response_dispatched :
  let at_check := Orchestrator.run Sample.four_messages Orchestrator.init in
  let after :=
    Orchestrator.run
      [Sample.generated 2; Orchestrator.Resume 2 Orchestrator.Fulfilled]
      at_check in
  Orchestrator.position 2 at_check = Some Orchestrator.AwaitUseModel
  ∧ Orchestrator.position 3 at_check = Some Orchestrator.AwaitPersist
  ∧ Orchestrator.liveToken at_check "agent-1" "general" = Some 3
  ∧ Orchestrator.dispatched 2 at_check = false
  ∧ Orchestrator.position 2 after = Some Orchestrator.AwaitProcessActions
  ∧ Orchestrator.dispatched 2 after = true.
Proof. repeat split. Qed.

(** C3 at its failing input: handler 0 has passed its token check and
    waits for [composeState] when message 1 arrives and registers token 1;
    resumed, handler 0 deletes the room's entry, which is token 1, and
    handler 1 later finds no token and discards its response. *)
Theorem C3_cleanup_clears_newer_token :
  let w := Orchestrator.run Sample.two_messages Orchestrator.init in
  let w' := Orchestrator.step w (Orchestrator.Resume 0 Orchestrator.Fulfilled) in
  let w'' := Orchestrator.run (Sample.to_generation 1 ++ [Sample.generated 1]) w' in
  Orchestrator.position 0 w = Some Orchestrator.AwaitComposeState2
  ∧ Orchestrator.liveToken w "agent-1" "general" = Some 1
  ∧ Orchestrator.liveToken w' "agent-1" "general" = None
  ∧ Orchestrator.dispatched 0 w' = true
  ∧ Orchestrator.position 1 w'' = Some Orchestrator.Discarded
  ∧ Orchestrator.dispatched 1 w'' = false.
Proof. repeat split. Qed.

(** * Further properties *)

(** ** Entity resolution *)

Lemma find_elem {A} (p : A → bool) (l : list A) (x : A) :
  List.find p l = Some x → x ∈ l ∧ p x = true.
Proof.
  intros H. apply List.find_some in H as [Hin Hp].
  split; [by apply list_elem_of_In | done].
Qed.

(** X1: A resolved identifier is the identifier given or the id of an entity
    of the roster: the resolver makes up no id. *)
Theorem resolveEntity_provenance (x : string) (roster : list Entity.t)
    (r : string) :
  Resolver.resolveEntity x roster = Return r →
  (uuid_syntax x ∧ r = x) ∨ (∃ a, a ∈ roster ∧ Entity.id a = r).
Proof.
  unfold Resolver.resolveEntity.
  destruct (Resolver.uuid_test x) eqn:Hu.
  { intros [= <-]. left. split; [by apply uuid_test_spec | done]. }
  repeat
    match goal with
    | |- context [List.find ?p roster] =>
        let H := fresh "H" in
        destruct (List.find p roster) as [a|] eqn:H;
        [apply find_elem in H as [Hin _]; intros [= <-]; right; eauto|]
    end.
  done.
Qed.

Lemma resolveEntity_provenance_witness :
  (uuid_syntax "bob" ∧ "user-123" = "bob")
  ∨ (∃ a, a ∈ [ {| Entity.id := "user-123"; Entity.names := ["John"; "Bobby"] |} ]
          ∧ Entity.id a = "user-123").
Proof.
  apply (resolveEntity_provenance "bob"
           [ {| Entity.id := "user-123"; Entity.names := ["John"; "Bobby"] |} ]).
  reflexivity.
Defined.

(** X2: An identifier that is neither of UUID form nor the id of an entity of
    the roster, and that occurs inside the id of the first entity,
    resolves to that entity. The empty identifier is such a one: on a
    roster without an empty id it resolves to the first entity, whoever
    that is. *)
Theorem resolveEntity_partial_id_of_first (x : string) (a : Entity.t)
    (rest : list Entity.t) :
  ¬ uuid_syntax x →
  none_such (Rules.exact_id x) (a :: rest) →
  (substring_of x (Entity.id a) →
   Resolver.resolveEntity x (a :: rest) = Return (Entity.id a))
  ∧ (x = "" → Resolver.resolveEntity x (a :: rest) = Return (Entity.id a)).
Proof.
  intros Hu Hb.
  assert (Hgoal : substring_of x (Entity.id a) →
            Resolver.resolveEntity x (a :: rest) = Return (Entity.id a)).
  { intros Hsub. unfold Resolver.resolveEntity.
    assert (Resolver.uuid_test x = false) as ->.
    { apply not_true_iff_false. by rewrite uuid_test_spec. }
    apply (find_none_such _ _ _ (id_equals_spec x)) in Hb. rewrite Hb.
    cbn [List.find]. unfold Resolver.id_includes at 1.
    apply includes_spec in Hsub. by rewrite Hsub. }
  split; [done|]. intros ->. apply Hgoal. by exists "", (Entity.id a).
Qed.

Lemma resolveEntity_partial_id_of_first_witness :
  Resolver.resolveEntity ""
    [ {| Entity.id := "user-123"; Entity.names := ["John"] |};
      {| Entity.id := "user-456"; Entity.names := ["Emma"] |} ]
  = Return "user-123".
Proof.
  refine (proj2 (resolveEntity_partial_id_of_first "" _ _ _ _) eq_refl).
  - intros H%uuid_test_spec. discriminate.
  - repeat constructor; discriminate.
Defined.

(** ** Structured extraction, all modes *)

(** X3: [generateObject] throws in two cases only: the prompt is empty, and
    then the model is not called, or the model call itself fails. *)
Theorem generateObject_throws_iff (JSON_parse : string → option JSON)
    (useModel : completion string) (prompt output : string)
    (enumValues : list string) (schema : option (JSON → option JSON))
    (e : Error) :
  Extraction.generateObject JSON_parse useModel prompt output enumValues schema
  = Throw e
  ↔ (prompt = "" ∧ e = EmptyPromptError) ∨ (prompt ≠ "" ∧ useModel = Throw e).
Proof.
  unfold Extraction.generateObject.
  destruct (String.eqb_spec prompt "") as [->|Hp].
  - split; [intros [= <-]; by left | intros [[_ ->] | [? _]]; done].
  - destruct (String.eqb output "enum"), useModel as [response|e']; simpl;
      (split; [intros [= <-] | intros [[? _] | [_ [= <-]]]]; try done; by right).
Qed.

Lemma substring_of_refl (s : string) : substring_of s s.
Proof. exists "", "". by rewrite app_nil, append_empty_r. Qed.

(** X4: In enum mode the trimmed output of the model fixes the result,
    and the schema is not consulted. When the trimmed output is one of
    the enum values, it is the result. Otherwise the result is the first
    of the enum values, in their order, that occurs in the trimmed
    output when the case of the letters is ignored - but null when that
    first value is the empty string, even if a later value occurs too;
    and it is null when no enum value occurs. *)
Theorem generateObject_enum_first_match (JSON_parse : string → option JSON)
    (prompt response : string) (enumValues : list string)
    (schema : option (JSON → option JSON)) :
  prompt ≠ "" →
  let result :=
    Extraction.generateObject JSON_parse (Return response) prompt "enum"
      enumValues schema in
  let cleaned := JS.trim response in
  (cleaned ∈ enumValues → result = Return (JStr cleaned))
  ∧ (cleaned ∉ enumValues →
     (∀ value,
        first_such (λ v, occurs_ignoring_case v cleaned) enumValues value →
        (value ≠ "" → result = Return (JStr value))
        ∧ (value = "" → result = Return JNull))
     ∧ (none_such (λ v, occurs_ignoring_case v cleaned) enumValues →
        result = Return JNull)).
Proof.
  intros Hp result cleaned. subst result.
  unfold Extraction.generateObject.
  apply String.eqb_neq in Hp. rewrite Hp. cbn [String.eqb Ascii.eqb Bool.eqb bindC].
  unfold Extraction.enumResult. fold cleaned.
  assert (Hspec : ∀ value,
            JS.includes (JS.toLowerCase cleaned) (JS.toLowerCase value) = true
            ↔ occurs_ignoring_case value cleaned).
  { intros value. apply includes_ignoring_case. }
  split.
  - intros Hin%existsb_eqb_elem. by rewrite Hin.
  - intros Hnot.
    assert (existsb (String.eqb cleaned) enumValues = false) as ->.
    { apply not_true_iff_false. by intros Hin%existsb_eqb_elem. }
    split.
    + intros value Hfirst.
      apply (find_first_such _ _ _ _ Hspec) in Hfirst. rewrite Hfirst. split.
      * intros Hne%String.eqb_neq. by rewrite Hne.
      * by intros ->.
    + intros Hnone. apply (find_none_such _ _ _ Hspec) in Hnone.
      by rewrite Hnone.
Qed.

Lemma generateObject_enum_first_match_witness :
  Extraction.generateObject Json.parse
    (Return " please stop, do not respond ") "should I respond?" "enum"
    ["RESPOND"; "IGNORE"; "STOP"] None
  = Return (JStr "RESPOND").
Proof.
  refine
    (proj1
       (proj1
          (proj2
             (generateObject_enum_first_match Json.parse "should I respond?"
                " please stop, do not respond " ["RESPOND"; "IGNORE"; "STOP"]
                None _)
             _)
          "RESPOND" _)
       _).
  - discriminate.
  - intros H. vm_compute in H.
    repeat (apply elem_of_cons in H as [H|H]; [discriminate|]).
    by apply elem_of_nil in H.
  - exists [], ["IGNORE"; "STOP"]. split_and!; [reflexivity | | constructor].
    exists "please stop, do not ", "respond", "".
    split; [reflexivity | same_letters].
  - discriminate.
Defined.

Lemma append_assoc_r (a b c : string) : (a +:+ b) +:+ c = a +:+ (b +:+ c).
Proof. induction a as [|x a IH]; app_simpl; [done | by rewrite IH]. Qed.

Lemma string_length_app (a b : string) :
  String.length (a +:+ b) = String.length a + String.length b.
Proof. induction a as [|c a IH]; app_simpl; simpl; [done | by rewrite IH]. Qed.

Lemma substring_middle (pre m post : string) :
  String.substring (String.length pre) (String.length m) (pre +:+ m +:+ post) = m.
Proof.
  induction pre as [|c pre IH]; app_simpl; simpl; [|done].
  induction m as [|d m IHm]; app_simpl; simpl.
  - by destruct post.
  - by rewrite IHm.
Qed.

Lemma slice_middle (pre m post : string) :
  JS.slice (pre +:+ m +:+ post) (Z.of_nat (String.length pre))
    (Z.of_nat (String.length pre) + Z.of_nat (String.length m)) = m.
Proof.
  unfold JS.slice. rewrite !string_length_app.
  destruct (Z.ltb_spec (Z.of_nat (String.length pre)) 0); [lia|].
  destruct (Z.ltb_spec (Z.of_nat (String.length pre)
                        + Z.of_nat (String.length m)) 0); [lia|].
  rewrite !Z.min_l by lia.
  replace (Z.to_nat (Z.of_nat (String.length pre) + Z.of_nat (String.length m)
                     - Z.of_nat (String.length pre)))
    with (String.length m) by lia.
  rewrite Nat2Z.id. apply substring_middle.
Qed.

Lemma not_substring_cons (a x : ascii) (s : string) :
  ¬ substring_of (String a "") (String x s) →
  a ≠ x ∧ ¬ substring_of (String a "") s.
Proof.
  intros H. split.
  - intros ->. apply H. by exists "", s.
  - intros (pre & post & ->). apply H. by exists (String x pre), post.
Qed.

Lemma indexOf_first (pre rest : string) (a : ascii) :
  ¬ substring_of (String a "") pre →
  JS.indexOf (pre +:+ String a rest) (String a "") = Z.of_nat (String.length pre).
Proof.
  induction pre as [|x pre IH]; intros Hno; app_simpl; cbn [JS.indexOf].
  - by rewrite (proj2 (prefix_char a a rest) eq_refl).
  - apply not_substring_cons in Hno as [Hne Hno].
    destruct (String.prefix (String a "") (String x (pre +:+ String a rest))) eqn:Hp.
    { by apply prefix_char in Hp. }
    rewrite (IH Hno).
    destruct (Z.eqb_spec (Z.of_nat (String.length pre)) (-1)%Z); [lia|].
    simpl String.length. lia.
Qed.

Lemma lastIndexOf_absent (s sub : string) :
  ¬ substring_of sub s → JS.lastIndexOf s sub = (-1)%Z.
Proof.
  intros Hno. destruct (Z.eq_dec (JS.lastIndexOf s sub) (-1)%Z) as [|Hne]; [done|].
  by apply lastIndexOf_found in Hne.
Qed.

Lemma lastIndexOf_last (s post : string) (b : ascii) :
  ¬ substring_of (String b "") post →
  JS.lastIndexOf (s +:+ String b post) (String b "") = Z.of_nat (String.length s).
Proof.
  intros Hno. induction s as [|x s IH]; app_simpl; cbn [JS.lastIndexOf].
  - rewrite (lastIndexOf_absent _ _ Hno). simpl (_ =? _)%Z. cbv iota.
    by rewrite (proj2 (prefix_char b b post) eq_refl).
  - rewrite IH.
    destruct (Z.eqb_spec (Z.of_nat (String.length s)) (-1)%Z); [lia|].
    simpl String.length. lia.
Qed.

(** X5: The text handed to [JSON.parse] runs from the first opening bracket
    of the requested shape to the last closing one: prose before and
    after a bracketed payload is dropped. *)
Theorem jsonStringOf_between_brackets (output pre mid post : string) :
  ¬ substring_of (opening output) pre →
  ¬ substring_of (closing output) post →
  Extraction.jsonStringOf output
    (pre +:+ opening output +:+ mid +:+ closing output +:+ post)
  = opening output +:+ mid +:+ closing output.
Proof.
  intros Hpre Hpost. unfold Extraction.jsonStringOf.
  fold (opening output). fold (closing output).
  destruct (opening_closing output) as (a & b & Ha & Hb).
  rewrite Ha, Hb in *. app_simpl.
  rewrite (indexOf_first pre _ a Hpre).
  replace (pre +:+ String a (mid +:+ String b post))
    with ((pre +:+ String a mid) +:+ String b post)
    by (rewrite append_assoc_r; app_simpl; reflexivity).
  rewrite (lastIndexOf_last _ post b Hpost), string_length_app. simpl String.length.
  destruct (Z.eqb_spec (Z.of_nat (String.length pre)) (-1)%Z); [lia|].
  destruct (Z.eqb_spec (Z.of_nat (String.length pre + S (String.length mid))) (-1)%Z);
    [lia|].
  destruct (Z.ltb_spec (Z.of_nat (String.length pre))
              (Z.of_nat (String.length pre + S (String.length mid)))); [|lia].
  cbn [negb andb].
  replace ((pre +:+ String a mid) +:+ String b post)
    with (pre +:+ String a (mid +:+ String b "") +:+ post).
  2:{ rewrite !append_assoc_r. app_simpl. by rewrite append_assoc_r. }
  replace (Z.of_nat (String.length pre + S (String.length mid)) + 1)%Z
    with (Z.of_nat (String.length pre)
          + Z.of_nat (String.length (String a (mid +:+ String b ""))))%Z.
  2:{ simpl String.length. rewrite string_length_app. simpl String.length. lia. }
  apply slice_middle.
Qed.

Lemma jsonStringOf_between_brackets_witness :
  Extraction.jsonStringOf "array" "Here you go: [1, 2] - anything else?"
  = "[1, 2]".
Proof.
  apply (jsonStringOf_between_brackets "array" "Here you go: " "1, 2"
           " - anything else?");
    apply includes_false; reflexivity.
Defined.

(** ** What a reflection pass writes *)

Lemma append_inj_r (a b t : string) : a +:+ t = b +:+ t → a = b.
Proof.
  revert b. induction a as [|c a IH]; intros [|d b] H; app_simpl in H.
  - done.
  - apply (f_equal String.length) in H. simpl in H. rewrite string_length_app in H. lia.
  - apply (f_equal String.length) in H. simpl in H. rewrite string_length_app in H. lia.
  - injection H as -> H. by rewrite (IH b H).
Qed.

Lemma checkpoint_key_inj (room room' : string) :
  Reflection.checkpoint_key room = Reflection.checkpoint_key room' → room = room'.
Proof. apply append_inj_r. Qed.

Lemma mergeRelationship_writes existing roster relationship :
  Forall relationship_write
    (Reflection.mergeRelationship existing roster relationship).
Proof.
  unfold Reflection.mergeRelationship.
  destruct (bindC _ _) as [[s t]|]; [|constructor].
  destruct (List.find _ existing); repeat constructor.
Qed.

Lemma exec_writes_cache_facts (calls : list Reflection.DbCall) (db : Db.t) :
  Forall relationship_write calls →
  Db.cache (fold_left Db.exec calls db) = Db.cache db
  ∧ Db.facts (fold_left Db.exec calls db) = Db.facts db.
Proof.
  intros H. revert db. induction H as [|c calls Hc _ IH]; intros db; [done|].
  cbn [fold_left]. destruct (IH (Db.exec db c)) as [-> ->].
  by destruct c.
Qed.

Lemma exec_createMemory_cache_facts {A} (f : A → string) (db : Db.t)
    (l : list A) :
  let db' :=
    fold_left Db.exec (List.map (λ x, Reflection.createMemory (f x)) l) db in
  Db.cache db' = Db.cache db ∧ Db.facts db' = Db.facts db ++ List.map f l.
Proof.
  revert db. induction l as [|x l IH]; intros db.
  - cbn. by rewrite app_nil_r.
  - cbn [List.map fold_left].
    destruct (IH (Db.exec db (Reflection.createMemory (f x)))) as [-> ->].
    cbn. by rewrite <- app_assoc.
Qed.

Lemma reflectionPass_cache_facts roster db message reflection :
  let db' := Db.reflectionPass roster db message (Some reflection) in
  Db.cache db'
  = <[Reflection.checkpoint_key (Memory.roomId message) := Memory.id message]>
      (Db.cache db)
  ∧ Db.facts db'
    = Db.facts db
      ++ List.map Extracted.claim
           (List.filter Reflection.is_new_fact (Extracted.facts reflection)).
Proof.
  unfold Db.reflectionPass, Reflection.handler.
  rewrite !fold_left_app. cbn [fold_left Db.exec Db.cache Db.facts].
  match goal with
  | |- context [fold_left Db.exec (flat_map ?g ?l) ?d] =>
      destruct (exec_writes_cache_facts (flat_map g l) d) as [-> ->]
  end.
  { apply Forall_flat_map, Forall_forall. intros rel _.
    apply mergeRelationship_writes. }
  by destruct (exec_createMemory_cache_facts Extracted.claim db
                 (List.filter Reflection.is_new_fact (Extracted.facts reflection)))
    as [-> ->].
Qed.

(** X6: A pass whose extraction came back null writes nothing, the checkpoint
    included. A pass whose extraction succeeded moves the checkpoint of
    the message's room to the message, whatever was extracted, and leaves
    the checkpoint of every other room alone. *)
Theorem reflectionPass_checkpoint (roster : list Entity.t) (db : Db.t)
    (message : Memory.t) :
  Db.reflectionPass roster db message None = db
  ∧ ∀ reflection room,
      Db.cache (Db.reflectionPass roster db message (Some reflection))
        !! Reflection.checkpoint_key room
      = if decide (room = Memory.roomId message)
        then Some (Memory.id message)
        else Db.cache db !! Reflection.checkpoint_key room.
Proof.
  split; [done|]. intros reflection room.
  destruct (reflectionPass_cache_facts roster db message reflection) as [-> _].
  destruct (decide (room = Memory.roomId message)) as [->|Hne].
  - apply lookup_insert_eq.
  - apply lookup_insert_ne. intros H%checkpoint_key_inj. done.
Qed.

Lemma trim_empty_claim (t : string) : JS.trim t ≠ "" → t ≠ "".
Proof. by intros H ->. Qed.

(** X7: The facts a pass stores are the claims of the extracted facts that
    are not already known, not in the bio and not blank, and no others;
    in particular no blank claim is ever stored. They are appended to the
    fact store, which is otherwise left as it was. *)
Theorem reflectionPass_facts (roster : list Entity.t) (db : Db.t)
    (message : Memory.t) (reflection : Extracted.reflection) :
  ∃ new,
    Db.facts (Db.reflectionPass roster db message (Some reflection))
    = Db.facts db ++ new
    ∧ (∀ t, t ∈ new ↔
            ∃ fact, fact ∈ Extracted.facts reflection
                    ∧ Extracted.claim fact = t
                    ∧ Extracted.already_known fact = false
                    ∧ Extracted.in_bio fact = false
                    ∧ JS.trim t ≠ "")
    ∧ (List.length new ≤ List.length (Extracted.facts reflection))%nat.
Proof.
  destruct (reflectionPass_cache_facts roster db message reflection) as [_ ->].
  eexists. split; [reflexivity|]. split.
  - intros t. rewrite list_elem_of_In, in_map_iff. split.
    + intros (fact & <- & Hin). apply filter_In in Hin as [Hin Hnew].
      exists fact. unfold Reflection.is_new_fact in Hnew.
      rewrite !andb_true_iff, !negb_true_iff in Hnew.
      destruct Hnew as [[[Hk Hb] _] Ht].
      split_and!; [by apply list_elem_of_In | done | done | done |].
      by apply String.eqb_neq.
    + intros (fact & Hin & <- & Hk & Hb & Ht). exists fact. split; [done|].
      apply filter_In. split; [by apply list_elem_of_In|].
      unfold Reflection.is_new_fact.
      rewrite Hk, Hb. cbn [negb andb].
      rewrite (proj2 (String.eqb_neq _ _) Ht).
      rewrite (proj2 (String.eqb_neq _ _) (trim_empty_claim _ Ht)). done.
  - rewrite length_map. apply List.filter_length_le.
Qed.

(** X8: Every edge a pass writes joins the resolved ends of an extracted
    relationship: a created edge carries the resolved ids and the
    extracted tags, and is created only when no loaded edge joins those
    ids; an updated edge is a loaded edge, with its identity and its ends
    unchanged. *)
Theorem handler_writes_resolved_pairs (existing : list Stored.relationship)
    (roster : list Entity.t) (reflection : Extracted.reflection)
    (message : Memory.t) (call : Reflection.DbCall) :
  call ∈ Reflection.handler existing roster (Some reflection) message →
  match call with
  | Reflection.createRelationship sourceId targetId tags _ =>
      ∃ rel, rel ∈ Extracted.relationships reflection
             ∧ Resolver.resolveEntity (Extracted.sourceEntityId rel) roster
               = Return sourceId
             ∧ Resolver.resolveEntity (Extracted.targetEntityId rel) roster
               = Return targetId
             ∧ tags = Extracted.tags rel
             ∧ none_such (edge_of sourceId targetId) existing
  | Reflection.updateRelationship e =>
      ∃ rel e0, rel ∈ Extracted.relationships reflection ∧ e0 ∈ existing
                ∧ Resolver.resolveEntity (Extracted.sourceEntityId rel) roster
                  = Return (Stored.sourceEntityId e)
                ∧ Resolver.resolveEntity (Extracted.targetEntityId rel) roster
                  = Return (Stored.targetEntityId e)
                ∧ Stored.id e = Stored.id e0
                ∧ Stored.sourceEntityId e = Stored.sourceEntityId e0
                ∧ Stored.targetEntityId e = Stored.targetEntityId e0
  | _ => True
  end.
Proof.
  unfold Reflection.handler. rewrite !elem_of_app. intros [Hin | [Hin | Hin]].
  - apply list_elem_of_In, in_map_iff in Hin as (fact & <- & _). done.
  - apply list_elem_of_In, in_flat_map in Hin as (rel & Hrel & Hin).
    apply list_elem_of_In in Hrel.
    unfold Reflection.mergeRelationship in Hin.
    destruct (Resolver.resolveEntity (Extracted.sourceEntityId rel) roster)
      as [s|] eqn:Hs; [|done].
    destruct (Resolver.resolveEntity (Extracted.targetEntityId rel) roster)
      as [t|] eqn:Ht; [|done].
    cbn [bindC] in Hin.
    destruct (List.find (Reflection.same_pair s t) existing) as [e0|] eqn:Hfind.
    + destruct Hin as [<- | []].
      apply find_elem in Hfind as [He0 [<- <-]%same_pair_spec].
      exists rel, e0. by split_and!.
    + destruct Hin as [<- | []].
      exists rel. split_and!; try done.
      by apply (find_none_such _ _ _ (same_pair_spec s t)).
  - apply list_elem_of_singleton in Hin as ->. done.
Qed.

Lemma handler_writes_resolved_pairs_witness :
  ∃ rel, rel ∈ [Sample.observed ["x"] None]
         ∧ Resolver.resolveEntity (Extracted.sourceEntityId rel) []
           = Return Sample.alice
         ∧ Resolver.resolveEntity (Extracted.targetEntityId rel) []
           = Return Sample.bob
         ∧ ["x"] = Extracted.tags rel
         ∧ none_such (edge_of Sample.alice Sample.bob) [].
Proof.
  apply (handler_writes_resolved_pairs [] []
           {| Extracted.facts := [];
              Extracted.relationships := [Sample.observed ["x"] None] |}
           (Sample.said "m1" "hi bob")
           (Reflection.createRelationship Sample.alice Sample.bob ["x"] 1)).
  vm_compute. left.
Defined.

(** ** Checkpoint and [validate] together *)

(** X9: Once a pass triggered by a message has succeeded, [validate] counts
    the messages that follow that message in the window, and these only:
    with the trigger as the last message of the window it answers false. *)
Theorem validate_after_pass (roster : list Entity.t) (db : Db.t)
    (message : Memory.t) (reflection : Extracted.reflection)
    (pre post : list Memory.t) (conversationLength : Z) :
  Memory.id message ≠ "" →
  Forall (λ m, Memory.id m ≠ Memory.id message) pre →
  let checkpoint :=
    Db.cache (Db.reflectionPass roster db message (Some reflection))
      !! Reflection.checkpoint_key (Memory.roomId message) in
  Reflection.validate checkpoint (pre ++ message :: post) conversationLength
  = (Z.of_nat (List.length post)
     >? Reflection.Math_ceil_div conversationLength 4)%Z
  ∧ (post = [] → (-4 < conversationLength)%Z →
     Reflection.validate checkpoint (pre ++ message :: post) conversationLength
     = false).
Proof.
  intros Hid Hpre checkpoint.
  assert (Hcp : checkpoint = Some (Memory.id message)).
  { subst checkpoint.
    destruct (reflectionPass_cache_facts roster db message reflection) as [-> _].
    apply lookup_insert_eq. }
  assert (Hv : Reflection.validate checkpoint (pre ++ message :: post)
                 conversationLength
               = (Z.of_nat (List.length post)
                  >? Reflection.Math_ceil_div conversationLength 4)%Z).
  { apply validate_remaining.
    by apply (remaining_after _ _ (Memory.id message) pre message post). }
  split; [done|]. intros -> Hn. rewrite Hv.
  unfold Reflection.Math_ceil_div. cbn [List.length Z.of_nat].
  assert (((- conversationLength) / 4) ≤ 0)%Z.
  { pose proof (Z.div_mod (- conversationLength) 4 ltac:(lia)).
    pose proof (Z.mod_pos_bound (- conversationLength) 4 ltac:(lia)). lia. }
  rewrite Z.gtb_ltb. apply Z.ltb_ge. lia.
Qed.

Lemma validate_after_pass_witness :
  Reflection.validate
    (Db.cache
       (Db.reflectionPass [] Db.empty (Sample.said "m2" "and you?")
          (Some {| Extracted.facts := []; Extracted.relationships := [] |}))
       !! Reflection.checkpoint_key "general")
    ([Sample.said "m1" "hello"] ++ Sample.said "m2" "and you?" :: [])
    8
  = false.
Proof.
  refine (proj2 (validate_after_pass [] Db.empty (Sample.said "m2" "and you?")
                   {| Extracted.facts := []; Extracted.relationships := [] |}
                   [Sample.said "m1" "hello"] [] 8 _ _) eq_refl _).
  - discriminate.
  - repeat constructor. discriminate.
  - lia.
Defined.

Lemma remaining_length (checkpoint : option string) (messages rest : list Memory.t) :
  remaining checkpoint messages rest →
  (List.length rest ≤ List.length messages)%nat.
Proof.
  destruct 1 as [c pre m post _ _ -> _ _ | |]; [|done|done].
  rewrite length_app. cbn [List.length]. lia.
Qed.

(** X10: Whatever the checkpoint, [validate] answers true only for a window of
    more messages than the ceiling of a quarter of the conversation
    length: the cut only shortens the window. *)
Theorem validate_needs_long_window (checkpoint : option string)
    (messages : list Memory.t) (conversationLength : Z) :
  Reflection.validate checkpoint messages conversationLength = true →
  ∃ interval,
    ceiling_of_quarter conversationLength interval
    ∧ (interval < Z.of_nat (List.length messages))%Z.
Proof.
  destruct (remaining_total checkpoint messages) as [rest Hrest].
  rewrite (validate_remaining _ _ _ _ Hrest). intros H.
  exists (Reflection.Math_ceil_div conversationLength 4). split.
  - by apply Math_ceil_div_4.
  - apply remaining_length in Hrest. apply Z.gtb_lt in H. lia.
Qed.

Lemma validate_needs_long_window_witness :
  ∃ interval,
    ceiling_of_quarter 8 interval
    ∧ (interval
       < Z.of_nat (List.length [Sample.said "m1" "a"; Sample.said "m2" "b";
                                Sample.said "m3" "c"]))%Z.
Proof.
  apply (validate_needs_long_window None). reflexivity.
Defined.

(** ** The should-respond decision: an agent without a name *)

(** X11: The empty name occurs in every text: an agent whose name is empty
    answers every message that is not its own, muted or not, and never
    asks the model. *)
Theorem checkShouldRespond_empty_name (rt : Orchestrator.Runtime)
    (msg : Memory.t) (st : Orchestrator.UserState) (resp : string) :
  Orchestrator.character_name rt = "" →
  Memory.userId msg ≠ Orchestrator.agentId rt →
  Orchestrator.checkShouldRespond rt msg st resp = true.
Proof.
  intros Hname Hother. apply mentioned; [done|].
  unfold mention. rewrite Hname. apply occurs_ignoring_case_empty.
Qed.

Lemma checkShouldRespond_empty_name_witness :
  Orchestrator.checkShouldRespond
    {| Orchestrator.agentId := "agent-1"; Orchestrator.character_name := "" |}
    (Sample.said "m1" "nobody asked") Orchestrator.MUTED "IGNORE"
  = true.
Proof.
  apply checkShouldRespond_empty_name; [reflexivity | discriminate].
Defined.

(** ** The orchestrator: what is called, and when *)

Lemma calls_at_persisted (sr : option bool) (p : Orchestrator.pc) :
  ∃ rest,
    Trace.calls_at sr p
    = Orchestrator.addEmbeddingToMemory :: Orchestrator.createMemory :: rest.
Proof.
  induction p as [| | | | | | | | |e p [rest IH]];
    try (destruct sr as [[]|]; eexists; reflexivity).
  exists (rest ++ [Orchestrator.rejected e]). cbn [Trace.calls_at]. by rewrite IH.
Qed.

(** X12: Whatever the order in which messages arrive and promises settle, the
    first two calls of a handler are the two persistence calls: nothing
    is decided, generated or evaluated before the inbound message has
    been handed to the store. *)
Theorem persistence_precedes_everything (schedule : list Orchestrator.Action)
    (tid : nat) (h : Orchestrator.Handler) :
  let w := Orchestrator.run schedule Orchestrator.init in
  Orchestrator.handlers w !! tid = Some h →
  ∃ rest,
    Orchestrator.calls_of tid (Orchestrator.log w)
    = Orchestrator.addEmbeddingToMemory :: Orchestrator.createMemory :: rest.
Proof.
  intros w Hlook.
  pose proof (consistent_run schedule _ consistent_init) as Hw. fold w in Hw.
  destruct (proj1 Hw tid h Hlook) as (_ & -> & _).
  apply calls_at_persisted.
Qed.

Lemma persistence_precedes_everything_witness :
  ∃ rest,
    Orchestrator.calls_of 0
      (Orchestrator.log (Orchestrator.run Sample.superseded Orchestrator.init))
    = Orchestrator.addEmbeddingToMemory :: Orchestrator.createMemory :: rest.
Proof.
  eapply (persistence_precedes_everything Sample.superseded 0). reflexivity.
Defined.

Lemma calls_at_guarded (sr : option bool) (p : Orchestrator.pc) :
  Trace.coherent sr p →
  (model_calls (Trace.calls_at sr p) ≠ [] → sr = Some true)
  ∧ (dispatches (Trace.calls_at sr p) ≠ [] → model_calls (Trace.calls_at sr p) ≠ [])
  ∧ (List.length (dispatches (Trace.calls_at sr p)) ≤ 1)%nat
  ∧ (List.length (model_calls (Trace.calls_at sr p)) ≤ 1)%nat.
Proof.
  unfold model_calls, dispatches.
  induction p as [| | | | | | | | |e p IH]; intros Hco; cbn in Hco;
    try (destruct sr as [[]|]; try (by destruct Hco); try discriminate;
         cbn; split_and!; (done || lia)).
  destruct (IH Hco) as (H1 & H2 & H3 & H4).
  cbn [Trace.calls_at]. rewrite !List.filter_app. cbn [List.filter].
  by rewrite !app_nil_r.
Qed.

(** X13: Whatever the order in which messages arrive and promises settle, a
    handler calls the large model at most once, and only when its
    should-respond decision was true; it dispatches at most once, and
    only after it has called the model. *)
Theorem model_and_dispatch_guarded (schedule : list Orchestrator.Action)
    (tid : nat) (h : Orchestrator.Handler) :
  let w := Orchestrator.run schedule Orchestrator.init in
  let calls := Orchestrator.calls_of tid (Orchestrator.log w) in
  Orchestrator.handlers w !! tid = Some h →
  (model_calls calls ≠ [] → Orchestrator.shouldRespond h = Some true)
  ∧ (dispatches calls ≠ [] → model_calls calls ≠ [])
  ∧ (List.length (dispatches calls) ≤ 1)%nat
  ∧ (List.length (model_calls calls) ≤ 1)%nat.
Proof.
  intros w calls Hlook. subst calls.
  pose proof (consistent_run schedule _ consistent_init) as Hw. fold w in Hw.
  destruct (proj1 Hw tid h Hlook) as (_ & -> & Hco).
  by apply calls_at_guarded.
Qed.

Lemma model_and_dispatch_guarded_witness :
  (List.length
     (dispatches
        (Orchestrator.calls_of 2
           (Orchestrator.log
              (Orchestrator.run Sample.four_messages Orchestrator.init))))
   ≤ 1)%nat.
Proof.
  refine (proj1 (proj2 (proj2
    (model_and_dispatch_guarded Sample.four_messages 2 _ _)))).
  reflexivity.
Defined.

(** ** The orchestrator: the token table *)

Section TokenTable.

Import Orchestrator.

(** What a step of a handler can be: nothing, or a move of the handler,
    its identity, agent, message and map object kept, with or without
    the cleanup. *)
Lemma resumed_shape w h r :
  resumed w h r = w
  ∨ ∃ w0 h' cs,
      resumed w h r = continue w0 h' cs
      ∧ (w0 = w ∨ (w0 = cleanup w h ∧ at_ h = AwaitComposeState2))
      ∧ runtime h' = runtime h ∧ message h' = message h
      ∧ responseId h' = responseId h
      ∧ agentResponses h' = agentResponses h.
Proof.
  unfold resumed.
  destruct (at_ h) eqn:Hat; destruct r; auto;
    repeat
      match goal with
      | |- context [match shouldRespond h with _ => _ end] =>
          destruct (shouldRespond h) as [[]|]
      | |- context [decide ?P] => destruct (decide P)
      | |- context [if ?b then _ else _] => destruct b
      end;
    right; do 3 eexists; (split; [reflexivity|]); split_and!; auto.
Qed.

Lemma wf_init : Tokens.wf init.
Proof.
  split_and!.
  - intros a m H. cbn in H. by rewrite lookup_empty in H.
  - intros tid h H. cbn in H. by rewrite lookup_nil in H.
  - intros tid h tid' h' H. cbn in H. by rewrite lookup_nil in H.
Qed.

Lemma wf_cleanup w h :
  Tokens.wf w → Tokens.wf (cleanup w h).
Proof.
  intros (Hids & Hhs & Hone). unfold cleanup.
  split_and!; cbn [latestResponseIds maps handlers].
  - intros a m Hlook. rewrite length_alter.
    apply Hids.
    destruct (alter _ _ (maps w) !! agentResponses h) as [rooms|]; [|done].
    destruct (size rooms =? 0)%nat; [|done].
    by apply lookup_delete_Some in Hlook as [_ Hlook].
  - intros tid h' Hlook. rewrite length_alter. by apply Hhs.
  - done.
Qed.

Lemma wf_continue w h h' cs :
  Tokens.wf w → handlers w !! responseId h = Some h →
  runtime h' = runtime h → responseId h' = responseId h →
  agentResponses h' = agentResponses h →
  Tokens.wf (continue w h' cs).
Proof.
  intros (Hids & Hhs & Hone) Hlook Hrt Hid Hmap.
  pose proof (lookup_lt_Some _ _ _ Hlook) as Hlt.
  assert (Hsame : ∀ tid h1,
            <[responseId h := h']> (handlers w) !! tid = Some h1 →
            ∃ h2, handlers w !! tid = Some h2
                  ∧ runtime h1 = runtime h2 ∧ responseId h1 = responseId h2
                  ∧ agentResponses h1 = agentResponses h2).
  { intros tid h1 H1. destruct (decide (tid = responseId h)) as [->|Hne].
    - rewrite list_lookup_insert_eq in H1 by done. injection H1 as <-. eauto.
    - rewrite list_lookup_insert_ne in H1 by done. eauto. }
  assert (Hback : ∀ tid h2,
            handlers w !! tid = Some h2 →
            ∃ h1, <[responseId h := h']> (handlers w) !! tid = Some h1
                  ∧ runtime h1 = runtime h2
                  ∧ agentResponses h1 = agentResponses h2).
  { intros tid h2 H2. destruct (decide (tid = responseId h)) as [->|Hne].
    - exists h'. rewrite list_lookup_insert_eq by done.
      assert (h2 = h) as -> by congruence. done.
    - exists h2. by rewrite list_lookup_insert_ne. }
  unfold continue. rewrite Hid.
  split_and!; cbn [latestResponseIds maps handlers].
  - intros a m Ha. destruct (Hids a m Ha) as (Hm & tid & h2 & H2 & Hm2 & Ha2).
    split; [done|]. destruct (Hback tid h2 H2) as (h1 & H1 & Hrt1 & Hmap1).
    exists tid, h1. unfold Tokens.agent_of in *. split_and!; congruence.
  - intros tid h1 H1. destruct (Hsame tid h1 H1) as (h2 & H2 & _ & Hid2 & Hmap2).
    destruct (Hhs tid h2 H2). split; congruence.
  - intros tid h1 tid' h1' H1 H1' Heq.
    destruct (Hsame tid h1 H1) as (h2 & H2 & Hrt2 & _ & Hmap2).
    destruct (Hsame tid' h1' H1') as (h2' & H2' & Hrt2' & _ & Hmap2').
    unfold Tokens.agent_of in *. rewrite Hrt2, Hrt2'.
    apply (Hone tid h2 tid' h2'); congruence.
Qed.

Lemma wf_resumed w tid h r :
  Tokens.wf w → handlers w !! tid = Some h → Tokens.wf (resumed w h r).
Proof.
  intros Hw Hlook.
  destruct (proj1 (proj2 Hw) tid h Hlook) as [<- _].
  destruct (resumed_shape w h r)
    as [-> | (w0 & h' & cs & -> & [-> | [-> _]] & Hrt & _ & Hid & Hmap)];
    [done | by eapply wf_continue |].
  eapply wf_continue; [by apply wf_cleanup | done | done | done | done].
Qed.

Lemma wf_arrive rt msg w : Tokens.wf w → Tokens.wf (arrive rt msg w).
Proof.
  intros (Hids & Hhs & Hone). unfold arrive.
  destruct (latestResponseIds w !! agentId rt) as [m|] eqn:Ha.
  - destruct (Hids _ _ Ha) as (Hm & tid0 & h0 & H0 & Hm0 & Ha0).
    split_and!; cbn [latestResponseIds maps handlers]; rewrite ?length_alter.
    + intros a m' Hlook. destruct (Hids a m' Hlook) as (? & tid & h & ? & ? & ?).
      split; [done|]. exists tid, h. split_and!; try done.
      by apply lookup_app_l_Some.
    + intros tid h Hlook.
      apply lookup_app_Some in Hlook as [Hlook | [Hlen Hlook]]; [by apply Hhs|].
      apply list_lookup_singleton_Some in Hlook as [Hz <-]. cbn. split; [lia|done].
    + intros tid h tid' h' Hlook Hlook' Heq.
      apply lookup_app_Some in Hlook as [Hlook | [Hlen Hlook]];
        apply lookup_app_Some in Hlook' as [Hlook' | [Hlen' Hlook']];
        try (apply list_lookup_singleton_Some in Hlook as [_ <-]);
        try (apply list_lookup_singleton_Some in Hlook' as [_ <-]);
        cbn in *; unfold Tokens.agent_of in *; cbn.
      * by eapply Hone.
      * rewrite <- Ha0. apply (Hone tid h tid0 h0); congruence.
      * rewrite <- Ha0. apply (Hone tid0 h0 tid' h'); congruence.
      * done.
  - split_and!; cbn [latestResponseIds maps handlers];
      rewrite ?length_alter, ?length_app; cbn [length].
    + intros a m' Hlook.
      apply lookup_insert_Some in Hlook as [[<- <-] | [Hne Hlook]].
      * split; [lia|]. exists (length (handlers w)). eexists.
        split_and!; [by apply list_lookup_middle | done | done].
      * destruct (Hids a m' Hlook) as (? & tid & h & ? & ? & ?).
        split; [lia|]. exists tid, h. split_and!; try done.
        by apply lookup_app_l_Some.
    + intros tid h Hlook.
      apply lookup_app_Some in Hlook as [Hlook | [Hlen Hlook]].
      * destruct (Hhs _ _ Hlook). split; [done | lia].
      * apply list_lookup_singleton_Some in Hlook as [Hz <-]. cbn.
        split; lia.
    + intros tid h tid' h' Hlook Hlook' Heq.
      apply lookup_app_Some in Hlook as [Hlook | [Hlen Hlook]];
        apply lookup_app_Some in Hlook' as [Hlook' | [Hlen' Hlook']];
        try (apply list_lookup_singleton_Some in Hlook as [_ <-]);
        try (apply list_lookup_singleton_Some in Hlook' as [_ <-]);
        cbn in *.
      * by eapply Hone.
      * destruct (Hhs _ _ Hlook). lia.
      * destruct (Hhs _ _ Hlook'). lia.
      * done.
Qed.

Lemma wf_step w a : Tokens.wf w → Tokens.wf (step w a).
Proof.
  intros Hw. destruct a as [rt msg | tid r]; simpl.
  - by apply wf_arrive.
  - destruct (handlers w !! tid) as [h|] eqn:Hlook; [|done].
    by eapply wf_resumed.
Qed.

Lemma wf_run schedule w : Tokens.wf w → Tokens.wf (run schedule w).
Proof.
  revert w. induction schedule as [|a schedule IH]; intros w Hw; [done|].
  apply IH. by apply wf_step.
Qed.

End TokenTable.

Section TokenFrames.

Import Orchestrator.

Lemma liveToken_continue w h cs agent room :
  liveToken (continue w h cs) agent room = liveToken w agent room.
Proof. done. Qed.

(** Two agents are never registered with one map object. *)
Lemma registered_maps_differ w a b m m' :
  Tokens.wf w → a ≠ b →
  latestResponseIds w !! a = Some m → latestResponseIds w !! b = Some m' →
  m ≠ m'.
Proof.
  intros (Hids & _ & Hone) Hne Ha Hb ->.
  destruct (Hids _ _ Ha) as (_ & tid & h & Hh & Hm & Hag).
  destruct (Hids _ _ Hb) as (_ & tid' & h' & Hh' & Hm' & Hag').
  apply Hne. rewrite <- Hag, <- Hag'. apply (Hone tid h tid' h'); congruence.
Qed.

Lemma liveToken_arrive rt msg w agent room :
  Tokens.wf w →
  liveToken (arrive rt msg w) agent room
  = if decide (agent = agentId rt ∧ room = Memory.roomId msg)
    then Some (length (handlers w))
    else liveToken w agent room.
Proof.
  intros Hw. pose proof Hw as (Hids & _ & _). unfold arrive, liveToken.
  destruct (latestResponseIds w !! agentId rt) as [m|] eqn:Ha;
    cbn [latestResponseIds maps].
  - destruct (Hids _ _ Ha) as (Hm & _).
    destruct (lookup_lt_is_Some_2 _ _ Hm) as [rooms Hrooms].
    destruct (decide (agent = agentId rt)) as [->|Hne].
    + rewrite Ha, list_lookup_alter_eq, Hrooms. cbn.
      destruct (decide (room = Memory.roomId msg)) as [->|Hr].
      * rewrite decide_True by done. apply lookup_insert_eq.
      * rewrite decide_False by tauto. by apply lookup_insert_ne.
    + rewrite decide_False by tauto.
      destruct (latestResponseIds w !! agent) as [m'|] eqn:Hb; [|done].
      rewrite list_lookup_alter_ne; [done|].
      by apply (registered_maps_differ w (agentId rt) agent).
  - destruct (decide (agent = agentId rt)) as [->|Hne].
    + rewrite lookup_insert_eq, list_lookup_alter_eq.
      rewrite lookup_app_r, Nat.sub_diag by done. cbn. rewrite Ha.
      destruct (decide (room = Memory.roomId msg)) as [->|Hr].
      * rewrite decide_True by done. apply lookup_insert_eq.
      * rewrite decide_False by tauto. rewrite lookup_insert_ne by done.
        apply lookup_empty.
    + rewrite decide_False by tauto. rewrite lookup_insert_ne by done.
      destruct (latestResponseIds w !! agent) as [m'|] eqn:Hb; [|done].
      destruct (Hids _ _ Hb) as (Hm' & _).
      rewrite list_lookup_alter_ne by lia. by rewrite lookup_app_l.
Qed.

Lemma liveToken_cleanup_other w tid h agent room :
  Tokens.wf w → handlers w !! tid = Some h → Tokens.agent_of h ≠ agent →
  liveToken (cleanup w h) agent room = liveToken w agent room.
Proof.
  intros Hw Hlook Hne. pose proof Hw as (Hids & _ & Hone).
  unfold cleanup, liveToken. cbn [latestResponseIds maps].
  assert (Hids' :
    match alter (delete (Memory.roomId (message h))) (agentResponses h) (maps w)
          !! agentResponses h with
    | Some m =>
        if (size m =? 0)%nat
        then delete (agentId (runtime h)) (latestResponseIds w)
        else latestResponseIds w
    | None => latestResponseIds w
    end !! agent = latestResponseIds w !! agent).
  { destruct (alter _ _ (maps w) !! agentResponses h) as [rooms|]; [|done].
    destruct (size rooms =? 0)%nat; [|done]. by apply lookup_delete_ne. }
  rewrite Hids'.
  destruct (latestResponseIds w !! agent) as [m|] eqn:Ha; [|done].
  rewrite list_lookup_alter_ne; [done|].
  intros Hm. destruct (Hids _ _ Ha) as (_ & tid' & h' & Hh' & Hm' & Hag').
  apply Hne. rewrite <- Hag'. apply (Hone tid h tid' h'); congruence.
Qed.

End TokenFrames.

(** X14: The arrival of a message registers its token for its agent and room,
    whatever was registered before, and changes the token of no other
    agent or room. *)
Theorem arrival_registers_token (schedule : list Orchestrator.Action)
    (rt : Orchestrator.Runtime) (msg : Memory.t) (agent room : string) :
  let w := Orchestrator.run schedule Orchestrator.init in
  let w' := Orchestrator.arrive rt msg w in
  Orchestrator.liveToken w' (Orchestrator.agentId rt) (Memory.roomId msg)
  = Some (List.length (Orchestrator.handlers w))
  ∧ (¬ (agent = Orchestrator.agentId rt ∧ room = Memory.roomId msg) →
     Orchestrator.liveToken w' agent room = Orchestrator.liveToken w agent room).
Proof.
  intros w w'. subst w'.
  assert (Hw : Tokens.wf w) by apply wf_run, wf_init.
  rewrite !liveToken_arrive by done. split.
  - by rewrite decide_True.
  - intros Hne. by rewrite decide_False.
Qed.

Lemma arrival_registers_token_witness :
  Orchestrator.liveToken
    (Orchestrator.arrive Sample.agent (Sample.said "m2" "hello again")
       (Orchestrator.run Sample.two_messages Orchestrator.init))
    "agent-1" "lobby"
  = Orchestrator.liveToken
      (Orchestrator.run Sample.two_messages Orchestrator.init) "agent-1" "lobby".
Proof.
  apply (proj2 (arrival_registers_token Sample.two_messages Sample.agent
                  (Sample.said "m2" "hello again") "agent-1" "lobby")).
  intros [_ H]. discriminate.
Defined.

(** X15: Agents do not interfere: whatever a handler of one agent does, and
    whatever message arrives for it, the token registered for any room of
    another agent stays as it is. *)
Theorem agents_do_not_interfere (schedule : list Orchestrator.Action)
    (action : Orchestrator.Action) (agent room : string) :
  let w := Orchestrator.run schedule Orchestrator.init in
  Tokens.acting_agent w action ≠ Some agent →
  Orchestrator.liveToken (Orchestrator.step w action) agent room
  = Orchestrator.liveToken w agent room.
Proof.
  intros w Hact.
  assert (Hw : Tokens.wf w) by apply wf_run, wf_init.
  destruct action as [rt msg | tid r]; cbn [Orchestrator.step].
  - rewrite liveToken_arrive by done. rewrite decide_False; [done|].
    intros [-> _]. by apply Hact.
  - cbn [Tokens.acting_agent] in Hact.
    destruct (Orchestrator.handlers w !! tid) as [h|] eqn:Hlook; [|done].
    cbn in Hact.
    destruct (resumed_shape w h r)
      as [-> | (w0 & h' & cs & -> & [-> | [-> _]] & _)]; [done | done |].
    rewrite liveToken_continue.
    apply (liveToken_cleanup_other w tid h); [done | done |].
    intros H. apply Hact. by rewrite H.
Qed.

Lemma agents_do_not_interfere_witness :
  Orchestrator.liveToken
    (Orchestrator.step (Orchestrator.run Sample.two_messages Orchestrator.init)
       (Orchestrator.Resume 0 Orchestrator.Fulfilled))
    "agent-2" "general"
  = Orchestrator.liveToken
      (Orchestrator.run Sample.two_messages Orchestrator.init)
      "agent-2" "general".
Proof.
  apply (agents_do_not_interfere Sample.two_messages
           (Orchestrator.Resume 0 Orchestrator.Fulfilled) "agent-2" "general").
  vm_compute. discriminate.
Defined.

(** ** The orchestrator: one message handled with nothing in between *)

Section Alone.

Import Orchestrator.

Lemma run_resume w tid h r rest :
  handlers w !! tid = Some h →
  run (Resume tid r :: rest) w = run rest (resumed w h r).
Proof. intros H. cbn [run fold_left step]. by rewrite H. Qed.

Lemma continue_holds w h cs tid :
  responseId h = tid → tid < length (handlers w) →
  handlers (continue w h cs) !! tid = Some h.
Proof.
  intros <- H. cbn [continue handlers]. by apply list_lookup_insert_eq.
Qed.

(** The world a message finds on arrival: its handler is the last one,
    and the map object registered for its agent holds its token. *)
Lemma arrive_facts rt msg w :
  Tokens.wf w →
  ∃ m rooms,
    handlers (arrive rt msg w)
    = handlers w
      ++ [ {| runtime := rt; message := msg; responseId := length (handlers w);
              agentResponses := m; shouldRespond := None; at_ := AwaitPersist |} ]
    ∧ latestResponseIds (arrive rt msg w) !! agentId rt = Some m
    ∧ maps (arrive rt msg w) !! m = Some rooms
    ∧ rooms !! Memory.roomId msg = Some (length (handlers w)).
Proof.
  intros (Hids & _ & _). unfold arrive.
  destruct (latestResponseIds w !! agentId rt) as [m|] eqn:Ha;
    cbn [latestResponseIds maps handlers].
  - destruct (Hids _ _ Ha) as (Hm & _).
    destruct (lookup_lt_is_Some_2 _ _ Hm) as [rooms Hrooms].
    exists m, (<[Memory.roomId msg := length (handlers w)]> rooms).
    split_and!; [done | done | | apply lookup_insert_eq].
    by rewrite list_lookup_alter_eq, Hrooms.
  - exists (length (maps w)), (<[Memory.roomId msg := length (handlers w)]> ∅).
    split_and!; [done | apply lookup_insert_eq | | apply lookup_insert_eq].
    by rewrite list_lookup_alter_eq, lookup_app_r, Nat.sub_diag.
Qed.

Lemma liveToken_cleanup_own w h m rooms :
  latestResponseIds w !! agentId (runtime h) = Some m →
  agentResponses h = m → maps w !! m = Some rooms →
  liveToken (cleanup w h) (agentId (runtime h)) (Memory.roomId (message h)) = None.
Proof.
  intros Ha Hm Hrooms. unfold cleanup, liveToken. cbn [latestResponseIds maps].
  rewrite Hm, list_lookup_alter_eq, Hrooms. cbn.
  destruct (size (delete (Memory.roomId (message h)) rooms) =? 0)%nat.
  - by rewrite lookup_delete_eq.
  - rewrite Ha, list_lookup_alter_eq, Hrooms. cbn. apply lookup_delete_eq.
Qed.

(** One step of the handler that arrived last *)
Ltac advance H :=
  match type of H with
  | context [run (Resume ?tid ?r :: ?rest) ?w] =>
      erewrite (run_resume w tid _ r rest) in H;
      [| first
           [ eassumption
           | apply continue_holds; [reflexivity|];
             cbn [length cleanup handlers continue];
             rewrite ?length_insert; cbn [length cleanup handlers continue];
             rewrite ?length_insert; lia ] ];
      unfold resumed at 1 in H; unfold goto, decided in H;
      cbn [at_ shouldRespond runtime message responseId agentResponses] in H
  end.

Lemma alone_end (schedule : list Action) rt msg st resp
    (content : ResponseContent) :
  let w := run schedule init in
  let tid := length (handlers w) in
  let w' := run (Tokens.alone rt msg tid st resp content) w in
  ∃ h,
    handlers w' !! tid = Some h
    ∧ shouldRespond h = Some (checkShouldRespond rt msg st resp)
    ∧ (if checkShouldRespond rt msg st resp
       then if trims content
            then at_ h = Completed
                 ∧ liveToken w' (agentId rt) (Memory.roomId msg) = None
            else at_ h = Threw TypeError AwaitUseModel
                 ∧ liveToken w' (agentId rt) (Memory.roomId msg) = Some tid
       else at_ h = Completed
            ∧ liveToken w' (agentId rt) (Memory.roomId msg) = Some tid).
Proof.
  intros w tid w'.
  assert (Hw : Tokens.wf w) by apply wf_run, wf_init.
  destruct (arrive_facts rt msg w Hw) as (m & rooms & Hhs & Hm & Hrooms & Htok).
  fold tid in Hhs, Htok.
  assert (HW : w' = run (Tokens.alone rt msg tid st resp content) w) by done.
  clearbody w'. unfold Tokens.alone in HW.
  change (run (Arrive rt msg :: ?rest) w) with (run rest (arrive rt msg w)) in HW.
  set (w0 := arrive rt msg w) in *.
  assert (H0 : handlers w0 !! tid
               = Some {| runtime := rt; message := msg; responseId := tid;
                         agentResponses := m; shouldRespond := None;
                         at_ := AwaitPersist |}).
  { rewrite Hhs. by apply list_lookup_middle. }
  assert (Hlen : length (handlers w0) = S tid).
  { rewrite Hhs, length_app. cbn. subst tid. lia. }
  assert (Hlive : liveToken w0 (agentId rt) (Memory.roomId msg) = Some tid).
  { unfold liveToken. by rewrite Hm, Hrooms. }
  clearbody w0 tid.
  advance HW. advance HW.
  assert (Hfin : ∀ W h cs,
            responseId h = tid → S tid = length (handlers W) →
            handlers (continue W h cs) !! tid = Some h).
  { intros W h cs Hid HlenW. apply continue_holds; [done | lia]. }
  destruct (checkShouldRespond rt msg st resp) eqn:Hsr.
  - advance HW. advance HW.
    rewrite decide_True in HW.
    2:{ unfold currentResponseId. cbn. by rewrite Hrooms. }
    destruct (trims content).
    + advance HW. advance HW. advance HW.
      subst w'. cbn [run fold_left]. eexists. split.
      { apply Hfin; [done|]. cbn. by rewrite !length_insert. }
      split_and!; [done | done |].
      rewrite !liveToken_continue.
      match goal with
      | |- liveToken (cleanup ?W ?H) _ _ = _ =>
          by apply (liveToken_cleanup_own W H m rooms)
      end.
    + advance HW. advance HW. advance HW.
      subst w'. cbn [run fold_left]. eexists. split.
      { apply Hfin; [done|]. cbn. by rewrite !length_insert. }
      split_and!; [done | done |].
      by rewrite !liveToken_continue.
  - advance HW. advance HW. advance HW. advance HW. advance HW.
    subst w'. cbn [run fold_left]. eexists. split.
    { apply Hfin; [done|]. cbn. by rewrite !length_insert. }
    split_and!; [done | done |].
    by rewrite !liveToken_continue.
Qed.

End Alone.

Lemma alone_calls (schedule : list Orchestrator.Action) rt msg st resp content h :
  let w := Orchestrator.run schedule Orchestrator.init in
  let tid := List.length (Orchestrator.handlers w) in
  let w' := Orchestrator.run (Tokens.alone rt msg tid st resp content) w in
  Orchestrator.handlers w' !! tid = Some h →
  Orchestrator.calls_of tid (Orchestrator.log w')
  = Trace.calls_at (Orchestrator.shouldRespond h) (Orchestrator.at_ h).
Proof.
  intros w tid w' Hlook.
  assert (Hw' : Trace.consistent w').
  { subst w' w. rewrite <- run_app. apply consistent_run, consistent_init. }
  by destruct (proj1 Hw' tid h Hlook) as (_ & -> & _).
Qed.

(** X16: A message that arrives and is handled to the end with nothing in
    between, for which the agent should respond and the text of the model
    holds an object. When the [text] of the object is a string, or is
    missing, the message is answered: the response is dispatched, the
    evaluators run once, and no token is left registered for the room.
    When the [text] is of another type, trimming it at line 235 throws a
    [TypeError]: nothing is dispatched, the evaluators are not run, and
    the token stays registered. *)
Theorem handled_alone_with_object (schedule : list Orchestrator.Action)
    (rt : Orchestrator.Runtime) (msg : Memory.t)
    (st : Orchestrator.UserState) (resp : string) :
  let w := Orchestrator.run schedule Orchestrator.init in
  let tid := List.length (Orchestrator.handlers w) in
  let answered :=
    Orchestrator.run
      (Tokens.alone rt msg tid st resp Orchestrator.TextOrNone) w in
  let thrown :=
    Orchestrator.run
      (Tokens.alone rt msg tid st resp Orchestrator.TextNotString) w in
  Orchestrator.checkShouldRespond rt msg st resp = true →
  (Orchestrator.position tid answered = Some Orchestrator.Completed
   ∧ Orchestrator.calls_of tid (Orchestrator.log answered)
     = [Orchestrator.addEmbeddingToMemory; Orchestrator.createMemory;
        Orchestrator.checkShouldRespond_; Orchestrator.composeState;
        Orchestrator.useModel; Orchestrator.composeState;
        Orchestrator.processActions; Orchestrator.evaluate true]
   ∧ Orchestrator.dispatched tid answered = true
   ∧ Orchestrator.evaluate_calls tid answered = [true]
   ∧ Orchestrator.liveToken answered (Orchestrator.agentId rt)
       (Memory.roomId msg)
     = None)
  ∧ (Orchestrator.position tid thrown
     = Some (Orchestrator.Threw TypeError Orchestrator.AwaitUseModel)
     ∧ Orchestrator.dispatched tid thrown = false
     ∧ Orchestrator.evaluate_calls tid thrown = []
     ∧ Orchestrator.liveToken thrown (Orchestrator.agentId rt)
         (Memory.roomId msg)
       = Some tid).
Proof.
  intros w tid answered thrown Hsr. split.
  - destruct (alone_end schedule rt msg st resp Orchestrator.TextOrNone)
      as (h & Hlook & Hdec & Hend).
    fold w tid answered in Hlook, Hend. rewrite Hsr in Hend, Hdec.
    destruct Hend as [Hat Hlive].
    pose proof (alone_calls schedule rt msg st resp Orchestrator.TextOrNone
                  h Hlook) as Hcalls.
    fold w tid answered in Hcalls. rewrite Hdec, Hat in Hcalls.
    unfold Orchestrator.position, Orchestrator.dispatched,
      Orchestrator.evaluate_calls.
    rewrite Hlook, Hcalls. cbn. by rewrite Hat.
  - destruct (alone_end schedule rt msg st resp Orchestrator.TextNotString)
      as (h & Hlook & Hdec & Hend).
    fold w tid thrown in Hlook, Hend. rewrite Hsr in Hend, Hdec.
    destruct Hend as [Hat Hlive].
    pose proof (alone_calls schedule rt msg st resp
                  Orchestrator.TextNotString h Hlook) as Hcalls.
    fold w tid thrown in Hcalls. rewrite Hdec, Hat in Hcalls.
    unfold Orchestrator.position, Orchestrator.dispatched,
      Orchestrator.evaluate_calls.
    rewrite Hlook, Hcalls. cbn. by rewrite Hat.
Qed.

Lemma handled_alone_with_object_witness :
  Orchestrator.liveToken
    (Orchestrator.run
       (Tokens.alone Sample.agent (Sample.said "m2" "SarahBot?") 2
          Orchestrator.NONE "" Orchestrator.TextOrNone)
       (Orchestrator.run Sample.two_messages Orchestrator.init))
    "agent-1" "general"
  = None
  ∧ Orchestrator.position 2
      (Orchestrator.run
         (Tokens.alone Sample.agent (Sample.said "m2" "SarahBot?") 2
            Orchestrator.NONE "" Orchestrator.TextNotString)
         (Orchestrator.run Sample.two_messages Orchestrator.init))
    = Some (Orchestrator.Threw TypeError Orchestrator.AwaitUseModel).
Proof.
  pose proof (handled_alone_with_object Sample.two_messages Sample.agent
                (Sample.said "m2" "SarahBot?") Orchestrator.NONE ""
                eq_refl) as [(_ & _ & _ & _ & H1) (H2 & _)].
  exact (conj H1 H2).
Defined.

(** X17: A message handled alone for which the agent should not respond
    completes with five calls and no more: the two persistence calls,
    the should-respond decision, the composition of the state and the
    evaluators, told that there was no response. The large model is not
    called and nothing is dispatched; the token stays registered for the
    room: no path but the dispatch clears the token. *)
Theorem no_response_keeps_token (schedule : list Orchestrator.Action)
    (rt : Orchestrator.Runtime) (msg : Memory.t)
    (st : Orchestrator.UserState) (resp : string)
    (content : Orchestrator.ResponseContent) :
  let w := Orchestrator.run schedule Orchestrator.init in
  let tid := List.length (Orchestrator.handlers w) in
  let w' := Orchestrator.run (Tokens.alone rt msg tid st resp content) w in
  Orchestrator.checkShouldRespond rt msg st resp = false →
  Orchestrator.position tid w' = Some Orchestrator.Completed
  ∧ Orchestrator.calls_of tid (Orchestrator.log w')
    = [Orchestrator.addEmbeddingToMemory; Orchestrator.createMemory;
       Orchestrator.checkShouldRespond_; Orchestrator.composeState;
       Orchestrator.evaluate false]
  ∧ model_calls (Orchestrator.calls_of tid (Orchestrator.log w')) = []
  ∧ Orchestrator.dispatched tid w' = false
  ∧ Orchestrator.evaluate_calls tid w' = [false]
  ∧ Orchestrator.liveToken w' (Orchestrator.agentId rt) (Memory.roomId msg)
    = Some tid.
Proof.
  intros w tid w' Hsr.
  destruct (alone_end schedule rt msg st resp content) as (h & Hlook & Hdec & Hend).
  fold w tid w' in Hlook, Hend. rewrite Hsr in Hend, Hdec.
  destruct Hend as [Hat Hlive].
  pose proof (alone_calls schedule rt msg st resp content h Hlook) as Hcalls.
  fold w tid w' in Hcalls. rewrite Hdec, Hat in Hcalls.
  unfold Orchestrator.position, Orchestrator.dispatched,
    Orchestrator.evaluate_calls.
  rewrite Hlook, Hcalls. cbn. by rewrite Hat.
Qed.

Lemma no_response_keeps_token_witness :
  Orchestrator.liveToken
    (Orchestrator.run
       (Tokens.alone Sample.agent (Sample.said "m0" "good morning all") 0
          Orchestrator.NONE "IGNORE" Orchestrator.TextOrNone)
       (Orchestrator.run [] Orchestrator.init))
    "agent-1" "general"
  = Some 0.
Proof.
  apply (no_response_keeps_token [] Sample.agent
           (Sample.said "m0" "good morning all") Orchestrator.NONE "IGNORE"
           Orchestrator.TextOrNone).
  reflexivity.
Defined.

(** X18: A message handled alone for which the agent should respond, but for
    which the text of the model holds no object, ends in a [TypeError]:
    nothing is dispatched, the evaluators are not run, and the token
    stays registered. *)
Theorem null_content_throws (schedule : list Orchestrator.Action)
    (rt : Orchestrator.Runtime) (msg : Memory.t)
    (st : Orchestrator.UserState) (resp : string) :
  let w := Orchestrator.run schedule Orchestrator.init in
  let tid := List.length (Orchestrator.handlers w) in
  let w' :=
    Orchestrator.run (Tokens.alone rt msg tid st resp Orchestrator.Null) w in
  Orchestrator.checkShouldRespond rt msg st resp = true →
  Orchestrator.position tid w'
  = Some (Orchestrator.Threw TypeError Orchestrator.AwaitUseModel)
  ∧ Orchestrator.dispatched tid w' = false
  ∧ Orchestrator.evaluate_calls tid w' = []
  ∧ Orchestrator.liveToken w' (Orchestrator.agentId rt) (Memory.roomId msg)
    = Some tid.
Proof.
  intros w tid w' Hsr.
  destruct (alone_end schedule rt msg st resp Orchestrator.Null)
    as (h & Hlook & Hdec & Hend).
  fold w tid w' in Hlook, Hend. rewrite Hsr in Hend, Hdec.
  destruct Hend as [Hat Hlive].
  pose proof (alone_calls schedule rt msg st resp Orchestrator.Null h Hlook)
    as Hcalls.
  fold w tid w' in Hcalls. rewrite Hdec, Hat in Hcalls.
  unfold Orchestrator.position, Orchestrator.dispatched,
    Orchestrator.evaluate_calls.
  rewrite Hlook, Hcalls. cbn. by rewrite Hat.
Qed.

Lemma null_content_throws_witness :
  Orchestrator.evaluate_calls 0
    (Orchestrator.run
       (Tokens.alone Sample.agent (Sample.said "m0" "hey SarahBot") 0
          Orchestrator.NONE "" Orchestrator.Null)
       (Orchestrator.run [] Orchestrator.init))
  = [].
Proof.
  apply (null_content_throws [] Sample.agent (Sample.said "m0" "hey SarahBot")
           Orchestrator.NONE "").
  reflexivity.
Defined.

(** ** The batches of the sync loops *)

Section Batches.

Context {A : Type}.
Implicit Types (l : list A) (n fuel i : nat).

Lemma batches_from_concat n l fuel i :
  (0 < n)%nat → (List.length l - i ≤ fuel)%nat →
  concat (List.map snd (Sync.batches_from n l fuel i)) = drop i l.
Proof.
  intros Hn. revert i. induction fuel as [|fuel IH]; intros i Hfuel; simpl.
  - symmetry. apply drop_ge. lia.
  - destruct (Nat.ltb_spec i (List.length l)) as [Hi|Hi]; simpl.
    + rewrite IH by lia. rewrite <- drop_drop. apply take_drop.
    + symmetry. apply drop_ge. lia.
Qed.

Lemma batches_from_shape n l fuel i :
  (0 < n)%nat →
  Forall
    (λ '(j, batch),
       batch = take n (drop j l) ∧ batch ≠ []
       ∧ (List.length batch ≤ n)%nat ∧ (j < List.length l)%nat)
    (Sync.batches_from n l fuel i).
Proof.
  intros Hn. revert i. induction fuel as [|fuel IH]; intros i; simpl.
  - constructor.
  - destruct (Nat.ltb_spec i (List.length l)) as [Hi|Hi]; [|constructor].
    constructor; [|apply IH]. split_and!; [done| |rewrite length_take; lia|done].
    intros H. apply (f_equal List.length) in H.
    rewrite length_take, length_drop in H. simpl in H. lia.
Qed.

Lemma batches_from_length n l fuel i :
  (0 < n)%nat → (List.length l - i ≤ fuel)%nat →
  List.length (Sync.batches_from n l fuel i)
  = ((List.length l - i + n - 1) / n)%nat.
Proof.
  intros Hn. revert i. induction fuel as [|fuel IH]; intros i Hfuel; simpl.
  - replace (List.length l - i + n - 1)%nat with (n - 1)%nat by lia.
    symmetry. apply Nat.div_small. lia.
  - destruct (Nat.ltb_spec i (List.length l)) as [Hi|Hi]; simpl.
    + rewrite IH by lia.
      destruct (Nat.le_gt_cases n (List.length l - i)) as [Hm|Hm].
      * replace (List.length l - i + n - 1)%nat
          with ((List.length l - (i + n) + n - 1) + 1 * n)%nat by lia.
        rewrite Nat.div_add by lia. lia.
      * replace (List.length l - (i + n) + n - 1)%nat with (n - 1)%nat by lia.
        rewrite (Nat.div_small (n - 1)) by lia.
        rewrite <- (Nat.div_unique _ _ 1 (List.length l - i - 1)); lia.
    + replace (List.length l - i + n - 1)%nat with (n - 1)%nat by lia.
      symmetry. apply Nat.div_small. lia.
Qed.

Lemma batches_from_indices n l fuel i :
  List.map fst (Sync.batches_from n l fuel i)
  = List.map (λ k, (i + k * n)%nat)
      (seq 0 (List.length (Sync.batches_from n l fuel i))).
Proof.
  revert i. induction fuel as [|fuel IH]; intros i; simpl; [done|].
  destruct (Nat.ltb_spec i (List.length l)) as [Hi|Hi]; [|done].
  simpl. f_equal; [lia|]. rewrite IH at 1. rewrite <- seq_shift, List.map_map.
  apply List.map_ext. intros k. lia.
Qed.

(** The batches after which the loop goes on are all but the last. *)
Lemma batches_from_not_last n l fuel i :
  (0 < n)%nat → (List.length l - i ≤ fuel)%nat →
  List.length
    (List.filter (λ '(j, _), (j + n <? List.length l)%nat)
       (Sync.batches_from n l fuel i))
  = (List.length (Sync.batches_from n l fuel i) - 1)%nat.
Proof.
  intros Hn. revert i. induction fuel as [|fuel IH]; intros i Hfuel; [done|].
  simpl. destruct (Nat.ltb_spec i (List.length l)) as [Hi|Hi]; [|done].
  simpl. destruct (Nat.ltb_spec (i + n) (List.length l)) as [Hj|Hj]; simpl.
  - rewrite IH by lia. destruct fuel as [|fuel']; [lia|]. simpl.
    destruct (Nat.ltb_spec (i + n) (List.length l)); [simpl; lia | lia].
  - rewrite IH by lia. destruct fuel as [|fuel']; [done|]. simpl.
    destruct (Nat.ltb_spec (i + n) (List.length l)); [lia | done].
Qed.

Lemma batches_concat n l :
  (0 < n)%nat → concat (List.map snd (Sync.batches n l)) = l.
Proof.
  intros Hn. unfold Sync.batches. rewrite batches_from_concat by lia.
  apply drop_0.
Qed.

End Batches.

(** X19: The loop over batches of the sync functions, for a positive
    batch size: the batches, one after the other, are the list, no
    element lost or repeated; the batch at index [i] is the slice from
    [i], not empty and of at most [batchSize] elements; the indices are
    the multiples of [batchSize]; and there are as many batches as
    [length / batchSize] rounded up. *)
Theorem batches_partition {A} (batchSize : nat) (l : list A) :
  (0 < batchSize)%nat →
  concat (List.map snd (Sync.batches batchSize l)) = l
  ∧ Forall
      (λ '(i, batch),
         batch = take batchSize (drop i l) ∧ batch ≠ []
         ∧ (List.length batch ≤ batchSize)%nat)
      (Sync.batches batchSize l)
  ∧ List.map fst (Sync.batches batchSize l)
    = List.map (λ k, (k * batchSize)%nat)
        (seq 0 (List.length (Sync.batches batchSize l)))
  ∧ List.length (Sync.batches batchSize l)
    = ((List.length l + batchSize - 1) / batchSize)%nat.
Proof.
  intros Hn. unfold Sync.batches. split_and!.
  - by apply batches_concat.
  - eapply Forall_impl; [by apply batches_from_shape|].
    intros [i batch] (? & ? & ? & _). done.
  - apply (batches_from_indices batchSize l (List.length l) 0).
  - rewrite batches_from_length by lia. by rewrite Nat.sub_0_r.
Qed.

Lemma batches_partition_witness :
  concat (List.map snd (Sync.batches 3 [1; 2; 3; 4; 5; 6; 7]%nat))
  = [1; 2; 3; 4; 5; 6; 7]%nat.
Proof. apply (batches_partition 3 [1; 2; 3; 4; 5; 6; 7]%nat). lia. Defined.

(** ** Users of a channel: [syncMultipleUsers], [syncSingleUser] *)

Lemma connections_app (e1 e2 : list Sync.Effect) :
  Sync.connections (e1 ++ e2) = Sync.connections e1 ++ Sync.connections e2.
Proof. apply omap_app. Qed.

Lemma delays_app (e1 e2 : list Sync.Effect) :
  Sync.delays (e1 ++ e2) = Sync.delays e1 ++ Sync.delays e2.
Proof. apply omap_app. Qed.

Lemma rooms_ensured_app (e1 e2 : list Sync.Effect) :
  Sync.rooms_ensured (e1 ++ e2) = Sync.rooms_ensured e1 ++ Sync.rooms_ensured e2.
Proof. apply omap_app. Qed.

Lemma warnings_app (e1 e2 : list Sync.Effect) :
  warnings (e1 ++ e2) = warnings e1 ++ warnings e2.
Proof. apply List.filter_app. Qed.

Section ConnectAll.

Variable rejects : Sync.Connection → bool.
Variable connection : Sync.User → Sync.Connection.

Lemma connections_connect_all (batch : list Sync.User) :
  Sync.connections (Sync.connect_all rejects connection batch)
  = List.map connection batch.
Proof.
  unfold Sync.connect_all. rewrite connections_app.
  assert (∀ l : list Sync.User,
            Sync.connections (List.map (λ _, Sync.logger Sync.warn) l) = [])
    as -> by (by induction l).
  rewrite app_nil_r. induction batch as [|u batch IH]; [done|].
  simpl. unfold Sync.connections in *. simpl. by rewrite IH.
Qed.

Lemma delays_connect_all (batch : list Sync.User) :
  Sync.delays (Sync.connect_all rejects connection batch) = [].
Proof.
  unfold Sync.connect_all. rewrite delays_app.
  assert (∀ l : list Sync.User,
            Sync.delays (List.map (λ _, Sync.logger Sync.warn) l) = [])
    as -> by (by induction l).
  rewrite app_nil_r. by induction batch.
Qed.

Lemma warnings_connect_all (batch : list Sync.User) :
  List.length (warnings (Sync.connect_all rejects connection batch))
  = List.length (List.filter rejects (List.map connection batch)).
Proof.
  unfold Sync.connect_all. rewrite warnings_app.
  assert (warnings
            (List.map (λ user, Sync.ensureConnection (connection user)) batch)
          = []) as -> by (by induction batch).
  simpl. induction batch as [|u batch IH]; [done|].
  simpl. destruct (rejects (connection u)); simpl; by rewrite IH.
Qed.

End ConnectAll.

Section MultipleUsers.

Variable createUniqueUuid : string → string.
Variable rejects : Sync.Connection → bool.
Variables (serverId channelId : string) (type : Sync.ChannelType).
Variable source : string.

(** The calls of [syncMultipleUsers], read through any function of the
    connection: one for each user, in the order of the users. *)
Lemma syncMultipleUsers_calls (users : list Sync.User) :
  channelId ≠ "" →
  ∃ connection : Sync.User → Sync.Connection,
    (∀ user,
       Sync.userId (connection user) = Sync.id user
       ∧ Sync.roomId (connection user) = createUniqueUuid channelId
       ∧ Sync.worldId (connection user) = createUniqueUuid serverId
       ∧ Sync.channelId (connection user) = channelId
       ∧ Sync.serverId (connection user) = serverId
       ∧ Sync.type (connection user) = type
       ∧ Sync.source (connection user) = source
       ∧ Sync.userName (connection user)
         = Some (Sync.or_else (Sync.username user) ("User" +:+ Sync.id user))
       ∧ Sync.userScreenName (connection user)
         = Some
             (Sync.or_else (Sync.displayName user)
                (Sync.or_else (Sync.username user) ("User" +:+ Sync.id user))))
    ∧ (∀ rejects',
         Sync.connections
           (Sync.syncMultipleUsers createUniqueUuid rejects' users serverId
              channelId type source)
         = List.map connection users)
    ∧ List.length
        (warnings
           (Sync.syncMultipleUsers createUniqueUuid rejects users serverId
              channelId type source))
      = List.length (List.filter rejects (List.map connection users))
    ∧ Sync.delays
        (Sync.syncMultipleUsers createUniqueUuid rejects users serverId
           channelId type source)
      = [].
Proof.
  intros Hch. eexists. split; [|split_and!].
  2:{ intros rejects'. unfold Sync.syncMultipleUsers.
      destruct (String.eqb_spec channelId ""); [done|].
      rewrite !connections_app. cbn [Sync.connections omap]. simpl.
      rewrite app_nil_r.
      rewrite <- (batches_concat 10 users ltac:(lia)) at 2.
      induction (Sync.batches 10 users) as [|[i batch] bs IH]; [done|].
      cbn [flat_map List.map concat snd]. rewrite connections_app, IH.
      rewrite connections_connect_all, List.map_app. reflexivity. }
  - intros user. cbn. split_and!; reflexivity.
  - unfold Sync.syncMultipleUsers.
    destruct (String.eqb_spec channelId ""); [done|].
    rewrite !warnings_app. cbn [warnings List.filter]. simpl.
    rewrite app_nil_r.
    rewrite <- (batches_concat 10 users ltac:(lia)) at 2.
    induction (Sync.batches 10 users) as [|[i batch] bs IH]; [done|].
    cbn [flat_map List.map concat snd].
    rewrite warnings_app, List.map_app, List.filter_app, !length_app, IH.
    by rewrite warnings_connect_all.
  - unfold Sync.syncMultipleUsers.
    destruct (String.eqb_spec channelId ""); [done|].
    rewrite !delays_app. cbn [Sync.delays omap]. simpl. rewrite app_nil_r.
    induction (Sync.batches 10 users) as [|[i batch] bs IH]; [done|].
    cbn [flat_map]. by rewrite delays_app, IH, delays_connect_all.
Qed.

End MultipleUsers.

Lemma or_else_given (a : option string) (b : string) :
  b ≠ "" → Sync.or_else a b ≠ "".
Proof. by destruct a as [[|c s]|]. Qed.

Lemma or_else_absent (a : option string) (b : string) :
  a = None ∨ a = Some "" → Sync.or_else a b = b.
Proof. by intros [-> | ->]. Qed.

Lemma or_else_present (s b : string) : s ≠ "" → Sync.or_else (Some s) b = s.
Proof. by destruct s. Qed.

Lemma user_label_given (id : string) : "User" +:+ id ≠ "".
Proof. done. Qed.

(** X20: With a channel id, [syncMultipleUsers] calls [ensureConnection]
    once for every user, in the order of the users and whatever the
    number of batches, each time for the room and the world made of the
    channel id and the server id. Which of the calls are rejected changes
    none of them: a rejected call costs one warning and nothing else. *)
Theorem syncMultipleUsers_one_call_per_user
    (createUniqueUuid : string → string) (rejects : Sync.Connection → bool)
    (users : list Sync.User) (serverId channelId : string)
    (type : Sync.ChannelType) (source : string) :
  channelId ≠ "" →
  let effects :=
    Sync.syncMultipleUsers createUniqueUuid rejects users serverId channelId
      type source in
  List.map Sync.userId (Sync.connections effects) = List.map Sync.id users
  ∧ Forall
      (λ c,
         Sync.roomId c = createUniqueUuid channelId
         ∧ Sync.worldId c = createUniqueUuid serverId
         ∧ Sync.channelId c = channelId
         ∧ Sync.serverId c = serverId
         ∧ Sync.type c = type
         ∧ Sync.source c = source)
      (Sync.connections effects)
  ∧ (∀ rejects',
       Sync.connections
         (Sync.syncMultipleUsers createUniqueUuid rejects' users serverId
            channelId type source)
       = Sync.connections effects)
  ∧ List.length (warnings effects)
    = List.length (List.filter rejects (Sync.connections effects)).
Proof.
  intros Hch effects. subst effects.
  destruct (syncMultipleUsers_calls createUniqueUuid rejects serverId
              channelId type source users Hch)
    as (connection & Hc & Hcalls & Hwarn & _).
  rewrite Hwarn, (Hcalls rejects). split_and!.
  - rewrite List.map_map. apply List.map_ext. intros u. apply Hc.
  - apply Forall_forall. intros c Hin. apply list_elem_of_In in Hin.
    apply List.in_map_iff in Hin as (u & <- & _).
    destruct (Hc u) as (_ & ? & ? & ? & ? & ? & ? & _). done.
  - intros rejects'. apply Hcalls.
  - done.
Qed.

Lemma syncMultipleUsers_one_call_per_user_witness :
  List.map Sync.userId
    (Sync.connections
       (Sync.syncMultipleUsers (λ s, "uuid-" +:+ s)
          (λ c, String.eqb (Sync.userId c) "u2")
          (List.map
             (λ n, {| Sync.id := n; Sync.username := None;
                      Sync.displayName := None |})
             ["u1"; "u2"; "u3"; "u4"; "u5"; "u6"; "u7"; "u8"; "u9"; "u10";
              "u11"; "u12"])
          "server" "channel" Sync.GROUP "discord"))
  = ["u1"; "u2"; "u3"; "u4"; "u5"; "u6"; "u7"; "u8"; "u9"; "u10"; "u11"; "u12"].
Proof.
  refine
    (proj1
       (syncMultipleUsers_one_call_per_user (λ s, "uuid-" +:+ s)
          (λ c, String.eqb (Sync.userId c) "u2") _ "server" "channel"
          Sync.GROUP "discord" _)).
  discriminate.
Defined.

(** X21: Neither [syncMultipleUsers] nor [syncSingleUser] ever connects
    a user under an empty or missing name: the user name and the screen
    name of every call are given, [User] followed by the id standing in
    at the last. *)
Theorem sync_names_always_given
    (createUniqueUuid : string → string) (rejects : Sync.Connection → bool)
    (users : list Sync.User) (user : Sync.User) (serverId channelId : string)
    (type : Sync.ChannelType) (source : string) :
  Forall (λ c, given (Sync.userName c) ∧ given (Sync.userScreenName c))
    (Sync.connections
       (Sync.syncMultipleUsers createUniqueUuid rejects users serverId
          channelId type source))
  ∧ Forall (λ c, given (Sync.userName c) ∧ given (Sync.userScreenName c))
      (Sync.connections
         (Sync.syncSingleUser createUniqueUuid rejects user serverId
            channelId type source)).
Proof.
  split.
  - destruct (String.eqb_spec channelId "") as [->|Hch]; [constructor|].
    destruct (syncMultipleUsers_calls createUniqueUuid rejects serverId
                channelId type source users Hch)
      as (connection & Hc & Hcalls & _).
    rewrite (Hcalls rejects). apply Forall_forall. intros c Hin.
    apply list_elem_of_In in Hin.
    apply List.in_map_iff in Hin as (u & <- & _).
    destruct (Hc u) as (_ & _ & _ & _ & _ & _ & _ & -> & ->).
    split; eexists; (split; [reflexivity|]);
      repeat apply or_else_given; apply user_label_given.
  - unfold Sync.syncSingleUser.
    destruct (String.eqb_spec channelId "") as [->|Hch]; [constructor|].
    cbn. constructor; [|constructor].
    split; eexists; (split; [reflexivity|]);
      repeat apply or_else_given; apply user_label_given.
Qed.

(** X22: A user without a user name but with a display name is connected
    under the display name by [syncSingleUser] and under [User] followed
    by the id by [syncMultipleUsers]; the screen name is the display name
    in both. *)
Theorem sync_names_without_username
    (createUniqueUuid : string → string) (rejects : Sync.Connection → bool)
    (user : Sync.User) (shown : string) (serverId channelId : string)
    (type : Sync.ChannelType) (source : string) :
  channelId ≠ "" →
  Sync.username user = None ∨ Sync.username user = Some "" →
  Sync.displayName user = Some shown →
  shown ≠ "" →
  List.map (λ c, (Sync.userName c, Sync.userScreenName c))
    (Sync.connections
       (Sync.syncSingleUser createUniqueUuid rejects user serverId channelId
          type source))
  = [(Some shown, Some shown)]
  ∧ List.map (λ c, (Sync.userName c, Sync.userScreenName c))
      (Sync.connections
         (Sync.syncMultipleUsers createUniqueUuid rejects [user] serverId
            channelId type source))
    = [(Some ("User" +:+ Sync.id user), Some shown)].
Proof.
  intros Hch Hname Hshown Hne. split.
  - unfold Sync.syncSingleUser.
    destruct (String.eqb_spec channelId ""); [done|]. cbn.
    rewrite Hshown, (or_else_absent _ _ Hname), !or_else_present by done.
    done.
  - destruct (syncMultipleUsers_calls createUniqueUuid rejects serverId
                channelId type source [user] Hch)
      as (connection & Hc & Hcalls & _).
    rewrite (Hcalls rejects). cbn.
    destruct (Hc user) as (_ & _ & _ & _ & _ & _ & _ & -> & ->).
    rewrite Hshown, (or_else_absent _ _ Hname), !or_else_present by done.
    done.
Qed.

Lemma sync_names_without_username_witness :
  List.map (λ c, (Sync.userName c, Sync.userScreenName c))
    (Sync.connections
       (Sync.syncSingleUser (λ s, "uuid-" +:+ s) (λ _, false)
          {| Sync.id := "42"; Sync.username := Some "";
             Sync.displayName := Some "Ada" |}
          "server" "channel" Sync.GROUP "discord"))
  = [(Some "Ada", Some "Ada")].
Proof.
  refine
    (proj1
       (sync_names_without_username (λ s, "uuid-" +:+ s) (λ _, false)
          {| Sync.id := "42"; Sync.username := Some "";
             Sync.displayName := Some "Ada" |}
          "Ada" "server" "channel" Sync.GROUP "discord" _ _ _ _)).
  - discriminate.
  - right. reflexivity.
  - reflexivity.
  - discriminate.
Defined.

(** ** The members of a guild: [syncRegularServerUsers] *)

Lemma defaultChannel_general (guild : Sync.Guild) (ch : Sync.Channel) :
  first_such general_channel (List.map snd (Sync.channels_cache guild)) ch →
  Sync.defaultChannel guild = Some ch.
Proof.
  intros H. unfold Sync.defaultChannel.
  eapply find_first_such in H as ->; [done|].
  intros y. unfold general_channel, text_channel, Sync.is_text.
  rewrite andb_true_iff, String.eqb_eq, Z.eqb_eq. done.
Qed.

Lemma defaultChannel_text (guild : Sync.Guild) (ch : Sync.Channel) :
  none_such general_channel (List.map snd (Sync.channels_cache guild)) →
  first_such text_channel (List.map snd (Sync.channels_cache guild)) ch →
  Sync.defaultChannel guild = Some ch.
Proof.
  intros Hno H. unfold Sync.defaultChannel.
  eapply find_none_such in Hno as ->.
  - eapply find_first_such in H as ->; [done|].
    intros y. unfold text_channel, Sync.is_text. by rewrite Z.eqb_eq.
  - intros y. unfold general_channel, text_channel, Sync.is_text.
    rewrite andb_true_iff, String.eqb_eq, Z.eqb_eq. done.
Qed.

Lemma defaultChannel_none (guild : Sync.Guild) :
  Sync.defaultChannel guild = None
  ↔ none_such text_channel (List.map snd (Sync.channels_cache guild)).
Proof.
  unfold Sync.defaultChannel.
  assert (∀ y, Sync.is_text y = true ↔ text_channel y) as Htext.
  { intros y. unfold text_channel, Sync.is_text. by rewrite Z.eqb_eq. }
  rewrite <- (find_none_such _ _ _ Htext).
  destruct (List.find _ _) as [ch|] eqn:Hfind; [|done].
  split; [done|]. intros Hno. apply List.find_some in Hfind as [Hin Hch].
  apply andb_true_iff in Hch as [_ Hch].
  eapply List.find_none in Hno; [|exact Hin]. congruence.
Qed.

(** X23: The channel the members of a guild are connected to is a text
    channel of the guild: the first one named "general" if there is one,
    the first one otherwise; there is none only if the guild has no text
    channel. *)
Theorem defaultChannel_choice (guild : Sync.Guild) :
  let channels := List.map snd (Sync.channels_cache guild) in
  (∀ ch, first_such general_channel channels ch →
         Sync.defaultChannel guild = Some ch)
  ∧ (none_such general_channel channels →
     ∀ ch, first_such text_channel channels ch →
           Sync.defaultChannel guild = Some ch)
  ∧ (Sync.defaultChannel guild = None ↔ none_such text_channel channels)
  ∧ (∀ ch, Sync.defaultChannel guild = Some ch →
           text_channel ch ∧ ch ∈ channels).
Proof.
  intros channels. split_and!.
  - apply defaultChannel_general.
  - intros Hno ch. by apply defaultChannel_text.
  - apply defaultChannel_none.
  - intros ch. unfold Sync.defaultChannel.
    destruct (List.find _ _) as [ch'|] eqn:Hfind.
    + intros [= <-]. apply List.find_some in Hfind as [Hin Hch].
      apply andb_true_iff in Hch as [_ Hch]. split.
      * unfold text_channel. by apply Z.eqb_eq.
      * by apply list_elem_of_In.
    + intros Hfind'. apply List.find_some in Hfind' as [Hin Hch]. split.
      * unfold text_channel. by apply Z.eqb_eq.
      * by apply list_elem_of_In.
Qed.

Section RegularServer.

Variable createUniqueUuid : string → string.
Variable rejects : Sync.Connection → bool.
Variable guild : Sync.Guild.
Variable fetched : completion (list Sync.Member).
Variable source : string.
Variable members : list Sync.Member.
Variable channel : Sync.Channel.

Hypothesis Hmembers : members_synced guild fetched members.
Hypothesis Hchannel : Sync.defaultChannel guild = Some channel.

Lemma syncRegularServerUsers_batches :
  Sync.syncRegularServerUsers createUniqueUuid rejects guild fetched source
  = [Sync.logger Sync.info; Sync.logger Sync.info]
    ++ flat_map
         (λ '(i, batch),
            Sync.syncMultipleUsers createUniqueUuid rejects
              (List.map Sync.user_of_member batch) (Sync.guild_id guild)
              (Sync.channel_id channel) Sync.GROUP source
            ++ (if (i + 100 <? List.length members)%nat
                then [Sync.delay 1000] else []))
         (Sync.batches 100 members)
    ++ [Sync.logger Sync.success].
Proof.
  unfold Sync.syncRegularServerUsers. rewrite Hchannel.
  destruct Hmembers as [[Hne ->] | [-> ->]]; [|done].
  by destruct (Sync.members_cache guild).
Qed.

Lemma syncRegularServerUsers_delays :
  Sync.delays
    (Sync.syncRegularServerUsers createUniqueUuid rejects guild fetched source)
  = replicate ((List.length members - 1) / 100) 1000%nat.
Proof.
  rewrite syncRegularServerUsers_batches, !delays_app.
  change (Sync.delays [Sync.logger Sync.info; Sync.logger Sync.info])
    with (@nil nat).
  change (Sync.delays [Sync.logger Sync.success]) with (@nil nat).
  rewrite app_nil_r, app_nil_l.
  assert (∀ bs : list (nat * list Sync.Member),
            Sync.delays
              (flat_map
                 (λ '(i, batch),
                    Sync.syncMultipleUsers createUniqueUuid rejects
                      (List.map Sync.user_of_member batch)
                      (Sync.guild_id guild) (Sync.channel_id channel)
                      Sync.GROUP source
                    ++ (if (i + 100 <? List.length members)%nat
                        then [Sync.delay 1000] else []))
                 bs)
            = replicate
                (List.length
                   (List.filter
                      (λ '(j, _), (j + 100 <? List.length members)%nat) bs))
                1000%nat) as ->.
  { induction bs as [|[i batch] bs IH]; [done|].
    cbn [flat_map List.filter]. rewrite !delays_app, IH.
    assert (Sync.delays
              (Sync.syncMultipleUsers createUniqueUuid rejects
                 (List.map Sync.user_of_member batch) (Sync.guild_id guild)
                 (Sync.channel_id channel) Sync.GROUP source) = []) as ->.
    { destruct (String.eqb_spec (Sync.channel_id channel) "") as [Hid|Hid].
      - unfold Sync.syncMultipleUsers. by rewrite Hid.
      - by destruct (syncMultipleUsers_calls createUniqueUuid rejects
                       (Sync.guild_id guild) (Sync.channel_id channel)
                       Sync.GROUP source
                       (List.map Sync.user_of_member batch) Hid)
          as (? & _ & _ & _ & ->). }
    by destruct (i + 100 <? List.length members)%nat. }
  f_equal. unfold Sync.batches.
  rewrite batches_from_not_last, batches_from_length by lia.
  rewrite Nat.sub_0_r.
  destruct (List.length members) as [|m]; [done|].
  replace (S m + 100 - 1)%nat with (m + 1 * 100)%nat by lia.
  rewrite Nat.div_add by lia.
  replace (S m - 1)%nat with m by lia. lia.
Qed.

End RegularServer.

(** X24: [syncRegularServerUsers], the guild having a text channel with
    an id: [ensureConnection] is called once for every member of the
    cache (of the fetched members when the cache is empty), in their
    order, as a member of a group, for the room of the default channel
    and the world of the guild, whichever calls are rejected. *)
Theorem syncRegularServerUsers_connects_members
    (createUniqueUuid : string → string) (rejects : Sync.Connection → bool)
    (guild : Sync.Guild) (fetched : completion (list Sync.Member))
    (source : string) (members : list Sync.Member) (channel : Sync.Channel) :
  members_synced guild fetched members →
  Sync.defaultChannel guild = Some channel →
  Sync.channel_id channel ≠ "" →
  let calls :=
    Sync.connections
      (Sync.syncRegularServerUsers createUniqueUuid rejects guild fetched
         source) in
  List.map Sync.userId calls = List.map Sync.member_id members
  ∧ Forall
      (λ c,
         Sync.roomId c = createUniqueUuid (Sync.channel_id channel)
         ∧ Sync.channelId c = Sync.channel_id channel
         ∧ Sync.worldId c = createUniqueUuid (Sync.guild_id guild)
         ∧ Sync.serverId c = Sync.guild_id guild
         ∧ Sync.type c = Sync.GROUP
         ∧ Sync.source c = source)
      calls
  ∧ ∀ rejects',
      Sync.connections
        (Sync.syncRegularServerUsers createUniqueUuid rejects' guild fetched
           source)
      = calls.
Proof.
  intros Hmembers Hchannel Hid calls.
  destruct (syncMultipleUsers_calls createUniqueUuid rejects
              (Sync.guild_id guild) (Sync.channel_id channel) Sync.GROUP source
              [] Hid) as (connection & Hc & _).
  assert (∀ rejects',
            Sync.connections
              (Sync.syncRegularServerUsers createUniqueUuid rejects' guild
                 fetched source)
            = List.map connection (List.map Sync.user_of_member members))
    as Hcalls.
  { intros rejects'.
    rewrite (syncRegularServerUsers_batches _ _ _ _ _ _ _ Hmembers Hchannel).
    rewrite !connections_app.
    change (Sync.connections [Sync.logger Sync.info; Sync.logger Sync.info])
      with (@nil Sync.Connection).
    change (Sync.connections [Sync.logger Sync.success])
      with (@nil Sync.Connection).
    rewrite app_nil_r, app_nil_l.
    rewrite <- (batches_concat 100 members ltac:(lia)) at 2.
    induction (Sync.batches 100 members) as [|[i batch] bs IH]; [done|].
    cbn [flat_map List.map concat snd].
    rewrite !connections_app, IH, !List.map_app. f_equal.
    assert (Sync.connections
              (if (i + 100 <? List.length members)%nat
               then [Sync.delay 1000] else []) = []) as ->
      by (by destruct (i + 100 <? List.length members)%nat).
    rewrite app_nil_r.
    destruct (syncMultipleUsers_calls createUniqueUuid rejects'
                (Sync.guild_id guild) (Sync.channel_id channel) Sync.GROUP
                source (List.map Sync.user_of_member batch) Hid)
      as (connection' & Hc' & Hcalls' & _).
    rewrite (Hcalls' rejects'). apply List.map_ext. intros u.
    destruct (Hc u) as (? & ? & ? & ? & ? & ? & ? & ? & ?).
    destruct (Hc' u) as (? & ? & ? & ? & ? & ? & ? & ? & ?).
    destruct (connection u), (connection' u). simpl in *. congruence. }
  subst calls. rewrite (Hcalls rejects). split_and!.
  - rewrite !List.map_map. apply List.map_ext. intros m.
    by destruct (Hc (Sync.user_of_member m)) as [-> _].
  - apply Forall_forall. intros c Hin. apply list_elem_of_In in Hin.
    apply List.in_map_iff in Hin as (u & <- & _).
    destruct (Hc u) as (_ & ? & ? & ? & ? & ? & ? & _). done.
  - intros rejects'. apply Hcalls.
Qed.

Lemma syncRegularServerUsers_connects_members_witness :
  List.map Sync.userId
    (Sync.connections
       (Sync.syncRegularServerUsers (λ s, "uuid-" +:+ s) (λ _, true)
          {| Sync.guild_id := "guild";
             Sync.members_cache := [];
             Sync.channels_cache :=
               [("c1", {| Sync.channel_id := "c1";
                          Sync.channel_name := "voice";
                          Sync.channel_type := 2 |});
                ("c2", {| Sync.channel_id := "c2";
                          Sync.channel_name := "lobby";
                          Sync.channel_type := 0 |})] |}
          (Return
             [{| Sync.member_id := "m1"; Sync.user_username := Some "ada";
                 Sync.member_displayName := None |};
              {| Sync.member_id := "m2"; Sync.user_username := None;
                 Sync.member_displayName := Some "Bob" |}])
          "discord"))
  = ["m1"; "m2"].
Proof.
  refine
    (proj1
       (syncRegularServerUsers_connects_members (λ s, "uuid-" +:+ s)
          (λ _, true) _ _ "discord"
          [{| Sync.member_id := "m1"; Sync.user_username := Some "ada";
              Sync.member_displayName := None |};
           {| Sync.member_id := "m2"; Sync.user_username := None;
              Sync.member_displayName := Some "Bob" |}]
          {| Sync.channel_id := "c2"; Sync.channel_name := "lobby";
             Sync.channel_type := 0 |} _ _ _)).
  - right. split; reflexivity.
  - reflexivity.
  - discriminate.
Defined.

Lemma batches_from_beyond {A} (n fuel i : nat) (l : list A) :
  (List.length l <= i)%nat → Sync.batches_from n l fuel i = [].
Proof.
  intros Hi. destruct fuel as [|fuel]; [done|]. simpl.
  by destruct (Nat.ltb_spec i (List.length l)); [lia|].
Qed.

(** The loop goes on after every batch but the last. *)
Lemma batches_from_last {A} (n fuel i : nat) (l : list A) :
  (0 < n)%nat → (List.length l - i ≤ fuel)%nat → (i < List.length l)%nat →
  ∃ init j b,
    Sync.batches_from n l fuel i = init ++ [(j, b)]
    ∧ Forall (λ entry, (entry.1 + n <? List.length l)%nat = true) init
    ∧ (j + n <? List.length l)%nat = false.
Proof.
  intros Hn. revert i. induction fuel as [|fuel IH]; intros i Hfuel Hi; [lia|].
  simpl. destruct (Nat.ltb_spec i (List.length l)) as [_|]; [|lia].
  destruct (Nat.ltb_spec (i + n) (List.length l)) as [Hnext|Hnext].
  - destruct (IH (i + n)%nat) as (init & j & b & -> & Hinit & Hlast);
      [lia | done |].
    exists ((i, take n (drop i l)) :: init), j, b. split_and!; [done| |done].
    constructor; [|done]. by apply Nat.ltb_lt.
  - rewrite batches_from_beyond by done.
    exists [], i, (take n (drop i l)). split_and!; [done | constructor |].
    by apply Nat.ltb_ge.
Qed.

Lemma between_pauses_cons (effects : list Sync.Effect) :
  ∃ part parts, between_pauses effects = part :: parts.
Proof.
  induction effects as [|e effects (part & parts & IH)]; [by eexists _, _|].
  destruct e; cbn [between_pauses]; rewrite ?IH; by eexists _, _.
Qed.

(** Effects without a pause stay in one part. *)
Lemma between_pauses_app (quiet rest : list Sync.Effect) :
  Sync.delays quiet = [] →
  between_pauses (quiet ++ rest)
  = (quiet ++ hd [] (between_pauses rest)) :: tl (between_pauses rest).
Proof.
  induction quiet as [|e quiet IH]; intros Hq.
  - cbn [app]. by destruct (between_pauses_cons rest) as (part & parts & ->).
  - destruct e; try discriminate; cbn [app between_pauses];
      rewrite IH by exact Hq; reflexivity.
Qed.

Section Pauses.

Variable createUniqueUuid : string → string.
Variable rejects : Sync.Connection → bool.
Variables (serverId channelId source : string).
Variable members_length : nat.

Hypothesis Hchannel : channelId ≠ "".

Lemma syncMultipleUsers_members (batch : list Sync.Member) :
  List.map Sync.userId
    (Sync.connections
       (Sync.syncMultipleUsers createUniqueUuid rejects
          (List.map Sync.user_of_member batch) serverId channelId Sync.GROUP
          source))
  = List.map Sync.member_id batch
  ∧ Sync.delays
      (Sync.syncMultipleUsers createUniqueUuid rejects
         (List.map Sync.user_of_member batch) serverId channelId Sync.GROUP
         source)
    = [].
Proof.
  destruct (syncMultipleUsers_calls createUniqueUuid rejects serverId
              channelId Sync.GROUP source
              (List.map Sync.user_of_member batch) Hchannel)
    as (connection & Hc & Hcalls & _ & Hdelays).
  split; [|done]. rewrite (Hcalls rejects), !List.map_map.
  apply List.map_ext. intros m. by destruct (Hc (Sync.user_of_member m)) as [-> _].
Qed.

(** The parts between the pauses are the batches, one batch a part. *)
Lemma parts_are_batches (init : list (nat * list Sync.Member)) (j : nat)
    (b : list Sync.Member) (quiet : list Sync.Effect) :
  Sync.delays quiet = [] → Sync.connections quiet = [] →
  Forall (λ entry, (entry.1 + 100 <? members_length)%nat = true) init →
  (j + 100 <? members_length)%nat = false →
  List.map (λ part, List.map Sync.userId (Sync.connections part))
    (between_pauses
       (quiet
        ++ flat_map
             (λ '(i, batch),
                Sync.syncMultipleUsers createUniqueUuid rejects
                  (List.map Sync.user_of_member batch) serverId channelId
                  Sync.GROUP source
                ++ (if (i + 100 <? members_length)%nat
                    then [Sync.delay 1000] else []))
             (init ++ [(j, b)])
        ++ [Sync.logger Sync.success]))
  = List.map (λ entry, List.map Sync.member_id entry.2) (init ++ [(j, b)]).
Proof.
  intros Hq Hc Hinit Hlast. revert quiet Hq Hc.
  induction Hinit as [|[i batch] init Hi _ IH]; intros quiet Hq Hc.
  - cbn [app flat_map]. rewrite Hlast, !app_nil_r.
    destruct (syncMultipleUsers_members b) as [Hids Hd].
    rewrite app_assoc, between_pauses_app.
    2:{ by rewrite !delays_app, Hq, Hd. }
    cbn [between_pauses hd tl List.map snd]. rewrite !connections_app, Hc.
    change (Sync.connections [Sync.logger Sync.success])
      with (@nil Sync.Connection).
    rewrite app_nil_r. cbn [app]. by rewrite Hids.
  - cbn [app flat_map fst] in *. rewrite Hi.
    destruct (syncMultipleUsers_members batch) as [Hids Hd].
    rewrite <- !app_assoc, (app_assoc quiet), between_pauses_app.
    2:{ by rewrite delays_app, Hq, Hd. }
    cbn [app between_pauses hd tl List.map snd]. rewrite app_nil_r.
    rewrite connections_app, Hc. cbn [app]. rewrite Hids. f_equal.
    apply (IH []); done.
Qed.

End Pauses.

(** X25: [syncRegularServerUsers] pauses after every batch of a hundred
    members but the last, and nowhere else. There are as many pauses of
    1000 ms as [(n - 1) / 100] rounded down for [n] members, none for a
    hundred members or fewer; and when there are members, and the
    default channel has an id, the calls made up to the first pause,
    from each pause to the next and after the last pause are those of
    the first batch, of each batch in turn and of the last batch. *)
Theorem syncRegularServerUsers_pauses_between_batches
    (createUniqueUuid : string → string) (rejects : Sync.Connection → bool)
    (guild : Sync.Guild) (fetched : completion (list Sync.Member))
    (source : string) (members : list Sync.Member) (channel : Sync.Channel) :
  members_synced guild fetched members →
  Sync.defaultChannel guild = Some channel →
  let effects :=
    Sync.syncRegularServerUsers createUniqueUuid rejects guild fetched
      source in
  Sync.delays effects = replicate ((List.length members - 1) / 100) 1000%nat
  ∧ (Sync.channel_id channel ≠ "" → members ≠ [] →
     List.map (λ part, List.map Sync.userId (Sync.connections part))
       (between_pauses effects)
     = List.map (λ entry, List.map Sync.member_id entry.2)
         (Sync.batches 100 members)).
Proof.
  intros Hmembers Hchannel effects. subst effects. split.
  - by eapply syncRegularServerUsers_delays.
  - intros Hid Hne.
    rewrite (syncRegularServerUsers_batches _ _ _ _ _ _ _ Hmembers Hchannel).
    destruct (batches_from_last 100 (List.length members) 0 members)
      as (init & j & b & Hbatches & Hinit & Hlast); [lia | lia | |].
    { destruct members; [done | cbn; lia]. }
    unfold Sync.batches. rewrite Hbatches.
    by apply (parts_are_batches createUniqueUuid rejects (Sync.guild_id guild)
                (Sync.channel_id channel) source (List.length members) Hid
                init j b [Sync.logger Sync.info; Sync.logger Sync.info]).
Qed.

Lemma syncRegularServerUsers_pauses_between_batches_witness :
  let effects :=
    Sync.syncRegularServerUsers (λ s, "uuid-" +:+ s) (λ _, false)
      Sample.guild (Throw Rejected) "discord" in
  Sync.delays effects = [1000; 1000]%nat
  ∧ List.map (λ part, List.length (Sync.connections part))
      (between_pauses effects)
    = [100; 100; 1]%nat.
Proof.
  assert (Ha : members_synced Sample.guild (Throw Rejected)
                 (replicate 201 Sample.member))
    by (left; split; [discriminate | reflexivity]).
  assert (Hb : Sync.defaultChannel Sample.guild = Some Sample.lobby)
    by reflexivity.
  pose proof
    (syncRegularServerUsers_pauses_between_batches (λ s, "uuid-" +:+ s)
       (λ _, false) Sample.guild (Throw Rejected) "discord"
       (replicate 201 Sample.member) Sample.lobby Ha Hb) as H.
  cbv zeta in H. destruct H as [H1 H2].
  specialize (H2 ltac:(discriminate) ltac:(discriminate)).
  apply (f_equal (List.map (@List.length string))) in H2.
  vm_compute in H1, H2. vm_compute. exact (conj H1 H2).
Defined.

(** X26: In a guild without a text channel [syncRegularServerUsers]
    connects nobody and never pauses, whatever its members; and so it
    does when the members cannot be fetched. *)
Theorem syncRegularServerUsers_needs_text_channel
    (createUniqueUuid : string → string) (rejects : Sync.Connection → bool)
    (guild : Sync.Guild) (fetched : completion (list Sync.Member))
    (source : string) :
  none_such text_channel (List.map snd (Sync.channels_cache guild))
  ∨ (Sync.members_cache guild = [] ∧ ∃ e, fetched = Throw e) →
  let effects :=
    Sync.syncRegularServerUsers createUniqueUuid rejects guild fetched
      source in
  Sync.connections effects = [] ∧ Sync.delays effects = [].
Proof.
  intros H effects. subst effects. unfold Sync.syncRegularServerUsers.
  destruct H as [Hno | [-> [e ->]]]; [|done].
  apply defaultChannel_none in Hno. rewrite Hno.
  destruct (Sync.members_cache guild); [destruct fetched|]; done.
Qed.

Lemma syncRegularServerUsers_needs_text_channel_witness :
  Sync.connections
    (Sync.syncRegularServerUsers (λ s, "uuid-" +:+ s) (λ _, false)
       {| Sync.guild_id := "guild";
          Sync.members_cache :=
            [{| Sync.member_id := "m1"; Sync.user_username := Some "ada";
                Sync.member_displayName := None |}];
          Sync.channels_cache :=
            [("c1", {| Sync.channel_id := "c1";
                       Sync.channel_name := "general";
                       Sync.channel_type := 2 |})] |}
       (Throw Rejected) "discord")
  = [].
Proof.
  refine
    (proj1
       (syncRegularServerUsers_needs_text_channel (λ s, "uuid-" +:+ s)
          (λ _, false) _ (Throw Rejected) "discord" _)).
  left. repeat constructor. unfold text_channel. simpl. discriminate.
Defined.

(** ** Worlds, rooms and users of a server: [handleServerSync] *)

Section ServerSync.

Variable rejects : Sync.Connection → bool.
Variable room_rejected : string → bool.
Variable world : Sync.World.
Variable source : string.

Lemma ensure_rooms_connections (rooms : list Sync.Room) :
  Sync.connections (Sync.ensure_rooms room_rejected world source rooms).1 = []
  ∧ Sync.delays (Sync.ensure_rooms room_rejected world source rooms).1 = [].
Proof.
  induction rooms as [|room rooms IH]; [done|]. simpl.
  destruct (room_rejected (Sync.room_id room)); [done|].
  destruct (Sync.ensure_rooms room_rejected world source rooms). done.
Qed.

Lemma ensure_rooms_prefix (rooms : list Sync.Room) :
  Sync.rooms_ensured (Sync.ensure_rooms room_rejected world source rooms).1
  `prefix_of` List.map Sync.room_id rooms.
Proof.
  induction rooms as [|room rooms IH]; [done|]. simpl.
  destruct (room_rejected (Sync.room_id room)).
  - by apply (prefix_cons _ []), prefix_nil.
  - destruct (Sync.ensure_rooms room_rejected world source rooms).
    by apply prefix_cons.
Qed.

Lemma ensure_rooms_all (rooms : list Sync.Room) :
  Forall (λ room, room_rejected (Sync.room_id room) = false) rooms →
  (Sync.ensure_rooms room_rejected world source rooms).2 = true
  ∧ Sync.rooms_ensured (Sync.ensure_rooms room_rejected world source rooms).1
    = List.map Sync.room_id rooms.
Proof.
  induction 1 as [|room rooms Hroom _ IH]; [done|]. simpl. rewrite Hroom.
  destruct (Sync.ensure_rooms room_rejected world source rooms).
  cbn [fst snd] in *. destruct IH as [-> IH]. split; [done|].
  cbn [List.map]. rewrite <- IH. reflexivity.
Qed.

Lemma ensure_rooms_rejected (rooms : list Sync.Room) :
  Exists (λ room, room_rejected (Sync.room_id room) = true) rooms →
  (Sync.ensure_rooms room_rejected world source rooms).2 = false.
Proof.
  induction rooms as [|room rooms IH]; intros H; [by inversion H|]. simpl.
  destruct (room_rejected (Sync.room_id room)) eqn:Hr; [done|].
  destruct (Sync.ensure_rooms room_rejected world source rooms).
  apply IH. inversion H; [congruence | done].
Qed.

Lemma attempt_cases (first : option Sync.Room) (user : Sync.Entity) :
  (∃ c, Sync.attempt world source first user = Sync.Called c
        ∧ called world source first user = Some c
        ∧ has_metadata user = true)
  ∨ (Sync.attempt world source first user = Sync.Caught
     ∧ called world source first user = None
     ∧ has_metadata user = true)
  ∨ (Sync.attempt world source first user = Sync.Escaped
     ∧ called world source first user = None
     ∧ has_metadata user = false).
Proof.
  unfold called, has_metadata, Sync.attempt.
  destruct first as [room|], (Sync.entity_metadata user) as [metadata|];
    [|by right; right|by right; left|by right; right].
  destruct (metadata !! source); [left; by eexists | by right; left].
Qed.

Lemma warnings_only (k : nat) :
  Sync.connections (replicate k (Sync.logger Sync.warn)) = []
  ∧ Sync.delays (replicate k (Sync.logger Sync.warn)) = []
  ∧ Sync.rooms_ensured (replicate k (Sync.logger Sync.warn)) = [].
Proof. by induction k. Qed.

Lemma connect_entities_facts (first : option Sync.Room)
    (batch : list Sync.Entity) :
  Sync.connections
    (Sync.connect_entities rejects world source first batch).1.1
  = omap (called world source first) batch
  ∧ Sync.delays
      (Sync.connect_entities rejects world source first batch).1.1 = []
  ∧ Sync.rooms_ensured
      (Sync.connect_entities rejects world source first batch).1.1 = []
  ∧ (Sync.connect_entities rejects world source first batch).1.2
    = replicate
        (List.length
           (List.filter rejects (omap (called world source first) batch)))
        (Sync.logger Sync.warn)
  ∧ (Sync.connect_entities rejects world source first batch).2
    = forallb has_metadata batch.
Proof.
  unfold Sync.connect_entities. cbn [fst snd].
  induction batch as [|u batch (IH1 & IH2 & IH3 & IH4 & IH5)]; [done|].
  cbn [flat_map forallb omap list_omap].
  rewrite connections_app, delays_app, rooms_ensured_app.
  rewrite IH1, IH2, IH3, IH4, IH5.
  destruct (attempt_cases first u)
    as [(c & -> & -> & ->) | [(-> & -> & ->) | (-> & -> & ->)]];
    [|done|done].
  split_and!; try done. cbn [List.filter]. by destruct (rejects c).
Qed.

Lemma sync_entities_facts (rooms : list Sync.Room) (n : nat)
    (todo : list (nat * list Sync.Entity)) :
  Sync.connections
    (Sync.sync_entities rejects world source rooms n todo).1.1
  = omap (called world source (head rooms)) (gone_through todo)
  ∧ Sync.rooms_ensured
      (Sync.sync_entities rejects world source rooms n todo).1.1 = []
  ∧ (Sync.sync_entities rejects world source rooms n todo).1.2
    = forallb (λ b, forallb has_metadata b.2) todo
  ∧ ∃ k,
      (Sync.sync_entities rejects world source rooms n todo).2
      = replicate k (Sync.logger Sync.warn).
Proof.
  induction todo as [|[i batch] todo (IH1 & IH2 & IH3 & k & IH4)].
  { split_and!; [done | done | done | by exists 0]. }
  cbn [Sync.sync_entities gone_through forallb snd].
  destruct (connect_entities_facts (head rooms) batch)
    as (Hc & _ & Hr & Hw & Hok).
  destruct (Sync.connect_entities rejects world source (head rooms) batch)
    as [[started warned] ok].
  cbn [fst snd] in Hc, Hr, Hw, Hok. rewrite <- Hok.
  destruct ok; [|split_and!; [done | done | done | by eexists]].
  destruct (Sync.sync_entities rejects world source rooms n todo)
    as [[later ok'] afterwards].
  cbn [fst snd] in *.
  rewrite !connections_app, !rooms_ensured_app, Hc, Hr, IH1, IH2, omap_app.
  rewrite Hw. destruct (warnings_only
                          (List.length
                             (List.filter rejects
                                (omap (called world source (head rooms)) batch))))
    as (-> & _ & ->).
  split_and!; [|by destruct (i + 50 <? n)%nat | done | by exists k].
  by destruct (i + 50 <? n)%nat.
Qed.

Lemma sync_entities_afterwards_none (rooms : list Sync.Room) (n : nat)
    (todo : list (nat * list Sync.Entity)) :
  forallb (λ b, forallb has_metadata b.2) todo = true →
  (Sync.sync_entities rejects world source rooms n todo).2 = [].
Proof.
  induction todo as [|[i batch] todo IH]; [done|].
  cbn [Sync.sync_entities forallb snd]. intros [Hb Hrest]%andb_true_iff.
  destruct (connect_entities_facts (head rooms) batch) as (_ & _ & _ & _ & Hok).
  destruct (Sync.connect_entities rejects world source (head rooms) batch)
    as [[started warned] ok].
  cbn [snd] in Hok. rewrite Hok, Hb.
  specialize (IH Hrest).
  by destruct (Sync.sync_entities rejects world source rooms n todo)
    as [[later ok'] afterwards].
Qed.


Lemma sync_entities_report (rooms : list Sync.Room) (n : nat)
    (todo : list (nat * list Sync.Entity)) :
  let '(effects, ok, afterwards) :=
    Sync.sync_entities rejects world source rooms n todo in
  Sync.connections
    (effects ++ [Sync.logger (if ok then Sync.success else Sync.error)]
     ++ afterwards)
  = omap (called world source (head rooms)) (gone_through todo)
  ∧ Sync.rooms_ensured
      (effects ++ [Sync.logger (if ok then Sync.success else Sync.error)]
       ++ afterwards)
    = [].
Proof.
  destruct (sync_entities_facts rooms n todo) as (Hc & Hr & _ & k & Hk).
  destruct (Sync.sync_entities rejects world source rooms n todo)
    as [[effects ok] afterwards].
  cbn [fst snd] in Hc, Hr, Hk. subst afterwards.
  rewrite !connections_app, !rooms_ensured_app, Hc, Hr.
  destruct (warnings_only k) as (-> & _ & ->).
  split; by destruct ok; rewrite app_nil_r.
Qed.

Lemma gone_through_all (todo : list (nat * list Sync.Entity)) :
  Forall (λ user, has_metadata user = true) (concat (List.map snd todo)) →
  gone_through todo = concat (List.map snd todo)
  ∧ forallb (λ b, forallb has_metadata b.2) todo = true.
Proof.
  induction todo as [|[i batch] todo IH]; [done|].
  cbn [List.map concat snd gone_through forallb]. intros H.
  apply Forall_app in H as [Hb Hrest]. destruct (IH Hrest) as [-> ->].
  assert (forallb has_metadata batch = true) as ->; [|done].
  apply forallb_forall. intros u Hu. apply list_elem_of_In in Hu.
  by eapply Forall_forall in Hb.
Qed.

Lemma called_without_room (user : Sync.Entity) :
  called world source None user = None.
Proof.
  unfold called, Sync.attempt. by destruct (Sync.entity_metadata user).
Qed.

Lemma called_fields (room : Sync.Room) (user : Sync.Entity)
    (c : Sync.Connection) :
  called world source (Some room) user = Some c →
  known_on source user = true
  ∧ Sync.userId c = Sync.entity_id user
  ∧ Sync.roomId c = Sync.room_id room
  ∧ Sync.channelId c = Sync.room_channelId room
  ∧ Sync.type c = Sync.room_type room
  ∧ Sync.serverId c = Sync.world_serverId world
  ∧ Sync.worldId c = Sync.world_id world
  ∧ Sync.source c = source.
Proof.
  unfold called, known_on, Sync.attempt.
  destruct (Sync.entity_metadata user) as [metadata|]; [|done].
  destruct (metadata !! source); [|done]. by intros [= <-].
Qed.

Lemma called_known (room : Sync.Room) (user : Sync.Entity) :
  known_on source user = true →
  is_Some (called world source (Some room) user).
Proof.
  unfold called, known_on, Sync.attempt.
  destruct (Sync.entity_metadata user) as [metadata|]; [|done].
  by destruct (metadata !! source).
Qed.

Lemma called_users (room : Sync.Room) (users : list Sync.Entity) :
  List.map Sync.userId (omap (called world source (Some room)) users)
  = List.map Sync.entity_id (List.filter (known_on source) users).
Proof.
  induction users as [|u users IH]; [done|]. cbn [omap list_omap List.filter].
  destruct (called world source (Some room) u) as [c|] eqn:Hc.
  - apply called_fields in Hc as (-> & Hid & _). cbn [List.map].
    by rewrite Hid, IH.
  - destruct (known_on source u) eqn:Hk; [|done].
    apply (called_known room) in Hk as [c Hk]. congruence.
Qed.

End ServerSync.

(** X27: [handleServerSync], the world and the rooms accepted and every
    user having metadata: every room is ensured, in order, and
    [ensureConnection] is called once for every user with names for the
    platform, in the order of the users, each time for the first of the
    rooms; the users without names for the platform are left out, and
    which calls are rejected changes none of them. *)
Theorem handleServerSync_connects_to_first_room
    (rejects : Sync.Connection → bool) (room_rejected : string → bool)
    (world : Sync.World) (room : Sync.Room) (rooms : list Sync.Room)
    (users : list Sync.Entity) (source : string) :
  Forall (λ r, room_rejected (Sync.room_id r) = false) (room :: rooms) →
  Forall (λ user, has_metadata user = true) users →
  let effects :=
    Sync.handleServerSync rejects false room_rejected world
      (Some (room :: rooms)) (Some users) source in
  Sync.rooms_ensured effects = List.map Sync.room_id (room :: rooms)
  ∧ List.map Sync.userId (Sync.connections effects)
    = List.map Sync.entity_id (List.filter (known_on source) users)
  ∧ Forall
      (λ c,
         Sync.roomId c = Sync.room_id room
         ∧ Sync.channelId c = Sync.room_channelId room
         ∧ Sync.type c = Sync.room_type room
         ∧ Sync.serverId c = Sync.world_serverId world
         ∧ Sync.worldId c = Sync.world_id world
         ∧ Sync.source c = source)
      (Sync.connections effects)
  ∧ ∀ rejects',
      Sync.connections
        (Sync.handleServerSync rejects' false room_rejected world
           (Some (room :: rooms)) (Some users) source)
      = Sync.connections effects.
Proof.
  intros Hrooms Husers effects.
  assert (∀ rejects',
            Sync.connections
              (Sync.handleServerSync rejects' false room_rejected world
                 (Some (room :: rooms)) (Some users) source)
            = omap (called world source (Some room)) users
            ∧ Sync.rooms_ensured
                (Sync.handleServerSync rejects' false room_rejected world
                   (Some (room :: rooms)) (Some users) source)
              = List.map Sync.room_id (room :: rooms)) as Hcalls.
  { intros rejects'. unfold Sync.handleServerSync.
    change (default [] (Some (room :: rooms))) with (room :: rooms).
    destruct (ensure_rooms_all room_rejected world source _ Hrooms)
      as [Hok Hens].
    destruct (ensure_rooms_connections room_rejected world source
                (room :: rooms)) as [Hconn _].
    destruct (Sync.ensure_rooms room_rejected world source (room :: rooms))
      as [room_calls ok].
    cbn [fst snd] in Hok, Hens, Hconn. subst ok. cbv beta iota.
    rewrite !connections_app, !rooms_ensured_app, Hconn, Hens.
    change (Sync.connections
              [Sync.logger Sync.info;
               Sync.ensureWorldExists (Sync.world_id world)
                 (Sync.world_name world) (Sync.world_serverId world)])
      with (@nil Sync.Connection).
    change (Sync.rooms_ensured
              [Sync.logger Sync.info;
               Sync.ensureWorldExists (Sync.world_id world)
                 (Sync.world_name world) (Sync.world_serverId world)])
      with (@nil string).
    rewrite !app_nil_l. destruct users as [|u us] eqn:Hus.
    { split; [done|]. by rewrite app_nil_r. }
    rewrite <- Hus in *.
    pose proof (sync_entities_report rejects' world source (room :: rooms)
                  (List.length users) (Sync.batches 50 users)) as Hrep.
    destruct (Sync.sync_entities rejects' world source (room :: rooms)
                (List.length users) (Sync.batches 50 users))
      as [[effects' ok'] afterwards].
    cbv beta iota in Hrep |- *. destruct Hrep as [-> ->].
    destruct (gone_through_all (Sync.batches 50 users)) as [-> _].
    { by rewrite batches_concat by lia. }
    rewrite batches_concat by lia. cbn [head]. by rewrite app_nil_r. }
  subst effects. destruct (Hcalls rejects) as [-> ->]. split_and!.
  - done.
  - apply called_users.
  - apply Forall_forall. intros c Hin. apply list_elem_of_omap in Hin as (u & _ & Hc).
    apply called_fields in Hc as (_ & _ & ? & ? & ? & ? & ? & ?). done.
  - intros rejects'. apply Hcalls.
Qed.

Lemma handleServerSync_connects_to_first_room_witness :
  List.map Sync.userId
    (Sync.connections
       (Sync.handleServerSync (λ _, true) false (λ _, false)
          {| Sync.world_id := "w"; Sync.world_name := "World";
             Sync.world_serverId := "s" |}
          (Some
             [{| Sync.room_id := "r1"; Sync.room_name := "general";
                 Sync.room_type := Sync.GROUP; Sync.room_channelId := "c1" |};
              {| Sync.room_id := "r2"; Sync.room_name := "voice";
                 Sync.room_type := Sync.VOICE_GROUP;
                 Sync.room_channelId := "c2" |}])
          (Some
             [{| Sync.entity_id := "u1";
                 Sync.entity_metadata :=
                   Some
                     {[ "discord" :=
                          {| Sync.names_username := Some "ada";
                             Sync.names_name := Some "Ada" |} ]} |};
              {| Sync.entity_id := "u2"; Sync.entity_metadata := Some ∅ |}])
          "discord"))
  = ["u1"].
Proof.
  refine
    (proj1
       (proj2
          (handleServerSync_connects_to_first_room (λ _, true) (λ _, false)
             {| Sync.world_id := "w"; Sync.world_name := "World";
                Sync.world_serverId := "s" |}
             {| Sync.room_id := "r1"; Sync.room_name := "general";
                Sync.room_type := Sync.GROUP; Sync.room_channelId := "c1" |}
             [{| Sync.room_id := "r2"; Sync.room_name := "voice";
                 Sync.room_type := Sync.VOICE_GROUP;
                 Sync.room_channelId := "c2" |}]
             [{| Sync.entity_id := "u1";
                 Sync.entity_metadata :=
                   Some
                     {[ "discord" :=
                          {| Sync.names_username := Some "ada";
                             Sync.names_name := Some "Ada" |} ]} |};
              {| Sync.entity_id := "u2"; Sync.entity_metadata := Some ∅ |}]
             "discord" _ _))).
  - repeat constructor.
  - repeat constructor.
Defined.

Lemma ends_in_error_app (effects : list Sync.Effect) :
  ends_in_error (effects ++ [Sync.logger Sync.error]).
Proof. apply last_snoc. Qed.

Lemma omap_called_without_room (world : Sync.World) (source : string)
    (users : list Sync.Entity) :
  omap (called world source None) users = [].
Proof.
  induction users as [|u users IH]; [done|]. cbn [omap list_omap].
  by rewrite called_without_room.
Qed.

(** X28: [handleServerSync] connects nobody when the rooms are missing
    or empty, when [ensureWorldExists] is rejected or when
    [ensureRoomExists] is rejected for one of the rooms. The rooms
    ensured are the first ones of the rooms, in order; and after a
    rejection the last thing done is the report of an error. *)
Theorem handleServerSync_no_connection
    (rejects : Sync.Connection → bool) (world_rejected : bool)
    (room_rejected : string → bool) (world : Sync.World)
    (rooms : option (list Sync.Room)) (users : option (list Sync.Entity))
    (source : string) :
  rooms = None ∨ rooms = Some [] ∨ world_rejected = true
  ∨ Exists (λ room, room_rejected (Sync.room_id room) = true)
      (default [] rooms) →
  let effects :=
    Sync.handleServerSync rejects world_rejected room_rejected world rooms
      users source in
  Sync.connections effects = []
  ∧ Sync.rooms_ensured effects `prefix_of` List.map Sync.room_id (default [] rooms)
  ∧ (world_rejected = true
     ∨ Exists (λ room, room_rejected (Sync.room_id room) = true)
         (default [] rooms) →
     ends_in_error effects).
Proof.
  intros H effects. subst effects. unfold Sync.handleServerSync.
  rewrite connections_app, rooms_ensured_app.
  change (Sync.connections
            [Sync.logger Sync.info;
             Sync.ensureWorldExists (Sync.world_id world)
               (Sync.world_name world) (Sync.world_serverId world)])
    with (@nil Sync.Connection).
  change (Sync.rooms_ensured
            [Sync.logger Sync.info;
             Sync.ensureWorldExists (Sync.world_id world)
               (Sync.world_name world) (Sync.world_serverId world)])
    with (@nil string).
  rewrite !app_nil_l.
  destruct world_rejected.
  { split_and!; [done|apply prefix_nil|intros _; apply (ends_in_error_app [_; _])]. }
  pose proof (ensure_rooms_connections room_rejected world source
                (default [] rooms)) as [Hconn _].
  pose proof (ensure_rooms_prefix room_rejected world source
                (default [] rooms)) as Hpre.
  pose proof (ensure_rooms_rejected room_rejected world source
                (default [] rooms)) as Hrej.
  destruct (Sync.ensure_rooms room_rejected world source (default [] rooms))
    as [room_calls ok] eqn:Hrooms.
  cbn [fst snd] in *. rewrite connections_app, rooms_ensured_app, Hconn.
  rewrite app_nil_l.
  destruct ok.
  - assert (¬ Exists (λ room, room_rejected (Sync.room_id room) = true)
                (default [] rooms)) as Hnone.
    { intros Hex. by apply Hrej in Hex. }
    destruct H as [-> | [-> | [? | ?]]]; [| |done|done].
    + split_and!.
      * by destruct users as [[|]|].
      * by destruct users as [[|]|]; rewrite app_nil_r.
      * by intros [|].
    + cbn in Hrooms. injection Hrooms as <-. split_and!.
      * destruct users as [[|u us]|]; [done| |done].
        pose proof (sync_entities_report rejects world source []
                      (List.length (u :: us)) (Sync.batches 50 (u :: us)))
          as Hrep.
        destruct (Sync.sync_entities rejects world source []
                    (List.length (u :: us)) (Sync.batches 50 (u :: us)))
          as [[effects' ok'] afterwards].
        cbv beta iota in Hrep |- *. destruct Hrep as [-> _]. cbn [head].
        apply omap_called_without_room.
      * apply prefix_nil_inv in Hpre. rewrite Hpre.
        destruct users as [[|u us]|]; [done| |done].
        pose proof (sync_entities_report rejects world source []
                      (List.length (u :: us)) (Sync.batches 50 (u :: us)))
          as Hrep.
        destruct (Sync.sync_entities rejects world source []
                    (List.length (u :: us)) (Sync.batches 50 (u :: us)))
          as [[effects' ok'] afterwards].
        cbv beta iota in Hrep |- *. by destruct Hrep as [_ ->].
      * by intros [|].
  - split_and!.
    + done.
    + by rewrite app_nil_r.
    + intros _. rewrite app_assoc. apply ends_in_error_app.
Qed.

Lemma handleServerSync_no_connection_witness :
  Sync.connections
    (Sync.handleServerSync (λ _, false) false (λ _, false)
       {| Sync.world_id := "w"; Sync.world_name := "World";
          Sync.world_serverId := "s" |}
       (Some [])
       (Some
          [{| Sync.entity_id := "u1";
              Sync.entity_metadata :=
                Some
                  {[ "discord" :=
                       {| Sync.names_username := Some "ada";
                          Sync.names_name := Some "Ada" |} ]} |}])
       "discord")
  = [].
Proof.
  refine
    (proj1
       (handleServerSync_no_connection (λ _, false) false (λ _, false)
          {| Sync.world_id := "w"; Sync.world_name := "World";
             Sync.world_serverId := "s" |}
          (Some [])
          (Some
             [{| Sync.entity_id := "u1";
                 Sync.entity_metadata :=
                   Some
                     {[ "discord" :=
                          {| Sync.names_username := Some "ada";
                             Sync.names_name := Some "Ada" |} ]} |}])
          "discord" _)).
  right. left. reflexivity.
Defined.





(** ** The channels of a guild: [syncServerChannels] *)

Section ServerChannels.

Variable createUniqueUuid : string → string.
Variable room_rejected : string → bool.
Variable room_stored : string → completion bool.
Variable guild : Sync.Guild.
Variable worldId : string.

Lemma sync_channels_sound (channels : list (string * Sync.Channel))
    (id name source : string) (type : Sync.ChannelType)
    (channelId serverId world : string) :
  Sync.ensureRoomExists id name source type channelId serverId world
  ∈ (Sync.sync_channels createUniqueUuid room_rejected room_stored guild
       worldId channels).1 →
  ∃ key channel,
    (key, channel) ∈ channels
    ∧ id = createUniqueUuid key
    ∧ name = Sync.channel_name channel
    ∧ source = "discord"
    ∧ channelId = Sync.channel_id channel
    ∧ serverId = Sync.guild_id guild
    ∧ world = worldId
    ∧ room_stored id = Return false
    ∧ ((Sync.channel_type channel = 0%Z ∧ type = Sync.GROUP)
       ∨ (Sync.channel_type channel = 2%Z ∧ type = Sync.VOICE_GROUP)).
Proof.
  induction channels as [|[key ch] channels IH]; cbn [Sync.sync_channels].
  - intros H. by apply elem_of_nil in H.
  - assert (∀ effects,
              Sync.ensureRoomExists id name source type channelId serverId
                world ∈ effects →
              effects
              = (Sync.sync_channels createUniqueUuid room_rejected room_stored
                   guild worldId channels).1 →
              ∃ key0 channel,
                (key0, channel) ∈ (key, ch) :: channels
                ∧ id = createUniqueUuid key0
                ∧ name = Sync.channel_name channel
                ∧ source = "discord"
                ∧ channelId = Sync.channel_id channel
                ∧ serverId = Sync.guild_id guild
                ∧ world = worldId
                ∧ room_stored id = Return false
                ∧ ((Sync.channel_type channel = 0%Z ∧ type = Sync.GROUP)
                   ∨ (Sync.channel_type channel = 2%Z
                      ∧ type = Sync.VOICE_GROUP))) as Hrest.
    { intros effects Hin ->. destruct (IH Hin) as (k & c & Hk & Hc).
      exists k, c. split; [by apply list_elem_of_further | done]. }
    assert (room_stored (createUniqueUuid key) = Return false →
            (Sync.channel_type ch =? 0)%Z || (Sync.channel_type ch =? 2)%Z
            = true →
            Sync.ensureRoomExists id name source type channelId serverId world
            = Sync.ensureRoomExists (createUniqueUuid key)
                (Sync.channel_name ch) "discord"
                (if (Sync.channel_type ch =? 0)%Z then Sync.GROUP
                 else if (Sync.channel_type ch =? 2)%Z then Sync.VOICE_GROUP
                 else Sync.GROUP)
                (Sync.channel_id ch) (Sync.guild_id guild) worldId →
            ∃ key0 channel,
              (key0, channel) ∈ (key, ch) :: channels
              ∧ id = createUniqueUuid key0
              ∧ name = Sync.channel_name channel
              ∧ source = "discord"
              ∧ channelId = Sync.channel_id channel
              ∧ serverId = Sync.guild_id guild
              ∧ world = worldId
              ∧ room_stored id = Return false
              ∧ ((Sync.channel_type channel = 0%Z ∧ type = Sync.GROUP)
                 ∨ (Sync.channel_type channel = 2%Z
                    ∧ type = Sync.VOICE_GROUP))) as Hhere.
    { intros Hst Hty [= -> -> -> -> -> -> ->]. exists key, ch.
      split_and!; try done; [apply list_elem_of_here|].
      destruct (Z.eqb_spec (Sync.channel_type ch) 0); [by left|].
      destruct (Z.eqb_spec (Sync.channel_type ch) 2); [by right|done]. }
    destruct ((Sync.channel_type ch =? 0)%Z || (Sync.channel_type ch =? 2)%Z)
      eqn:Hty; [|by eauto].
    destruct (room_stored (createUniqueUuid key)) as [[|]|] eqn:Hst.
    + destruct (Sync.sync_channels createUniqueUuid room_rejected room_stored
                  guild worldId channels) as [effects ok].
      cbn [fst]. intros Hin. apply elem_of_cons in Hin as [?|Hin]; [done|].
      by eapply Hrest.
    + destruct (room_rejected (createUniqueUuid key)).
      * cbn [fst]. intros Hin.
        apply elem_of_cons in Hin as [?|Hin]; [done|].
        apply list_elem_of_singleton in Hin. by apply Hhere.
      * destruct (Sync.sync_channels createUniqueUuid room_rejected
                    room_stored guild worldId channels) as [effects ok].
        cbn [fst]. intros Hin.
        apply elem_of_cons in Hin as [?|Hin]; [done|].
        apply elem_of_cons in Hin as [Hin|Hin]; [by apply Hhere|].
        by eapply Hrest.
    + cbn [fst]. intros Hin. by apply list_elem_of_singleton in Hin.
Qed.

Lemma sync_channels_complete (channels : list (string * Sync.Channel)) :
  (∀ key channel, (key, channel) ∈ channels →
                  ∃ stored, room_stored (createUniqueUuid key) = Return stored) →
  (∀ id, room_rejected id = false) →
  (Sync.sync_channels createUniqueUuid room_rejected room_stored guild worldId
     channels).2 = true
  ∧ Sync.rooms_ensured
      (Sync.sync_channels createUniqueUuid room_rejected room_stored guild
         worldId channels).1
    = List.map (λ entry, createUniqueUuid entry.1)
        (List.filter (to_be_stored createUniqueUuid room_stored) channels).
Proof.
  intros Hstored Hrej.
  induction channels as [|[key ch] channels IH]; [done|].
  cbn [Sync.sync_channels List.filter]. unfold to_be_stored at 1. cbn [fst snd].
  destruct IH as [IH1 IH2].
  { intros k c Hin. apply (Hstored k c). by apply list_elem_of_further. }
  destruct ((Sync.channel_type ch =? 0)%Z || (Sync.channel_type ch =? 2)%Z);
    [|done].
  destruct (Hstored key ch) as [stored ->]; [apply list_elem_of_here|].
  rewrite Hrej. cbn [andb].
  destruct (Sync.sync_channels createUniqueUuid room_rejected room_stored
              guild worldId channels) as [effects ok].
  cbn [fst snd] in *. subst ok. destruct stored; [done|].
  split; [done|]. cbn [List.map fst]. by rewrite <- IH2.
Qed.

Lemma sync_channels_connections (channels : list (string * Sync.Channel)) :
  Sync.connections
    (Sync.sync_channels createUniqueUuid room_rejected room_stored guild
       worldId channels).1 = [].
Proof.
  induction channels as [|[key ch] channels IH]; [done|].
  cbn [Sync.sync_channels].
  destruct ((Sync.channel_type ch =? 0)%Z || (Sync.channel_type ch =? 2)%Z);
    [|done].
  destruct (room_stored (createUniqueUuid key)) as [[|]|]; [| |done].
  - by destruct (Sync.sync_channels createUniqueUuid room_rejected room_stored
                   guild worldId channels).
  - destruct (room_rejected (createUniqueUuid key)); [done|].
    by destruct (Sync.sync_channels createUniqueUuid room_rejected room_stored
                   guild worldId channels).
Qed.

End ServerChannels.

(** X30: [syncServerChannels] does nothing for a platform other than
    Discord and never connects a user. On Discord every room it ensures
    is made of a text or a voice channel of the guild of which no room
    is stored: a group for a text channel, a voice group for a voice
    channel, with the name and the id of the channel, in the world of
    the guild. When no call fails, these channels all get their room, in
    the order of the guild. *)
Theorem syncServerChannels_rooms
    (createUniqueUuid : string → string) (room_rejected : string → bool)
    (room_stored : string → completion bool) (guild : Sync.Guild)
    (source : string) :
  let effects :=
    Sync.syncServerChannels createUniqueUuid room_rejected room_stored
      (Return guild) source in
  (source ≠ "discord" → effects = [])
  ∧ Sync.connections effects = []
  ∧ (∀ id name source' type channelId serverId worldId,
       Sync.ensureRoomExists id name source' type channelId serverId worldId
       ∈ effects →
       ∃ key channel,
         (key, channel) ∈ Sync.channels_cache guild
         ∧ id = createUniqueUuid key
         ∧ name = Sync.channel_name channel
         ∧ source' = "discord"
         ∧ channelId = Sync.channel_id channel
         ∧ serverId = Sync.guild_id guild
         ∧ worldId = createUniqueUuid (Sync.guild_id guild)
         ∧ room_stored id = Return false
         ∧ ((Sync.channel_type channel = 0%Z ∧ type = Sync.GROUP)
            ∨ (Sync.channel_type channel = 2%Z ∧ type = Sync.VOICE_GROUP)))
  ∧ (source = "discord" →
     (∀ key channel,
        (key, channel) ∈ Sync.channels_cache guild →
        ∃ stored, room_stored (createUniqueUuid key) = Return stored) →
     (∀ id, room_rejected id = false) →
     Sync.rooms_ensured effects
     = List.map (λ entry, createUniqueUuid entry.1)
         (List.filter (to_be_stored createUniqueUuid room_stored)
            (Sync.channels_cache guild))).
Proof.
  intros effects. subst effects. unfold Sync.syncServerChannels.
  destruct (String.eqb_spec source "discord") as [->|Hsource].
  2:{ split_and!; [done|done| |done].
      intros ? ? ? ? ? ? ? H. by apply elem_of_nil in H. }
  pose proof (sync_channels_sound createUniqueUuid room_rejected room_stored
                guild (createUniqueUuid (Sync.guild_id guild))
                (Sync.channels_cache guild)) as Hsound.
  pose proof (sync_channels_complete createUniqueUuid room_rejected
                room_stored guild (createUniqueUuid (Sync.guild_id guild))
                (Sync.channels_cache guild)) as Hcomplete.
  pose proof (sync_channels_connections createUniqueUuid room_rejected
                room_stored guild (createUniqueUuid (Sync.guild_id guild))
                (Sync.channels_cache guild)) as Hconn.
  destruct (Sync.sync_channels createUniqueUuid room_rejected room_stored
              guild (createUniqueUuid (Sync.guild_id guild))
              (Sync.channels_cache guild)) as [effects ok].
  cbn [fst snd] in *. split_and!.
  - done.
  - rewrite connections_app, Hconn. by destruct ok.
  - intros id name source' type channelId serverId worldId Hin.
    apply Hsound. apply elem_of_app in Hin as [Hin|Hin]; [done|].
    destruct ok; [by apply elem_of_nil in Hin|].
    by apply list_elem_of_singleton in Hin.
  - intros _ Hstored Hrej. destruct (Hcomplete Hstored Hrej) as [-> <-].
    by rewrite app_nil_r.
Qed.
